(** * ImitatePass: the pass-imitating backend of QtPass

    A shallow embedding of [src/imitatepass.cpp].  The member functions of
    [ImitatePass] become actions over an explicit outside world (file
    system, key ring, external tools) that also record, in order, every
    command they issue and every Qt signal they emit.

    Conventions of the embedding:
    - a [QString] is a [string]; its length is the number of characters
      (for text outside Latin-1 Qt counts UTF-16 code units instead);
    - a [QStringList] is a [list string];
    - [tr] is the identity (the untranslated source text);
    - [dbg()] output is not recorded. *)

From Stdlib Require Import String Ascii List Bool Arith Lia.
From Stdlib Require Import Permutation Sorted.
Import ListNotations.

Local Open Scope string_scope.
Local Open Scope list_scope.
Local Open Scope nat_scope.

Infix "+++" := String.append (right associativity, at level 60).

(** ** Characters and literals that cannot be written inline *)

Definition LF : ascii := ascii_of_nat 10.
Definition CR : ascii := ascii_of_nat 13.
Definition TAB : ascii := ascii_of_nat 9.
Definition SPACE : ascii := ascii_of_nat 32.
Definition DQUOTE : ascii := ascii_of_nat 34.

(** The C++ literal ["\n"]. *)
Definition nl : string := String LF EmptyString.

(** ** The fragment of QString / QStringList the file uses *)

Module Qt.

(** [QString::isEmpty]. *)
Definition isEmpty (s : string) : bool :=
  match s with EmptyString => true | _ => false end.

(** [QList::isEmpty]. *)
Definition isEmptyList {A} (l : list A) : bool :=
  match l with [] => true | _ => false end.

(** [QString::split(sep)] for a one-character separator, with the default
    [KeepEmptyParts]: the string is cut at every occurrence of [sep];
    adjacent separators give empty pieces and the empty string gives one
    empty piece. *)
Fixpoint split (sep : ascii) (s : string) : list string :=
  match s with
  | EmptyString => [EmptyString]
  | String c s' =>
      if Ascii.eqb c sep then EmptyString :: split sep s'
      else match split sep s' with
           | [] => [String c EmptyString]
           | piece :: pieces => String c piece :: pieces
           end
  end.

(** [QString::right(n)]: the [n] rightmost characters, the whole string
    when it is shorter. *)
Definition right (n : nat) (s : string) : string :=
  substring (String.length s - n) n s.

(** [QString::left(n)]. *)
Definition left (n : nat) (s : string) : string :=
  substring 0 n s.

(** [s.replace(QRegExp("\\.gpg$"), QString())]: the pattern is anchored at
    the end of the string, so at most the final [".gpg"] is removed. *)
Definition removeGpgSuffix (s : string) : string :=
  if String.eqb (right 4 s) ".gpg"
  then left (String.length s - 4) s
  else s.

(** [operator==] on [QStringList]. *)
Fixpoint listEq (a b : list string) : bool :=
  match a, b with
  | [], [] => true
  | x :: a', y :: b' => String.eqb x y && listEq a' b'
  | _, _ => false
  end.

(** [QStringList::sort()]: ascending, case-sensitive.  The order is the
    lexicographic one on character codes; since equal strings are
    indistinguishable the result does not depend on the algorithm, and an
    insertion sort stands for [std::sort]. *)
Fixpoint insertSorted (x : string) (l : list string) : list string :=
  match l with
  | [] => [x]
  | y :: l' => if String.leb x y then x :: l else y :: insertSorted x l'
  end.

Fixpoint sort (l : list string) : list string :=
  match l with
  | [] => []
  | x :: l' => insertSorted x (sort l')
  end.

End Qt.

(** ** RecipientInspector: parsing the inspection output

    Lines 272-286 of [reencryptPath]. *)

(** The body of the inner [while (itr.hasNext())] loop, for one line:
    [cur = current.split(" ")], then [cur.takeAt(4)] when
    [cur.length() > 4], appended to [actualKeys] when its length is 16. *)
Definition scanLine (actualKeys : list string) (current : string)
  : list string :=
  let cur := Qt.split SPACE current in
  if 4 <? List.length cur then
    let actualKey := nth 4 cur EmptyString in
    if String.length actualKey =? 16 then actualKeys ++ [actualKey]
    else actualKeys
  else actualKeys.

(** The whole inner loop over [key = keys.split("\n")]. *)
Fixpoint scanLines (key : list string) (actualKeys : list string)
  : list string :=
  match key with
  | [] => actualKeys
  | current :: itr => scanLines itr (scanLine actualKeys current)
  end.

(** [keys += err], split into lines, scanned, sorted. *)
Definition parseActualKeys (keys err : string) : list string :=
  let keys := keys +++ err in
  let key := Qt.split LF keys in
  Qt.sort (scanLines key []).

(** ** Settings, users, job identifiers *)

(** The values [QtPassSettings] answers with.  They are read from ambient
    state at each use; no function of this file changes them, so one record
    is fixed for the duration of an operation. *)
Record Settings := mkSettings {
  passStore : string;       (* getPassStore()     *)
  gitExecutable : string;   (* getGitExecutable() *)
  gpgExecutable : string;   (* getGpgExecutable() *)
  useGit : bool;            (* isUseGit()         *)
  useWebDav : bool;         (* isUseWebDav()      *)
  autoPull : bool;          (* isAutoPull()       *)
  autoPush : bool;          (* isAutoPush()       *)
  addGPGId : bool           (* isAddGPGId(true)   *)
}.

(** The fields of [UserInfo] that [Init] reads. *)
Record UserInfo := mkUserInfo {
  key_id : string;
  enabled : bool;
  have_secret : bool
}.

(** The job identifiers this file passes to [executeWrapper]. *)
Inductive PROCESS :=
| GIT_INIT | GIT_ADD | GIT_COMMIT | GIT_RM | GIT_PULL | GIT_PUSH
| PASS_SHOW | PASS_INSERT.

(** What [QDirIterator] hands out for one entry: [next()] and
    [fileInfo().path()]. *)
Record FileInfo := mkFileInfo {
  filePath : string;   (* the value of gpgFiles.next()        *)
  path : string        (* the value of gpgFiles.fileInfo().path() *)
}.

(** The result of a blocking run.  [Executor::executeBlocking] stores the
    captured streams through its out-parameters only after a normal exit;
    otherwise the caller's strings keep the value they had. *)
Inductive ExecOutcome :=
| NormalExit (exitCode : nat) (pout perr : string)
| NoNormalExit.

Definition outOr (dflt : string) (r : ExecOutcome) : string :=
  match r with NormalExit _ pout _ => pout | NoNormalExit => dflt end.

Definition errOr (dflt : string) (r : ExecOutcome) : string :=
  match r with NormalExit _ _ perr => perr | NoNormalExit => dflt end.

(** ** Observable events, in program order *)

Inductive Event :=
(* exec.execute(id, workDir, app, args, input, ..): queued, not awaited *)
| Execute (id : PROCESS) (workDir app : string) (args : list string)
          (input : string)
(* exec.executeBlocking(app, args, input, ..): awaited *)
| ExecuteBlocking (app : string) (args : list string) (input : string)
(* signals *)
| Critical (title msg : string)
| StatusMsg (msg : string) (timeout : nat)
| LastDecrypt (text : string)
| StartReencryptPath
| EndReencryptPath
(* a call of Pass::getRecipientList (reads declaration files only) *)
| GetRecipientList (file : string)
(* direct file-system mutations *)
| FileOpenedForWriting (file : string)
| FileWritten (file data : string)
| FileRemoved (file : string)
| DirRemovedRecursively (dir : string).

(** ** The outside world

    Everything this file calls but does not define: the blocking executor,
    the access-control resolver, directory iteration, [QDir] path
    arithmetic and the file operations.  [W] is the state of the file
    system, key rings and remotes. *)
Record System (W : Type) := mkSystem {
  (* Executor::executeBlocking(app, args, input) *)
  sysExec : W -> string -> list string -> string -> W * ExecOutcome;
  (* Pass::getRecipientList(file) *)
  sysRecipients : W -> string -> list string;
  (* QDirIterator(dir, {"*.gpg"}, QDir::Files, Subdirectories), in order *)
  sysGpgFiles : W -> string -> list FileInfo;
  (* QDir(dir).relativeFilePath(file) *)
  sysRelativeFilePath : string -> string -> string;
  (* QFileInfo::exists, QFileInfo::isFile *)
  sysExists : W -> string -> bool;
  sysIsFile : W -> string -> bool;
  (* QFile::open(WriteOnly | Text): None when the file cannot be opened,
     otherwise the world with the file created or truncated *)
  sysOpenWrite : W -> string -> option W;
  (* QFile::write on the open file *)
  sysWrite : W -> string -> string -> W;
  (* QFile::remove, QDir::removeRecursively *)
  sysRemove : W -> string -> W;
  sysRemoveRecursively : W -> string -> W
}.

Arguments sysExec {W} _ _ _ _ _.
Arguments sysRecipients {W} _ _ _.
Arguments sysGpgFiles {W} _ _ _.
Arguments sysRelativeFilePath {W} _ _ _.
Arguments sysExists {W} _ _ _.
Arguments sysIsFile {W} _ _ _.
Arguments sysOpenWrite {W} _ _ _.
Arguments sysWrite {W} _ _ _ _.
Arguments sysRemove {W} _ _ _.
Arguments sysRemoveRecursively {W} _ _ _.

(** ** Actions: world in, result, world and emitted events out *)

Definition Act (W A : Type) : Type := W -> A * W * list Event.

Definition ret {W A} (a : A) : Act W A := fun w => (a, w, []).

Definition bind {W A B} (m : Act W A) (k : A -> Act W B) : Act W B :=
  fun w =>
    let '(a, w1, t1) := m w in
    let '(b, w2, t2) := k a w1 in
    (b, w2, t1 ++ t2).

Declare Scope act_scope.
Delimit Scope act_scope with act.
Notation "x <- m ;; k" := (bind m (fun x => k))
  (at level 100, m at next level, right associativity) : act_scope.
Notation "m ;; k" := (bind m (fun _ => k))
  (at level 100, right associativity) : act_scope.

Definition emit {W} (e : Event) : Act W unit := fun w => (tt, w, [e]).

Definition resultOf {W A} (r : A * W * list Event) : A := fst (fst r).
Definition worldOf {W A} (r : A * W * list Event) : W := snd (fst r).
Definition traceOf {W A} (r : A * W * list Event) : list Event := snd r.

(** ** The member functions of [ImitatePass] *)

Section ImitatePass.

Context {W : Type}.
Variable sys : System W.
Variable cfg : Settings.

Local Open Scope act_scope.

(** *** Primitive actions *)

(** [exec.executeBlocking(app, args, input, ...)]. *)
Definition executeBlocking (app : string) (args : list string)
           (input : string) : Act W ExecOutcome :=
  fun w =>
    let '(w', r) := sysExec sys w app args input in
    (r, w', [ExecuteBlocking app args input]).

(** [Pass::getRecipientList(file)]. *)
Definition getRecipientList (file : string) : Act W (list string) :=
  fun w => (sysRecipients sys w file, w, [GetRecipientList file]).

(** [ImitatePass::executeWrapper] (both overloads; the five-argument one
    passes [QString()] as input).  The capture flags keep the defaults of
    the declaration and are not recorded. *)
Definition executeWrapper (id : PROCESS) (app : string)
           (args : list string) (input : string) : Act W unit :=
  emit (Execute id (passStore cfg) app args input).

(** *** Version control wrappers *)

Definition GitInit : Act W unit :=
  executeWrapper GIT_INIT (gitExecutable cfg) ["init"; passStore cfg]
                 EmptyString.

Definition GitPull : Act W unit :=
  executeWrapper GIT_PULL (gitExecutable cfg) ["pull"] EmptyString.

Definition GitPull_b : Act W unit :=
  _ <- executeBlocking (gitExecutable cfg) ["pull"] EmptyString ;;
  ret tt.

Definition GitPush : Act W unit :=
  executeWrapper GIT_PUSH (gitExecutable cfg) ["push"] EmptyString.

Definition GitCommit (file msg : string) : Act W unit :=
  executeWrapper GIT_COMMIT (gitExecutable cfg)
                 ["commit"; "-m"; msg; "--"; file] EmptyString.

(** *** Show *)

Definition decryptArgs (file : string) : list string :=
  ["-d"; "--quiet"; "--yes"; "--no-encrypt-to"; "--batch"; "--use-agent";
   file].

Definition Show (file : string) : Act W unit :=
  let file := passStore cfg +++ file +++ ".gpg" in
  executeWrapper PASS_SHOW (gpgExecutable cfg) (decryptArgs file)
                 EmptyString.

Definition Show_b (file : string) : Act W ExecOutcome :=
  let file := passStore cfg +++ file +++ ".gpg" in
  executeBlocking (gpgExecutable cfg) (decryptArgs file) EmptyString.

(** *** Insert *)

(** [for (auto &r : recipients) { args.append("-r"); args.append(r); }] *)
Definition appendRecipients (args recipients : list string)
  : list string :=
  fold_left (fun args r => (args ++ ["-r"]) ++ [r]) recipients args.

Definition msgCannotEdit : string :=
  "Could not read encryption key to use, .gpg-id " +++
  "file missing or invalid.".

Definition Insert (file newValue : string) (overwrite : bool)
  : Act W unit :=
  let file := passStore cfg +++ file +++ ".gpg" in
  recipients <- getRecipientList file ;;
  if Qt.isEmptyList recipients then
    emit (Critical "Can not edit" msgCannotEdit)
  else
    let args := ["--batch"; "-eq"; "--output"; file] in
    let args := appendRecipients args recipients in
    let args := if overwrite then args ++ ["--yes"] else args in
    let args := args ++ ["-"] in
    executeWrapper PASS_INSERT (gpgExecutable cfg) args newValue ;;
    if negb (useWebDav cfg) && useGit cfg then
      (if negb overwrite
       then executeWrapper GIT_ADD (gitExecutable cfg) ["add"; file]
                           EmptyString
       else ret tt) ;;
      let path := sysRelativeFilePath sys (passStore cfg) file in
      let path := Qt.removeGpgSuffix path in
      let msg := (if overwrite then "Edit" else String DQUOTE "Add")
                 +++ " for " +++ path +++ " using QtPass." in
      GitCommit file msg
    else ret tt.

(** *** Remove

    The Qt 5 branch of the version conditional. *)
Definition Remove (file : string) (isDir : bool) : Act W unit :=
  let file := passStore cfg +++ file in
  let file := if negb isDir then file +++ ".gpg" else file in
  if useGit cfg then
    executeWrapper GIT_RM (gitExecutable cfg)
                   ["rm"; (if isDir then "-rf" else "-f"); file]
                   EmptyString ;;
    GitCommit file ("Remove for " +++ file +++ " using QtPass.")
  else if isDir then
    fun w => (tt, sysRemoveRecursively sys w file,
              [DirRemovedRecursively file])
  else
    fun w => (tt, sysRemove sys w file, [FileRemoved file]).

(** *** reencryptPath *)

(** [QDir currentDir;] is default-constructed, so it names the working
    directory and [currentDir.path()] is ["."].  Nothing in
    [reencryptPath] assigns to it afterwards. *)
Definition currentDir_path : string := ".".

Definition listOnlyArgs (fileName : string) : list string :=
  ["-v"; "--no-secmem-warning"; "--no-permission-warning"; "--list-only";
   "--keyid-format=long"; fileName].

Definition couldNotDecrypt : string := "Could not decrypt".

(** How one iteration of the outer [while] ends: by falling through to the
    next entry, or by the [return] of line 309. *)
Inductive LoopExit := NextEntry | Returned.

(** The [if (actualKeys != gpgId) { ... }] block, lines 287-334. *)
Definition reencryptFile (fileName : string) : Act W LoopExit :=
  let local_lastDecrypt := couldNotDecrypt in
  emit (LastDecrypt local_lastDecrypt) ;;
  r <- executeBlocking (gpgExecutable cfg) (decryptArgs fileName)
                       EmptyString ;;
  let local_lastDecrypt := outOr local_lastDecrypt r in
  emit (LastDecrypt local_lastDecrypt) ;;
  if negb (Qt.isEmpty local_lastDecrypt) &&
     negb (String.eqb local_lastDecrypt couldNotDecrypt) then
    let local_lastDecrypt :=
      if negb (String.eqb (Qt.right 1 local_lastDecrypt) nl)
      then local_lastDecrypt +++ nl else local_lastDecrypt in
    emit (LastDecrypt local_lastDecrypt) ;;
    recipients <- getRecipientList fileName ;;
    if Qt.isEmptyList recipients then
      emit (Critical "Can not edit" msgCannotEdit) ;;
      ret Returned
    else
      let args := ["--yes"; "--batch"; "-eq"; "--output"; fileName] in
      let args := appendRecipients args recipients in
      let args := args ++ ["-"] in
      _ <- executeBlocking (gpgExecutable cfg) args local_lastDecrypt ;;
      (if negb (useWebDav cfg) && useGit cfg then
         _ <- executeBlocking (gitExecutable cfg) ["add"; fileName]
                              EmptyString ;;
         let path := sysRelativeFilePath sys (passStore cfg) fileName in
         let path := Qt.removeGpgSuffix path in
         _ <- executeBlocking (gitExecutable cfg)
                ["commit"; fileName; "-m";
                 "Edit for " +++ path +++ " using QtPass."]
                EmptyString ;;
         ret tt
       else ret tt) ;;
      ret NextEntry
  else
    ret NextEntry.

(** One iteration of the outer [while (gpgFiles.hasNext())], lines
    261-334.  [gpgId] is the variable declared before the loop; its new
    value is returned with the exit kind. *)
Definition reencryptEntry (entry : FileInfo) (gpgId : list string)
  : Act W (LoopExit * list string) :=
  let fileName := filePath entry in
  gpgId <- (if negb (String.eqb (path entry) currentDir_path) then
              gpgId <- getRecipientList fileName ;;
              ret (Qt.sort gpgId)
            else ret gpgId) ;;
  r <- executeBlocking (gpgExecutable cfg) (listOnlyArgs fileName)
                       EmptyString ;;
  let keys := outOr EmptyString r in
  let err := errOr EmptyString r in
  let actualKeys := parseActualKeys keys err in
  if negb (Qt.listEq actualKeys gpgId) then
    x <- reencryptFile fileName ;;
    ret (x, gpgId)
  else
    ret (NextEntry, gpgId).

(** The outer loop over the entries the iterator yields. *)
Fixpoint reencryptLoop (gpgFiles : list FileInfo) (gpgId : list string)
  : Act W LoopExit :=
  match gpgFiles with
  | [] => ret NextEntry
  | entry :: rest =>
      r <- reencryptEntry entry gpgId ;;
      match fst r with
      | Returned => ret Returned
      | NextEntry => reencryptLoop rest (snd r)
      end
  end.

Definition reencryptPath (dir : string) : Act W unit :=
  emit (StatusMsg ("Re-encrypting from folder " +++ dir) 3000) ;;
  emit StartReencryptPath ;;
  (if autoPull cfg then
     emit (StatusMsg "Updating password-store" 2000) ;;
     GitPull_b
   else ret tt) ;;
  gpgFiles <- (fun w => (sysGpgFiles sys w dir, w, [])) ;;
  x <- reencryptLoop gpgFiles [] ;;
  match x with
  | Returned => ret tt
  | NextEntry =>
      (if autoPush cfg then
         emit (StatusMsg "Updating password-store" 2000) ;;
         GitPush
       else ret tt) ;;
      emit EndReencryptPath
  end.

(** *** Init *)

(** The [foreach] over [users], lines 187-192. *)
Fixpoint writeUsers (gpgIdFile : string) (users : list UserInfo)
         (secret_selected : bool) : Act W bool :=
  match users with
  | [] => ret secret_selected
  | user :: rest =>
      if enabled user then
        (fun w => (tt, sysWrite sys w gpgIdFile (key_id user +++ nl),
                   [FileWritten gpgIdFile (key_id user +++ nl)])) ;;
        writeUsers gpgIdFile rest (secret_selected || have_secret user)
      else writeUsers gpgIdFile rest secret_selected
  end.

Definition msgNoSecret : string :=
  "None of the selected keys have a secret key available." +++ nl +++
  "You will not be able to decrypt any newly added passwords!".

Definition Init (path : string) (users : list UserInfo) : Act W unit :=
  let gpgIdFile := path +++ ".gpg-id" in
  addFile <- (fun w =>
                (if addGPGId cfg
                 then negb (sysExists sys w gpgIdFile) ||
                      negb (sysIsFile sys w gpgIdFile)
                 else false, w, [])) ;;
  opened <- (fun w =>
               match sysOpenWrite sys w gpgIdFile with
               | Some w' => (true, w', [FileOpenedForWriting gpgIdFile])
               | None => (false, w, [])
               end) ;;
  if negb opened then
    emit (Critical "Cannot update" "Failed to open .gpg-id for writing.")
  else
    secret_selected <- writeUsers gpgIdFile users false ;;
    if negb secret_selected then
      emit (Critical "Check selected users!" msgNoSecret)
    else
      (if negb (useWebDav cfg) && useGit cfg &&
          negb (Qt.isEmpty (gitExecutable cfg)) then
         (if addFile
          then executeWrapper GIT_ADD (gitExecutable cfg)
                              ["add"; gpgIdFile] EmptyString
          else ret tt) ;;
         let path := gpgIdFile in
         let path := Qt.removeGpgSuffix path in
         GitCommit gpgIdFile ("Added " +++ path +++ " using QtPass.")
       else ret tt) ;;
      reencryptPath path.

End ImitatePass.

(** * Specification-side definitions *)

(** The order [QStringList::sort] sorts by. *)
Definition leS (a b : string) : Prop := String.leb a b = true.

(** What one inspection line contributes: its piece number 4 (counting from
    0) among the pieces between single spaces, when that piece exists and
    is 16 characters long. *)
Definition keyOfLine (line : string) : list string :=
  match nth_error (Qt.split SPACE line) 4 with
  | Some field => if String.length field =? 16 then [field] else []
  | None => []
  end.


(** The specification's wording for the same rule speaks of
    whitespace-separated fields.  [wsFields] follows those words: a field
    is a maximal run of characters that are not whitespace. *)
Definition isWhitespace (c : ascii) : bool :=
  let n := nat_of_ascii c in (n =? 32) || ((9 <=? n) && (n <=? 13)).

Fixpoint wsPieces (s : string) : list string :=
  match s with
  | EmptyString => [EmptyString]
  | String c s' =>
      if isWhitespace c then EmptyString :: wsPieces s'
      else match wsPieces s' with
           | [] => [String c EmptyString]
           | piece :: pieces => String c piece :: pieces
           end
  end.

Definition wsFields (s : string) : list string :=
  filter (fun f => negb (Qt.isEmpty f)) (wsPieces s).

(** The rule as the specification words it, for one line. *)
Definition keyOfLine_ws (line : string) : list string :=
  match nth_error (wsFields line) 4 with
  | Some field => if String.length field =? 16 then [field] else []
  | None => []
  end.

(** ** Classifying events *)

Definition isAsync (e : Event) : bool :=
  match e with Execute _ _ _ _ _ => true | _ => false end.

Definition notAsync (e : Event) : bool := negb (isAsync e).

Definition isBlocking (e : Event) : bool :=
  match e with ExecuteBlocking _ _ _ => true | _ => false end.

(** An external process is started by both kinds of execution. *)
Definition spawnsProcess (e : Event) : bool := isAsync e || isBlocking e.

Definition argsOf (e : Event) : list string :=
  match e with
  | Execute _ _ _ args _ => args
  | ExecuteBlocking _ args _ => args
  | _ => []
  end.

Definition firstArgIs (a : string) (e : Event) : bool :=
  spawnsProcess e &&
  match argsOf e with
  | x :: _ => String.eqb x a
  | [] => false
  end.

Definition isDecrypt (e : Event) : bool := firstArgIs "-d" e.
Definition isCommit (e : Event) : bool := firstArgIs "commit" e.
(** The two encryption command lines: [--batch -eq ...] of [Insert] and
    [--yes --batch -eq ...] of the walk. *)
Definition isEncrypt (e : Event) : bool :=
  spawnsProcess e &&
  match argsOf e with
  | a :: b :: rest =>
      (String.eqb a "--batch" && String.eqb b "-eq") ||
      (String.eqb a "--yes" && String.eqb b "--batch" &&
       match rest with
       | c :: _ => String.eqb c "-eq"
       | [] => false
       end)
  | _ => false
  end.
Definition isResolve (e : Event) : bool :=
  match e with GetRecipientList _ => true | _ => false end.

(** The commits the walk makes for the file [fileName]: its commit command
    line is [commit <file> -m <message>]. *)
Definition commitsFor (fileName : string) (t : list Event) : list Event :=
  filter (fun e => isCommit e &&
                   String.eqb (nth 1 (argsOf e) EmptyString) fileName) t.

(** The message carried by a commit command, in either argument shape. *)
Definition commitMessage (e : Event) : option string :=
  match argsOf e with
  | [c; m; msg; _; _] =>
      if String.eqb c "commit" && String.eqb m "-m" then Some msg else None
  | [c; _; m; msg] =>
      if String.eqb c "commit" && String.eqb m "-m" then Some msg else None
  | _ => None
  end.

(** ** Names for the steps of the walk *)

Section WalkVocabulary.

Context {W : Type}.
Variable sys : System W.
Variable cfg : Settings.

(** The inspection run on [fileName] from world [w]. *)
Definition inspect (fileName : string) (w : W) : W * ExecOutcome :=
  sysExec sys w (gpgExecutable cfg) (listOnlyArgs fileName) EmptyString.

(** The sorted actual recipients the walk computes for [fileName]. *)
Definition actualKeysOf (fileName : string) (w : W) : list string :=
  let r := snd (inspect fileName w) in
  parseActualKeys (outOr EmptyString r) (errOr EmptyString r).

(** The sorted declared set the walk holds when it compares [entry]:
    freshly resolved unless the entry's directory is the literal path of
    [currentDir], in which case the value carried over is kept. *)
Definition declaredInEffect (entry : FileInfo) (gpgId : list string)
           (w : W) : list string :=
  if String.eqb (path entry) currentDir_path then gpgId
  else Qt.sort (sysRecipients sys w (filePath entry)).

Definition loadEvents (entry : FileInfo) : list Event :=
  if String.eqb (path entry) currentDir_path then []
  else [GetRecipientList (filePath entry)].

Definition inspectEvent (fileName : string) : Event :=
  ExecuteBlocking (gpgExecutable cfg) (listOnlyArgs fileName) EmptyString.

Definition decryptEvent (fileName : string) : Event :=
  ExecuteBlocking (gpgExecutable cfg) (decryptArgs fileName) EmptyString.

(** The decryption run on [fileName] from world [w]. *)
Definition decrypt (fileName : string) (w : W) : W * ExecOutcome :=
  sysExec sys w (gpgExecutable cfg) (decryptArgs fileName) EmptyString.

(** The value of [local_lastDecrypt] after the decryption. *)
Definition decryptedText (fileName : string) (w : W) : string :=
  outOr couldNotDecrypt (snd (decrypt fileName w)).

(** Empty, or equal to the placeholder. *)
Definition decryptFailed (text : string) : bool :=
  Qt.isEmpty text || String.eqb text couldNotDecrypt.

(** The plaintext with a line terminator ensured at its end. *)
Definition terminated (text : string) : string :=
  if String.eqb (Qt.right 1 text) nl then text else text +++ nl.

(** The encryption command line of the walk. *)
Definition encryptArgs (fileName : string) (recipients : list string)
  : list string :=
  ["--yes"; "--batch"; "-eq"; "--output"; fileName] ++
  flat_map (fun r => ["-r"; r]) recipients ++ ["-"].

Definition encryptEvent (fileName : string) (recipients : list string)
           (plain : string) : Event :=
  ExecuteBlocking (gpgExecutable cfg) (encryptArgs fileName recipients)
                  plain.

(** The store-relative path with the ciphertext suffix stripped. *)
Definition entryName (fileName : string) : string :=
  Qt.removeGpgSuffix (sysRelativeFilePath sys (passStore cfg) fileName).

Definition stageEvent (fileName : string) : Event :=
  ExecuteBlocking (gitExecutable cfg) ["add"; fileName] EmptyString.

Definition editCommitEvent (fileName : string) : Event :=
  ExecuteBlocking (gitExecutable cfg)
    ["commit"; fileName; "-m";
     "Edit for " +++ entryName fileName +++ " using QtPass."]
    EmptyString.

(** Version control is active. *)
Definition vcsActive : bool := useGit cfg.

(** Version control is active and WebDAV does not supersede it. *)
Definition vcsCommits : bool := negb (useWebDav cfg) && useGit cfg.

(** The walk over a prefix of the entries: the declared set held, the
    world and the events after the last of them, or [None] when one of
    them made [reencryptPath] return. *)
Fixpoint walkPrefix (pre : list FileInfo) (gpgId : list string) (w : W)
  : option (list string * W * list Event) :=
  match pre with
  | [] => Some (gpgId, w, [])
  | entry :: rest =>
      let '(r, w1, t1) := reencryptEntry sys cfg entry gpgId w in
      match fst r with
      | Returned => None
      | NextEntry =>
          match walkPrefix rest (snd r) w1 with
          | Some (g2, w2, t2) => Some (g2, w2, t1 ++ t2)
          | None => None
          end
      end
  end.

(** The part of [reencryptPath] before the loop. *)
Definition prologue (dir : string) : Act W unit :=
  (emit (StatusMsg ("Re-encrypting from folder " +++ dir) 3000) ;;
   emit StartReencryptPath ;;
   if autoPull cfg then
     emit (StatusMsg "Updating password-store" 2000) ;;
     GitPull_b sys cfg
   else ret tt)%act.

(** The part of [reencryptPath] after a loop that ran to its end. *)
Definition epilogueEvents : list Event :=
  if autoPush cfg then
    [StatusMsg "Updating password-store" 2000;
     Execute GIT_PUSH (passStore cfg) (gitExecutable cfg) ["push"]
             EmptyString;
     EndReencryptPath]
  else [EndReencryptPath].

End WalkVocabulary.

(** ** A small concrete world

    An in-memory store with a toy encryption tool, used to run the
    operations on concrete inputs. *)

Module Toy.

(** A ciphertext file: who can read it, what it holds, and whether the
    operator owns a matching secret key. *)
Record Blob := mkBlob {
  encryptedFor : list string;
  plaintext : string;
  decryptable : bool
}.

Record World := mkWorld {
  blobs : list (string * Blob);       (* ciphertext files, in walk order *)
  texts : list (string * string);     (* plain files, e.g. .gpg-id *)
  unwritable : list string            (* paths that cannot be opened *)
}.

Fixpoint lookup {A} (k : string) (l : list (string * A)) : option A :=
  match l with
  | [] => None
  | (k', v) :: l' => if String.eqb k k' then Some v else lookup k l'
  end.

Fixpoint update {A} (k : string) (v : A) (l : list (string * A))
  : list (string * A) :=
  match l with
  | [] => [(k, v)]
  | (k', v') :: l' =>
      if String.eqb k k' then (k, v) :: l' else (k', v') :: update k v l'
  end.

Fixpoint join (sep : string) (l : list string) : string :=
  match l with
  | [] => EmptyString
  | [x] => x
  | x :: l' => x +++ sep +++ join sep l'
  end.

(** The directory part of a path: what precedes the last slash. *)
Definition dirName (p : string) : string :=
  match removelast (Qt.split (ascii_of_nat 47) p) with
  | [] => "."
  | pieces =>
      match join "/" pieces with
      | EmptyString => "/"
      | d => d
      end
  end.

(** The identifiers listed in the declaration of directory [dir]. *)
Definition declarationIn (w : World) (dir : string)
  : option (list string) :=
  match lookup (dir +++ "/.gpg-id") (texts w) with
  | Some content =>
      Some (filter (fun l => negb (Qt.isEmpty l)) (Qt.split LF content))
  | None => None
  end.

(** Nearest enclosing declaration, searching upwards from [dir]. *)
Fixpoint resolveFrom (fuel : nat) (w : World) (dir : string)
  : list string :=
  match declarationIn w dir with
  | Some ids => ids
  | None =>
      match fuel with
      | 0 => []
      | S fuel' =>
          if String.eqb (dirName dir) dir then []
          else resolveFrom fuel' w (dirName dir)
      end
  end.

Definition recipients (w : World) (file : string) : list string :=
  resolveFrom (String.length file) w (dirName file).

Definition gpgFiles (w : World) (dir : string) : list FileInfo :=
  map (fun kv => mkFileInfo (fst kv) (dirName (fst kv)))
      (filter (fun kv => String.prefix dir (fst kv)) (blobs w)).

Definition relativeFilePath (dir file : string) : string :=
  if String.prefix dir file
  then substring (String.length dir)
                 (String.length file - String.length dir) file
  else file.

(** The [-r] operands of an encryption command line. *)
Fixpoint recipientArgs (args : list string) : list string :=
  match args with
  | [] => []
  | a :: rest =>
      if String.eqb a "-r" then
        match rest with
        | r :: rest' => r :: recipientArgs rest'
        | [] => []
        end
      else if String.eqb a "--output" then
        match rest with
        | _ :: rest' => recipientArgs rest'
        | [] => []
        end
      else recipientArgs rest
  end.

(** The operand of [--output], if any. *)
Fixpoint outputTarget (args : list string) : option string :=
  match args with
  | [] => None
  | a :: rest =>
      if String.eqb a "--output" then
        match rest with
        | f :: _ => Some f
        | [] => None
        end
      else outputTarget rest
  end.

Definition publicKeyLines (ids : list string) : string :=
  fold_right (fun k acc => "gpg: public key is " +++ k +++ nl +++ acc)
             EmptyString ids.

(** The toy encryption tool.  [-v ...] lists the recipients on standard
    error, [-d ...] prints the plaintext when a secret key is at hand, a
    command with [--output f] encrypts its input to [f]. *)
Definition gpg (w : World) (args : list string) (input : string)
  : World * ExecOutcome :=
  match args with
  | [] => (w, NormalExit 0 EmptyString EmptyString)
  | a :: _ =>
      if String.eqb a "-v" then
        match lookup (last args EmptyString) (blobs w) with
        | Some b =>
            (w, NormalExit 0 EmptyString (publicKeyLines (encryptedFor b)))
        | None => (w, NormalExit 2 EmptyString "gpg: can't open file")
        end
      else if String.eqb a "-d" then
        match lookup (last args EmptyString) (blobs w) with
        | Some b =>
            if decryptable b
            then (w, NormalExit 0 (plaintext b) EmptyString)
            else (w, NormalExit 2 EmptyString
                                "gpg: decryption failed: No secret key")
        | None => (w, NormalExit 2 EmptyString "gpg: can't open file")
        end
      else
        match outputTarget args with
        | Some f =>
            (mkWorld (update f (mkBlob (recipientArgs args) input true)
                             (blobs w))
                     (texts w) (unwritable w),
             NormalExit 0 EmptyString EmptyString)
        | None => (w, NormalExit 0 EmptyString EmptyString)
        end
  end.

(** The executor: the encryption tool is [gpg]; any other program (the
    version-control tool) succeeds silently and leaves the files as they
    are. *)
Definition exec (w : World) (app : string) (args : list string)
           (input : string) : World * ExecOutcome :=
  if String.eqb app "gpg" then gpg w args input
  else (w, NormalExit 0 EmptyString EmptyString).

Definition exists_ (w : World) (p : string) : bool :=
  match lookup p (texts w), lookup p (blobs w) with
  | None, None => false
  | _, _ => true
  end.

Definition openWrite (w : World) (p : string) : option World :=
  if existsb (String.eqb p) (unwritable w) then None
  else Some (mkWorld (blobs w) (update p EmptyString (texts w))
                     (unwritable w)).

Definition write (w : World) (p data : string) : World :=
  match lookup p (texts w) with
  | Some old =>
      mkWorld (blobs w) (update p (old +++ data) (texts w)) (unwritable w)
  | None => w
  end.

Definition remove (w : World) (p : string) : World :=
  mkWorld (filter (fun kv => negb (String.eqb p (fst kv))) (blobs w))
          (filter (fun kv => negb (String.eqb p (fst kv))) (texts w))
          (unwritable w).

Definition removeRecursively (w : World) (p : string) : World :=
  mkWorld (filter (fun kv => negb (String.prefix p (fst kv))) (blobs w))
          (filter (fun kv => negb (String.prefix p (fst kv))) (texts w))
          (unwritable w).

Definition system : System World :=
  mkSystem World exec recipients gpgFiles relativeFilePath
           exists_ exists_ openWrite write remove removeRecursively.

(** The recipients a ciphertext file is encrypted for. *)
Definition recipientsOfBlob (w : World) (file : string) : list string :=
  match lookup file (blobs w) with
  | Some b => encryptedFor b
  | None => []
  end.

(** The content of a plain file. *)
Definition content (w : World) (file : string) : option string :=
  lookup file (texts w).

(** *** Fixtures *)

Definition KEYA : string := "AAAAAAAAAAAAAAAA".
Definition KEYB : string := "BBBBBBBBBBBBBBBB".

Definition settings (git webdav pull push : bool) : Settings :=
  mkSettings "/store/" "git" "gpg" git webdav pull push true.

(** The scenario of the specification: the root declares [KEYB], the
    entry [secrets/db] is encrypted for [KEYA]. *)
Definition drifted : World :=
  mkWorld [("/store/secrets/db.gpg", mkBlob [KEYA] "hunter2" true)]
          [("/store/.gpg-id", KEYB +++ nl)]
          [].

(** A converged store with two entries in one directory. *)
Definition converged : World :=
  mkWorld [("/store/a/x.gpg", mkBlob [KEYA] "one" true);
           ("/store/a/y.gpg", mkBlob [KEYA] "two" true)]
          [("/store/.gpg-id", KEYA +++ nl)]
          [].

(** Three drifted entries; the operator lacks the key for the first. *)
Definition partlySealed : World :=
  mkWorld [("/store/a.gpg", mkBlob [KEYA] "alpha" false);
           ("/store/b.gpg", mkBlob [KEYA] "beta" true);
           ("/store/c.gpg", mkBlob [KEYA] "gamma" true)]
          [("/store/.gpg-id", KEYB +++ nl)]
          [].

(** A drifted entry under a directory without any declaration. *)
Definition undeclared : World :=
  mkWorld [("/store/a.gpg", mkBlob [KEYA] "alpha" true);
           ("/store/b.gpg", mkBlob [KEYA] "beta" true)]
          []
          [].

(** A store whose root declaration cannot be opened for writing. *)
Definition readOnly : World :=
  mkWorld [] [] ["/store/.gpg-id"].

Definition empty : World := mkWorld [] [] [].

(** A converged store reached through a relative path: the walk is started
    on ["."], the working directory. *)
Definition relative : World :=
  mkWorld [("./a.gpg", mkBlob [KEYA] "alpha" true)]
          [("./.gpg-id", KEYA +++ nl)]
          [].

Definition relativeSettings : Settings :=
  mkSettings "./" "git" "gpg" true false false false true.

End Toy.

(** ** Positions in a walk *)

Section WalkPositions.

Context {W : Type}.
Variable sys : System W.
Variable cfg : Settings.

(** The events after the loop, by the way the loop ended. *)
Definition epilogue (x : LoopExit) : list Event :=
  match x with
  | Returned => []
  | NextEntry => epilogueEvents cfg
  end.

(** The situation when the walk started by [reencryptPath dir] in world
    [w] arrives at its entry number [i] (from 0): that entry, the entries
    still to come, the declared set carried over, the world, and the
    events emitted so far.  [None] when the walk has fewer entries or
    returned before. *)
Definition walkAt (dir : string) (w : W) (i : nat)
  : option (FileInfo * list FileInfo * list string * W * list Event) :=
  let '(_, w0, t0) := prologue sys cfg dir w in
  let gpgFiles := sysGpgFiles sys w0 dir in
  match skipn i gpgFiles with
  | [] => None
  | entry :: post =>
      match walkPrefix sys cfg (firstn i gpgFiles) [] w0 with
      | Some (g1, w1, t1) => Some (entry, post, g1, w1, t0 ++ t1)
      | None => None
      end
  end.

(** Every entry of the list is found converged when the walk compares
    it. *)
Fixpoint allConverged (gpgFiles : list FileInfo) (gpgId : list string)
         (w : W) : bool :=
  match gpgFiles with
  | [] => true
  | entry :: rest =>
      let g := declaredInEffect sys entry gpgId w in
      Qt.listEq (actualKeysOf sys cfg (filePath entry) w) g &&
      allConverged rest g (fst (inspect sys cfg (filePath entry) w))
  end.

(** The world after the worlds-changing steps of a successful
    re-encryption of [fileName], started in [w] (the world in which the
    mismatch was found). *)
Definition worldAfterEncrypt (fileName : string) (w : W) : W :=
  let w2 := fst (decrypt sys cfg fileName w) in
  fst (sysExec sys w2 (gpgExecutable cfg)
         (encryptArgs fileName (sysRecipients sys w2 fileName))
         (terminated (decryptedText sys cfg fileName w))).

Definition worldAfterCommit (fileName : string) (w : W) : W :=
  let w3 := worldAfterEncrypt fileName w in
  let w4 := fst (sysExec sys w3 (gitExecutable cfg) ["add"; fileName]
                   EmptyString) in
  fst (sysExec sys w4 (gitExecutable cfg)
         ["commit"; fileName; "-m";
          "Edit for " +++ entryName sys cfg fileName +++ " using QtPass."]
         EmptyString).

(** No decryption, encryption or commit. *)
Definition leavesEntriesAlone (e : Event) : bool :=
  negb (isDecrypt e) && negb (isEncrypt e) && negb (isCommit e).

End WalkPositions.

(** ** The claims in the specification's own words

    Each of these states a sentence of the specification literally; the
    properties section shows where the code departs from it. *)

Section AsWorded.

Context {W : Type}.
Variable sys : System W.
Variable cfg : Settings.

(** "when version control is active, [the walk] produces exactly one
    commit for that entry": for every mismatched entry whose decryption
    succeeds and whose recipients are declared. *)
Definition driftCommitsWhenVcsActive : Prop :=
  forall dir w i entry post g1 w1 t,
    walkAt sys cfg dir w i = Some (entry, post, g1, w1, t) ->
    let fileName := filePath entry in
    let w2 := fst (inspect sys cfg fileName w1) in
    actualKeysOf sys cfg fileName w1 <>
    Qt.sort (sysRecipients sys w1 fileName) ->
    decryptFailed (decryptedText sys cfg fileName w2) = false ->
    sysRecipients sys (fst (decrypt sys cfg fileName w2)) fileName <> [] ->
    vcsActive cfg = true ->
    filter isCommit (traceOf (reencryptEntry sys cfg entry g1 w1)) =
    [editCommitEvent sys cfg fileName].

(** "the engine never dispatches an asynchronous, job-id-correlated
    command during the walk". *)
Definition walkNeverAsync : Prop :=
  forall dir w,
    forallb (fun e => negb (isAsync e))
            (traceOf (reencryptPath sys cfg dir w)) = true.

(** "InitializeStore first writes the declaration file ...; when no
    enabled recipient has an available secret key, it then aborts with a
    NoSecretKeyAvailable error". *)
Definition initWritesThenReportsNoSecret : Prop :=
  forall path users w,
    existsb (fun u => enabled u && have_secret u) users = false ->
    let gpgIdFile := path +++ ".gpg-id" in
    traceOf (Init sys cfg path users w) =
    FileOpenedForWriting gpgIdFile ::
    map (fun u => FileWritten gpgIdFile (key_id u +++ nl))
        (filter enabled users) ++
    [Critical "Check selected users!" msgNoSecret].

End AsWorded.

(** "a line qualifies ... only if it has more than four
    whitespace-separated fields and the fifth field is exactly 16
    characters long": what the scan would add to its accumulator. *)
Definition scanFollowsWhitespaceFields : Prop :=
  forall acc line, scanLine acc line = acc ++ keyOfLine_ws line.

(** "when the current entry's directory differs from [the directory of the
    previously-visited entry], re-resolve": which entries of a walk get a
    resolution, first entry included since nothing was visited before. *)
Fixpoint reloadsAsSpecified (previous : option string)
         (entries : list FileInfo) : list bool :=
  match entries with
  | [] => []
  | entry :: rest =>
      match previous with
      | None => true
      | Some dir => negb (String.eqb (path entry) dir)
      end :: reloadsAsSpecified (Some (path entry)) rest
  end.

(** The resolutions a trace records ahead of each inspection: for every
    inspection event, whether a resolution immediately precedes it. *)
Fixpoint reloadsInTrace (t : list Event) : list bool :=
  match t with
  | [] => []
  | GetRecipientList _ :: ExecuteBlocking _ (a :: _) _ :: t' =>
      if String.eqb a "-v" then true :: reloadsInTrace t'
      else reloadsInTrace t'
  | ExecuteBlocking _ (a :: _) _ :: t' =>
      if String.eqb a "-v" then false :: reloadsInTrace t'
      else reloadsInTrace t'
  | _ :: t' => reloadsInTrace t'
  end.

(** ** Names for the steps of [Init] *)

(** The lines [Init] writes: one per enabled user. *)
Definition declarationLines (users : list UserInfo) : list string :=
  map (fun u => key_id u +++ nl) (filter enabled users).

(** Some enabled user has a secret key. *)
Definition secretSelected (users : list UserInfo) : bool :=
  existsb (fun u => enabled u && have_secret u) users.

(** The world after the lines were written to the open file. *)
Definition writeLines {W} (sys : System W) (file : string)
           (lines : list string) (w : W) : W :=
  fold_left (fun v line => sysWrite sys v file line) lines w.

(** The text of a file that was opened empty and received the lines. *)
Definition concatLines (lines : list string) : string :=
  fold_left String.append lines EmptyString.

(** * Further definitions *)

(** An inspection command. *)
Definition isInspect (e : Event) : bool := firstArgIs "-v" e.

(** A staging command. *)
Definition isStage (e : Event) : bool := firstArgIs "add" e.

(** The program a command event runs. *)
Definition appOf (e : Event) : option string :=
  match e with
  | Execute _ _ app _ _ => Some app
  | ExecuteBlocking app _ _ => Some app
  | _ => None
  end.

(** The working directory an asynchronous command is queued with. *)
Definition workDirOf (e : Event) : option string :=
  match e with
  | Execute _ workDir _ _ _ => Some workDir
  | _ => None
  end.

(** A command event runs one of the two configured tools, and when it is
    queued asynchronously it is queued for the store directory. *)
Definition commandOfStore (cfg : Settings) (e : Event) : Prop :=
  match e with
  | Execute _ workDir app _ _ =>
      workDir = passStore cfg /\
      (app = gitExecutable cfg \/ app = gpgExecutable cfg)
  | ExecuteBlocking app _ _ =>
      app = gitExecutable cfg \/ app = gpgExecutable cfg
  | _ => True
  end.

(** A string holds the character [c]. *)
Fixpoint contains (c : ascii) (s : string) : bool :=
  match s with
  | EmptyString => false
  | String x s' => Ascii.eqb x c || contains c s'
  end.

(** ** removeDir

    Lines 219-239.  The calls into Qt are the fields of a [FileSystem], so
    nothing is assumed about how Qt resolves a name.  [removeDir]
    constructs [QDir dir(dirName)] and then asks for [dir.exists(dirName)]
    and [dir.rmdir(dirName)]: the directory and the name looked up in it
    are both [dirName]. *)

(** What [removeDir] reads of a [QFileInfo] of the listing. *)
Record EntryInfo := mkEntryInfo {
  infoIsDir : bool;                (* info.isDir()            *)
  infoAbsoluteFilePath : string    (* info.absoluteFilePath() *)
}.

Record FileSystem (W : Type) := mkFileSystem {
  (* QDir(dir).exists(name) *)
  fsExists : W -> string -> string -> bool;
  (* QDir(dir).entryInfoList(NoDotAndDotDot | System | Hidden | AllDirs |
     Files, DirsFirst), in order *)
  fsEntryInfoList : W -> string -> list EntryInfo;
  (* QFile::remove(fileName): the value returned and the world left *)
  fsRemove : W -> string -> bool * W;
  (* QDir(dir).rmdir(name): the value returned and the world left *)
  fsRmdir : W -> string -> string -> bool * W
}.

Arguments fsExists {W} _ _ _ _.
Arguments fsEntryInfoList {W} _ _ _.
Arguments fsRemove {W} _ _ _.
Arguments fsRmdir {W} _ _ _ _.

(** The removals [removeDir] attempts, with what the call returned. *)
Inductive Attempt :=
| FileRemoval (fileName : string) (ok : bool)
| DirRemoval (dir name : string) (ok : bool).

Definition attemptOk (a : Attempt) : bool :=
  match a with
  | FileRemoval _ ok => ok
  | DirRemoval _ _ ok => ok
  end.

(** The value returned, the world left and the removals attempted; [None]
    when the recursion is cut off. *)
Definition Removal (W : Type) : Type := option (bool * W * list Attempt).

Section RemoveDir.

Context {W : Type}.
Variable fs : FileSystem W.

(** The [Q_FOREACH] loop of lines 224-235 over the listing taken before
    the loop, [rec] being [removeDir] itself.  [false] is the
    [return result] of line 234, [true] the end of the loop. *)
Fixpoint removeEntries (rec : string -> W -> Removal W)
         (infos : list EntryInfo) (w : W) : Removal W :=
  match infos with
  | [] => Some (true, w, [])
  | info :: rest =>
      let result :=
        if infoIsDir info then rec (infoAbsoluteFilePath info) w
        else
          let '(ok, w') := fsRemove fs w (infoAbsoluteFilePath info) in
          Some (ok, w', [FileRemoval (infoAbsoluteFilePath info) ok]) in
      match result with
      | None => None
      | Some (false, w', t) => Some (false, w', t)
      | Some (true, w', t) =>
          match removeEntries rec rest w' with
          | None => None
          | Some (r, w'', t') => Some (r, w'', t ++ t')
          end
      end
  end.

(** [ImitatePass::removeDir(dirName)], with the depth of the recursion
    bounded by [fuel]. *)
Fixpoint removeDir (fuel : nat) (dirName : string) (w : W) : Removal W :=
  match fuel with
  | 0 => None
  | S fuel' =>
      if fsExists fs w dirName dirName then
        match removeEntries (removeDir fuel')
                            (fsEntryInfoList fs w dirName) w with
        | None => None
        | Some (false, w', t) => Some (false, w', t)
        | Some (true, w', t) =>
            let '(ok, w'') := fsRmdir fs w' dirName dirName in
            Some (ok, w'', t ++ [DirRemoval dirName dirName ok])
        end
      else Some (true, w, [])
  end.

End RemoveDir.

(** Every attempt but the last succeeded, and the last one failed exactly
    when the value returned is [false]. *)
Definition stoppedAtFailure (r : bool) (t : list Attempt) : Prop :=
  if r then forallb attemptOk t = true
  else exists done failed,
      t = done ++ [failed] /\
      forallb attemptOk done = true /\ attemptOk failed = false.

(** *** A small file system

    Files and directories by absolute path, each with the directory it is
    in and whether the file system lets it go.  A relative name is
    resolved as [QDir] does: a directory against the working directory, a
    name looked up in a directory against that directory. *)

Module ToyFs.

Record Entry := mkEntry {
  entryPath : string;
  entryParent : string;
  entryIsDir : bool;
  entryRemovable : bool
}.

Definition World : Type := list Entry.

Definition cwd : string := "/home".

Definition isAbsolute (p : string) : bool :=
  match p with
  | String c _ => Ascii.eqb c "/"%char
  | EmptyString => false
  end.

Definition absolutePath (p : string) : string :=
  if isAbsolute p then p else cwd +++ "/" +++ p.

(** [QDir(dir).filePath(name)], made absolute. *)
Definition resolve (dir name : string) : string :=
  if isAbsolute name then name else absolutePath dir +++ "/" +++ name.

Definition lookup (w : World) (p : string) : option Entry :=
  find (fun e => String.eqb (entryPath e) p) w.

Definition delete (p : string) (w : World) : World :=
  filter (fun e => negb (String.eqb (entryPath e) p)) w.

Definition children (w : World) (d : string) : list Entry :=
  filter (fun e => String.eqb (entryParent e) d) w.

(** [QDir::DirsFirst]: directories before files, each by name. *)
Definition before (a b : Entry) : bool :=
  if Bool.eqb (entryIsDir a) (entryIsDir b)
  then String.leb (entryPath a) (entryPath b)
  else entryIsDir a.

Fixpoint insertEntry (x : Entry) (l : list Entry) : list Entry :=
  match l with
  | [] => [x]
  | y :: l' => if before x y then x :: l else y :: insertEntry x l'
  end.

Fixpoint listing (l : list Entry) : list Entry :=
  match l with
  | [] => []
  | x :: l' => insertEntry x (listing l')
  end.

Definition exists_ (w : World) (dir name : string) : bool :=
  match lookup w (resolve dir name) with
  | Some _ => true
  | None => false
  end.

Definition entryInfoList (w : World) (dir : string) : list EntryInfo :=
  map (fun e => mkEntryInfo (entryIsDir e) (entryPath e))
      (listing (children w (absolutePath dir))).

Definition remove (w : World) (fileName : string) : bool * World :=
  match lookup w (absolutePath fileName) with
  | Some e =>
      if negb (entryIsDir e) && entryRemovable e
      then (true, delete (absolutePath fileName) w)
      else (false, w)
  | None => (false, w)
  end.

(** A directory is removed only when it is empty. *)
Definition rmdir (w : World) (dir name : string) : bool * World :=
  let target := resolve dir name in
  match lookup w target with
  | Some e =>
      if entryIsDir e && entryRemovable e &&
         Qt.isEmptyList (children w target)
      then (true, delete target w)
      else (false, w)
  | None => (false, w)
  end.

Definition fileSystem : FileSystem World :=
  mkFileSystem World exists_ entryInfoList remove rmdir.

(** Every entry lies below its directory, and no path is longer than
    [bound]: directories nest finitely. *)
Definition nested (bound : nat) (w : World) : bool :=
  forallb (fun e =>
             (String.length (entryParent e) <? String.length (entryPath e))
             && (String.length (entryPath e) <=? bound)) w.

(** How deep the directories below [p] can still nest. *)
Definition rank (bound : nat) (p : string) : nat :=
  bound - String.length p.


(** The same directory with every entry removable. *)
Definition removable : World :=
  [mkEntry "/home/notes" "/home" true true;
   mkEntry "/home/notes/c.gpg" "/home/notes" false true;
   mkEntry "/home/notes/a" "/home/notes" true true;
   mkEntry "/home/notes/a/x.gpg" "/home/notes/a" false true].

End ToyFs.

(** The two signals that bracket a walk. *)
Definition isWalkSignal (e : Event) : bool :=
  match e with
  | StartReencryptPath | EndReencryptPath => true
  | _ => false
  end.

(** The error signal. *)
Definition isCritical (e : Event) : bool :=
  match e with Critical _ _ => true | _ => false end.

(** The ways an iteration of the walk can continue after the inspection:
    the events that follow it, and how the iteration ends. *)
Inductive IterationTail {W : Type} (sys : System W) (cfg : Settings)
          (fileName : string) : LoopExit -> list Event -> Prop :=
| tailConverged :
    IterationTail sys cfg fileName NextEntry []
| tailFailed (text : string) :
    IterationTail sys cfg fileName NextEntry
      [LastDecrypt couldNotDecrypt; decryptEvent cfg fileName;
       LastDecrypt text]
| tailUndeclared (text : string) :
    IterationTail sys cfg fileName Returned
      [LastDecrypt couldNotDecrypt; decryptEvent cfg fileName;
       LastDecrypt text; LastDecrypt (terminated text);
       GetRecipientList fileName; Critical "Can not edit" msgCannotEdit]
| tailEncrypted (text : string) (recipients : list string) :
    IterationTail sys cfg fileName NextEntry
      ([LastDecrypt couldNotDecrypt; decryptEvent cfg fileName;
        LastDecrypt text; LastDecrypt (terminated text);
        GetRecipientList fileName;
        encryptEvent cfg fileName recipients (terminated text)] ++
       (if vcsCommits cfg
        then [stageEvent cfg fileName; editCommitEvent sys cfg fileName]
        else [])).

(** ** More concrete stores *)

Module Fixtures.

(** The declaration lists two recipients in the order opposite to the one
    the inspection reports. *)
Definition shuffled : Toy.World :=
  Toy.mkWorld
    [("/store/a.gpg", Toy.mkBlob [Toy.KEYA; Toy.KEYB] "alpha" true)]
    [("/store/.gpg-id", Toy.KEYB +++ nl +++ Toy.KEYA +++ nl)]
    [].

(** A secret that already ends in a line terminator. *)
Definition terminatedSecret : Toy.World :=
  Toy.mkWorld
    [("/store/a.gpg", Toy.mkBlob [Toy.KEYA] ("alpha" +++ nl) true)]
    [("/store/.gpg-id", Toy.KEYB +++ nl)]
    [].

(** An executor whose encryption runs never exit normally and write
    nothing; everything else is the toy executor. *)
Definition brokenExec (w : Toy.World) (app : string) (args : list string)
           (input : string) : Toy.World * ExecOutcome :=
  match Toy.outputTarget args with
  | Some _ => (w, NoNormalExit)
  | None => Toy.exec w app args input
  end.

Definition brokenSystem : System Toy.World :=
  mkSystem Toy.World brokenExec Toy.recipients Toy.gpgFiles
           Toy.relativeFilePath Toy.exists_ Toy.exists_ Toy.openWrite
           Toy.write Toy.remove Toy.removeRecursively.

(** Two users, the second with a secret key. *)
Definition users : list UserInfo :=
  [mkUserInfo Toy.KEYA true false; mkUserInfo Toy.KEYB true true;
   mkUserInfo "CCCCCCCCCCCCCCCC" false true].

End Fixtures.
(** * Properties *)

(** ** Sorting *)

Lemma insertSorted_perm (x : string) (l : list string) :
  Permutation (x :: l) (Qt.insertSorted x l).
Proof.
  induction l as [|y l IH]; simpl.
  - apply Permutation_refl.
  - destruct (String.leb x y).
    + apply Permutation_refl.
    + eapply perm_trans; [apply perm_swap|].
      now apply perm_skip.
Qed.

Lemma sort_perm (l : list string) : Permutation l (Qt.sort l).
Proof.
  induction l as [|x l IH]; simpl.
  - constructor.
  - eapply perm_trans; [|apply insertSorted_perm].
    now apply perm_skip.
Qed.

Lemma insertSorted_hd (x a : string) (l : list string) :
  leS a x -> HdRel leS a l -> HdRel leS a (Qt.insertSorted x l).
Proof.
  intros Hax Hl. destruct l as [|y l]; simpl.
  - now constructor.
  - destruct (String.leb x y); constructor; trivial.
    now inversion Hl.
Qed.

Lemma insertSorted_sorted (x : string) (l : list string) :
  Sorted leS l -> Sorted leS (Qt.insertSorted x l).
Proof.
  induction 1 as [|y l Hs IH Hhd]; simpl.
  - repeat constructor.
  - destruct (String.leb x y) eqn:E.
    + constructor; [now constructor | now constructor].
    + constructor; [exact IH|].
      apply insertSorted_hd; trivial.
      destruct (String.leb_total x y) as [H|H]; [congruence | exact H].
Qed.

Lemma sort_sorted (l : list string) : Sorted leS (Qt.sort l).
Proof.
  induction l as [|x l IH]; simpl.
  - constructor.
  - now apply insertSorted_sorted.
Qed.

Lemma sort_In (l : list string) (x : string) : In x (Qt.sort l) <-> In x l.
Proof.
  split; intro H.
  - eapply Permutation_in; [apply Permutation_sym, sort_perm | exact H].
  - eapply Permutation_in; [apply sort_perm | exact H].
Qed.

Lemma listEq_spec (a b : list string) : Qt.listEq a b = true <-> a = b.
Proof.
  revert b; induction a as [|x a IH]; intros [|y b]; simpl;
    try (split; [discriminate | congruence]); try tauto.
  rewrite andb_true_iff, String.eqb_eq, IH.
  split; [intros [-> ->]; reflexivity | intros [= -> ->]; auto].
Qed.

Lemma listEq_refl (a : list string) : Qt.listEq a a = true.
Proof. now apply listEq_spec. Qed.

Lemma listEq_false (a b : list string) : Qt.listEq a b = false <-> a <> b.
Proof.
  rewrite <- listEq_spec. destruct (Qt.listEq a b); split; congruence.
Qed.

(** ** The recipient-parsing rule *)

Lemma nth_error_4 (l : list string) :
  nth_error l 4 = if 4 <? List.length l then Some (nth 4 l EmptyString)
                  else None.
Proof.
  do 5 (destruct l as [|? l]; [reflexivity|]). reflexivity.
Qed.

Lemma scanLine_keyOfLine (acc : list string) (line : string) :
  scanLine acc line = acc ++ keyOfLine line.
Proof.
  unfold scanLine, keyOfLine. rewrite nth_error_4.
  destruct (4 <? _).
  - destruct (_ =? 16); [reflexivity | now rewrite app_nil_r].
  - now rewrite app_nil_r.
Qed.

Lemma scanLines_flat_map (key acc : list string) :
  scanLines key acc = acc ++ flat_map keyOfLine key.
Proof.
  revert acc; induction key as [|line key IH]; intro acc; simpl.
  - now rewrite app_nil_r.
  - now rewrite IH, scanLine_keyOfLine, <- app_assoc.
Qed.

Lemma keyOfLine_spec (line k : string) :
  keyOfLine line = [k] <->
  4 < List.length (Qt.split SPACE line) /\
  nth 4 (Qt.split SPACE line) EmptyString = k /\
  String.length k = 16.
Proof.
  unfold keyOfLine. rewrite nth_error_4.
  destruct (4 <? _) eqn:E4.
  - apply Nat.ltb_lt in E4.
    destruct (_ =? 16) eqn:E16.
    + apply Nat.eqb_eq in E16. split.
      * intros [= <-]. auto.
      * intros (_ & <- & _). reflexivity.
    + apply Nat.eqb_neq in E16. split; [discriminate|].
      intros (_ & <- & H). contradiction.
  - apply Nat.ltb_ge in E4. split; [discriminate|]. intros (H & _). lia.
Qed.

Lemma keyOfLine_none (line : string) :
  keyOfLine line = [] <->
  ~ (4 < List.length (Qt.split SPACE line) /\
     String.length (nth 4 (Qt.split SPACE line) EmptyString) = 16).
Proof.
  unfold keyOfLine. rewrite nth_error_4.
  destruct (4 <? _) eqn:E4.
  - apply Nat.ltb_lt in E4.
    destruct (_ =? 16) eqn:E16.
    + apply Nat.eqb_eq in E16. split; [discriminate | tauto].
    + apply Nat.eqb_neq in E16. tauto.
  - apply Nat.ltb_ge in E4. split; [lia | reflexivity].
Qed.

(** ** Unfolding the walk *)

Section WalkLemmas.

Context {W : Type}.
Variable sys : System W.
Variable cfg : Settings.

Lemma appendRecipients_flat_map (args recipients : list string) :
  appendRecipients args recipients =
  args ++ flat_map (fun r => ["-r"; r]) recipients.
Proof.
  unfold appendRecipients.
  revert args; induction recipients as [|r rs IH]; intro args; simpl.
  - now rewrite app_nil_r.
  - rewrite IH. now rewrite <- !app_assoc.
Qed.

Lemma walk_encryptArgs (fileName : string) (recipients : list string) :
  appendRecipients ["--yes"; "--batch"; "-eq"; "--output"; fileName]
                   recipients ++ ["-"] =
  encryptArgs fileName recipients.
Proof.
  rewrite appendRecipients_flat_map. unfold encryptArgs.
  now rewrite <- app_assoc.
Qed.

(** The decryption did not produce a usable plaintext: the block ends
    after the second [lastDecrypt] signal. *)
Lemma reencryptFile_failed (fileName : string) (w : W) :
  decryptFailed (decryptedText sys cfg fileName w) = true ->
  reencryptFile sys cfg fileName w =
  (NextEntry, fst (decrypt sys cfg fileName w),
   [LastDecrypt couldNotDecrypt; decryptEvent cfg fileName;
    LastDecrypt (decryptedText sys cfg fileName w)]).
Proof.
  unfold decryptFailed, decryptedText, decrypt, reencryptFile, bind, emit,
    executeBlocking, decryptEvent, ret.
  destruct (sysExec sys w _ _ _) as [w2 r]; simpl.
  intro H. apply orb_true_iff in H.
  replace (negb (Qt.isEmpty (outOr couldNotDecrypt r)) &&
           negb (outOr couldNotDecrypt r =? couldNotDecrypt)%string)
    with false.
  - reflexivity.
  - destruct H as [-> | ->]; simpl; [reflexivity | now rewrite andb_false_r].
Qed.

(** The plaintext is usable but no recipient is declared any more: the
    block emits the error and makes [reencryptPath] return. *)
Lemma reencryptFile_undeclared (fileName : string) (w : W) :
  decryptFailed (decryptedText sys cfg fileName w) = false ->
  sysRecipients sys (fst (decrypt sys cfg fileName w)) fileName = [] ->
  reencryptFile sys cfg fileName w =
  (Returned, fst (decrypt sys cfg fileName w),
   [LastDecrypt couldNotDecrypt; decryptEvent cfg fileName;
    LastDecrypt (decryptedText sys cfg fileName w);
    LastDecrypt (terminated (decryptedText sys cfg fileName w));
    GetRecipientList fileName;
    Critical "Can not edit" msgCannotEdit]).
Proof.
  unfold decryptFailed, decryptedText, decrypt, reencryptFile, bind, emit,
    executeBlocking, decryptEvent, ret, getRecipientList, terminated.
  destruct (sysExec sys w _ _ _) as [w2 r]; simpl.
  intros H Hr. simpl in Hr.
  apply orb_false_iff in H. destruct H as [H1 H2].
  rewrite H1, H2. simpl. rewrite Hr. simpl.
  destruct (Qt.right 1 (outOr couldNotDecrypt r) =? nl)%string;
    reflexivity.
Qed.

(** The plaintext is usable and recipients are declared. *)
Lemma reencryptFile_done (fileName : string) (w : W) :
  decryptFailed (decryptedText sys cfg fileName w) = false ->
  sysRecipients sys (fst (decrypt sys cfg fileName w)) fileName <> [] ->
  reencryptFile sys cfg fileName w =
  (NextEntry,
   (if vcsCommits cfg then worldAfterCommit sys cfg fileName w
    else worldAfterEncrypt sys cfg fileName w),
   [LastDecrypt couldNotDecrypt; decryptEvent cfg fileName;
    LastDecrypt (decryptedText sys cfg fileName w);
    LastDecrypt (terminated (decryptedText sys cfg fileName w));
    GetRecipientList fileName;
    encryptEvent cfg fileName
      (sysRecipients sys (fst (decrypt sys cfg fileName w)) fileName)
      (terminated (decryptedText sys cfg fileName w))] ++
   (if vcsCommits cfg
    then [stageEvent cfg fileName; editCommitEvent sys cfg fileName]
    else [])).
Proof.
  unfold worldAfterCommit, worldAfterEncrypt, vcsCommits.
  unfold decryptFailed, decryptedText, decrypt, reencryptFile, bind, emit,
    executeBlocking, decryptEvent, ret, getRecipientList, terminated,
    encryptEvent, stageEvent, editCommitEvent, entryName.
  destruct (sysExec sys w _ _ _) as [w2 r]; simpl.
  intros H Hr. simpl in Hr.
  apply orb_false_iff in H. destruct H as [H1 H2].
  rewrite H1, H2. simpl.
  destruct (sysRecipients sys w2 fileName) as [|r0 rs] eqn:ER;
    [congruence|].
  cbn [Qt.isEmptyList].
  rewrite walk_encryptArgs.
  set (plain := if negb (Qt.right 1 (outOr couldNotDecrypt r) =? nl)%string
                then _ else _).
  replace (if (Qt.right 1 (outOr couldNotDecrypt r) =? nl)%string
           then outOr couldNotDecrypt r
           else outOr couldNotDecrypt r +++ nl) with plain
    by (unfold plain;
        destruct (Qt.right 1 (outOr couldNotDecrypt r) =? nl)%string;
        reflexivity).
  destruct (sysExec sys w2 _ (encryptArgs _ _) _) as [w3 r3].
  destruct (negb (useWebDav cfg) && useGit cfg); simpl.
  - destruct (sysExec sys w3 _ _ _) as [w4 r4]. cbn [fst snd].
    destruct (sysExec sys w4 _ _ _) as [w5 r5]. reflexivity.
  - reflexivity.
Qed.

(** One iteration of the loop, by the outcome of the comparison. *)
Lemma reencryptEntry_unfold (entry : FileInfo) (gpgId : list string)
      (w : W) :
  reencryptEntry sys cfg entry gpgId w =
  let fileName := filePath entry in
  let g := declaredInEffect sys entry gpgId w in
  let w1 := fst (inspect sys cfg fileName w) in
  if Qt.listEq (actualKeysOf sys cfg fileName w) g then
    ((NextEntry, g), w1, loadEvents entry ++ [inspectEvent cfg fileName])
  else
    let '(x, w2, t) := reencryptFile sys cfg fileName w1 in
    ((x, g), w2, loadEvents entry ++ inspectEvent cfg fileName :: t).
Proof.
  unfold reencryptEntry, declaredInEffect, loadEvents, actualKeysOf,
    inspect, inspectEvent.
  unfold bind at 1.
  destruct (path entry =? currentDir_path)%string; cbn [negb].
  - unfold ret at 1. unfold bind at 1. unfold executeBlocking at 1.
    destruct (sysExec sys w _ _ _) as [w1 r]. cbn [fst snd].
    destruct (Qt.listEq _ gpgId); cbn [negb].
    + reflexivity.
    + unfold bind, ret.
      destruct (reencryptFile sys cfg (filePath entry) w1) as [[x w2] t].
      rewrite !app_nil_r. reflexivity.
  - unfold bind at 1, getRecipientList at 1, ret at 1.
    unfold bind at 1. unfold executeBlocking at 1.
    destruct (sysExec sys w _ _ _) as [w1 r]. cbn [fst snd].
    destruct (Qt.listEq _ _); cbn [negb].
    + reflexivity.
    + unfold bind, ret.
      destruct (reencryptFile sys cfg (filePath entry) w1) as [[x w2] t].
      rewrite !app_nil_r. reflexivity.
Qed.

(** The loop over a list that starts with a prefix the walk gets
    through. *)
Lemma reencryptLoop_app (pre post : list FileInfo) :
  forall (gpgId g1 : list string) (w w1 : W) (t1 : list Event),
    walkPrefix sys cfg pre gpgId w = Some (g1, w1, t1) ->
    reencryptLoop sys cfg (pre ++ post) gpgId w =
    let '(x, w2, t2) := reencryptLoop sys cfg post g1 w1 in
    (x, w2, t1 ++ t2).
Proof.
  induction pre as [|entry pre IH]; intros gpgId g1 w w1 t1 H.
  - simpl in H. injection H as <- <- <-. simpl.
    now destruct (reencryptLoop sys cfg post gpgId w) as [[x w2] t2].
  - simpl in H. cbn [app reencryptLoop]. unfold bind at 1.
    destruct (reencryptEntry sys cfg entry gpgId w) as [[[x g] wa] ta].
    cbn [fst snd] in *.
    destruct x; [|discriminate].
    destruct (walkPrefix sys cfg pre g wa) as [[[g2 w2] t2]|] eqn:E;
      [|discriminate].
    injection H as <- <- <-.
    rewrite (IH _ _ _ _ _ E).
    destruct (reencryptLoop sys cfg post g2 w2) as [[x w3] t3].
    now rewrite app_assoc.
Qed.

Lemma walkPrefix_snoc (pre : list FileInfo) (entry : FileInfo) :
  forall (gpgId g1 g2 : list string) (w w1 w2 : W) (t1 t2 : list Event),
    walkPrefix sys cfg pre gpgId w = Some (g1, w1, t1) ->
    reencryptEntry sys cfg entry g1 w1 = ((NextEntry, g2), w2, t2) ->
    walkPrefix sys cfg (pre ++ [entry]) gpgId w = Some (g2, w2, t1 ++ t2).
Proof.
  induction pre as [|e pre IH]; intros gpgId g1 g2 w w1 w2 t1 t2 H He.
  - simpl in H. injection H as <- <- <-. simpl. rewrite He. simpl.
    now rewrite app_nil_r.
  - simpl in H. cbn [app walkPrefix].
    destruct (reencryptEntry sys cfg e gpgId w) as [[[x g] wa] ta].
    cbn [fst snd] in *.
    destruct x; [|discriminate].
    destruct (walkPrefix sys cfg pre g wa) as [[[g3 w3] t3]|] eqn:E;
      [|discriminate].
    injection H as <- <- <-.
    rewrite (IH _ _ _ _ _ _ _ _ E He).
    now rewrite app_assoc.
Qed.

(** [reencryptPath] is its prologue, the loop, and the epilogue that fits
    the way the loop ended. *)
Lemma reencryptPath_unfold (dir : string) (w : W) :
  reencryptPath sys cfg dir w =
  let '(_, w0, t0) := prologue sys cfg dir w in
  let '(x, w3, t3) :=
    reencryptLoop sys cfg (sysGpgFiles sys w0 dir) [] w0 in
  (tt, w3, t0 ++ t3 ++ epilogue cfg x).
Proof.
  unfold reencryptPath, prologue, epilogue, epilogueEvents, GitPull_b,
    GitPush, executeWrapper.
  unfold bind, emit, ret, executeBlocking.
  destruct (autoPull cfg).
  - destruct (sysExec sys w _ _ _) as [w0 r0]. cbn [fst snd app].
    destruct (reencryptLoop sys cfg _ [] w0) as [[x w3] t3].
    destruct x; [destruct (autoPush cfg)|]; cbn [app];
      rewrite ?app_nil_r; reflexivity.
  - cbn [fst snd app].
    destruct (reencryptLoop sys cfg _ [] w) as [[x w3] t3].
    destruct x; [destruct (autoPush cfg)|]; cbn [app];
      rewrite ?app_nil_r; reflexivity.
Qed.

(** From a position of the walk, [reencryptPath] is what was emitted so
    far, the loop over the remaining entries, and the epilogue. *)
Lemma reencryptPath_from (dir : string) (w : W) (i : nat)
      (entry : FileInfo) (post : list FileInfo) (g1 : list string)
      (w1 : W) (t : list Event) :
  walkAt sys cfg dir w i = Some (entry, post, g1, w1, t) ->
  reencryptPath sys cfg dir w =
  let '(x, w3, t3) := reencryptLoop sys cfg (entry :: post) g1 w1 in
  (tt, w3, t ++ t3 ++ epilogue cfg x).
Proof.
  unfold walkAt. rewrite reencryptPath_unfold.
  destruct (prologue sys cfg dir w) as [[u w0] t0].
  destruct (skipn i (sysGpgFiles sys w0 dir)) as [|e p] eqn:Es;
    [discriminate|].
  destruct (walkPrefix sys cfg _ [] w0) as [[[g w'] t1]|] eqn:Ep;
    [|discriminate].
  intros [= -> -> -> -> <-].
  rewrite <- (firstn_skipn i (sysGpgFiles sys w0 dir)) at 1.
  rewrite Es, (reencryptLoop_app _ _ _ _ _ _ _ Ep).
  destruct (reencryptLoop sys cfg (entry :: post) g1 w1) as [[x w3] t3].
  rewrite <- !app_assoc. reflexivity.
Qed.

End WalkLemmas.

(** ** Strings *)

Lemma append_assoc (a b c : string) : (a +++ b) +++ c = a +++ b +++ c.
Proof. induction a as [|x a IH]; [reflexivity|]. cbn. now rewrite IH. Qed.

Lemma append_empty_r (a : string) : a +++ EmptyString = a.
Proof. induction a as [|x a IH]; [reflexivity|]. cbn. now rewrite IH. Qed.

Lemma length_append (a b : string) :
  String.length (a +++ b) = String.length a + String.length b.
Proof. induction a as [|x a IH]; [reflexivity|]. cbn. now rewrite IH. Qed.

(** ** Lists *)

Lemma last_app_nonempty {A} (l l' : list A) (d : A) :
  l' <> [] -> last (l ++ l') d = last l' d.
Proof.
  intro H. induction l as [|x l IH]; [reflexivity|].
  cbn [app last]. destruct (l ++ l') eqn:E.
  - apply app_eq_nil in E. destruct E as [_ E]. contradiction.
  - exact IH.
Qed.

(** ** Moving along the walk *)

Section WalkSteps.

Context {W : Type}.
Variable sys : System W.
Variable cfg : Settings.

Lemma skipn_cons_next {A} (i : nat) (l : list A) (x : A) (post : list A) :
  skipn i l = x :: post ->
  firstn (S i) l = firstn i l ++ [x] /\ skipn (S i) l = post.
Proof.
  revert l; induction i as [|i IH]; intros l H.
  - simpl in H. subst l. split; reflexivity.
  - destruct l as [|y l]; [discriminate|].
    simpl in H. destruct (IH _ H) as [H1 H2].
    split; [|exact H2].
    change (firstn (S (S i)) (y :: l)) with (y :: firstn (S i) l).
    now rewrite H1.
Qed.

(** After an iteration that falls through, the walk is at the next
    position, if there is one. *)
Lemma walkAt_next (dir : string) (w : W) (i : nat) (entry : FileInfo)
      (post : list FileInfo) (g1 g2 : list string) (w1 w2 : W)
      (t t2 : list Event) :
  walkAt sys cfg dir w i = Some (entry, post, g1, w1, t) ->
  reencryptEntry sys cfg entry g1 w1 = ((NextEntry, g2), w2, t2) ->
  walkAt sys cfg dir w (S i) =
  match post with
  | [] => None
  | next :: post' => Some (next, post', g2, w2, t ++ t2)
  end.
Proof.
  unfold walkAt.
  destruct (prologue sys cfg dir w) as [[u w0] t0].
  destruct (skipn i (sysGpgFiles sys w0 dir)) as [|e p] eqn:Es;
    [discriminate|].
  destruct (walkPrefix sys cfg (firstn i _) [] w0) as [[[g w'] t1]|] eqn:Ep;
    [|discriminate].
  intros [= -> -> -> -> <-] He.
  destruct (skipn_cons_next _ _ _ _ Es) as [Hf Hs].
  rewrite Hs, Hf.
  destruct post as [|next post']; [reflexivity|].
  rewrite (walkPrefix_snoc sys cfg _ _ _ _ _ _ _ _ _ _ Ep He).
  now rewrite app_assoc.
Qed.

Lemma walkPrefix_returned (pre : list FileInfo) (entry : FileInfo)
      (more : list FileInfo) :
  forall (gpgId g1 g2 : list string) (w w1 w2 : W) (t1 t2 : list Event),
    walkPrefix sys cfg pre gpgId w = Some (g1, w1, t1) ->
    reencryptEntry sys cfg entry g1 w1 = ((Returned, g2), w2, t2) ->
    walkPrefix sys cfg (pre ++ entry :: more) gpgId w = None.
Proof.
  induction pre as [|e pre IH]; intros gpgId g1 g2 w w1 w2 t1 t2 H He.
  - simpl in H. injection H as <- <- <-. simpl. now rewrite He.
  - simpl in H. cbn [app walkPrefix].
    destruct (reencryptEntry sys cfg e gpgId w) as [[[x g] wa] ta].
    cbn [fst snd] in *.
    destruct x; [|discriminate].
    destruct (walkPrefix sys cfg pre g wa) as [[[g3 w3] t3]|] eqn:E;
      [|discriminate].
    injection H as <- <- <-.
    now rewrite (IH _ _ _ _ _ _ _ _ E He).
Qed.

Lemma firstn_past {A} (i j : nat) (l : list A) (x : A) (post : list A) :
  skipn i l = x :: post -> i < j ->
  firstn j l = firstn i l ++ x :: firstn (j - S i) post.
Proof.
  revert j l; induction i as [|i IH]; intros j l H Hj.
  - simpl in H. subst l. destruct j; [lia|]. simpl.
    now rewrite Nat.sub_0_r.
  - destruct l as [|y l]; [discriminate|].
    destruct j; [lia|]. simpl in H. simpl.
    f_equal. apply IH; [exact H | lia].
Qed.

(** After an iteration that returns, the walk has no later position. *)
Lemma walkAt_after_return (dir : string) (w : W) (i : nat)
      (entry : FileInfo) (post : list FileInfo) (g1 g2 : list string)
      (w1 w2 : W) (t t2 : list Event) :
  walkAt sys cfg dir w i = Some (entry, post, g1, w1, t) ->
  reencryptEntry sys cfg entry g1 w1 = ((Returned, g2), w2, t2) ->
  forall j, i < j -> walkAt sys cfg dir w j = None.
Proof.
  unfold walkAt.
  destruct (prologue sys cfg dir w) as [[u w0] t0].
  destruct (skipn i (sysGpgFiles sys w0 dir)) as [|e p] eqn:Es;
    [discriminate|].
  destruct (walkPrefix sys cfg (firstn i _) [] w0) as [[[g w'] t1]|] eqn:Ep;
    [|discriminate].
  intros [= -> -> -> -> <-] He j Hj.
  destruct (skipn j _); [reflexivity|].
  rewrite (firstn_past _ _ _ _ _ Es Hj).
  now rewrite (walkPrefix_returned _ _ _ _ _ _ _ _ _ _ _ Ep He).
Qed.

(** The continuation of [reencryptPath] after an iteration that falls
    through. *)
Lemma reencryptPath_continues (dir : string) (w : W) (i : nat)
      (entry : FileInfo) (post : list FileInfo) (g1 g2 : list string)
      (w1 w2 : W) (t t2 : list Event) :
  walkAt sys cfg dir w i = Some (entry, post, g1, w1, t) ->
  reencryptEntry sys cfg entry g1 w1 = ((NextEntry, g2), w2, t2) ->
  reencryptPath sys cfg dir w =
  let '(x, w3, t3) := reencryptLoop sys cfg post g2 w2 in
  (tt, w3, t ++ t2 ++ t3 ++ epilogue cfg x).
Proof.
  intros Hat He. rewrite (reencryptPath_from sys cfg _ _ _ _ _ _ _ _ Hat).
  cbn [reencryptLoop]. unfold bind at 1. rewrite He. cbn [fst snd].
  destruct (reencryptLoop sys cfg post g2 w2) as [[x w3] t3].
  now rewrite <- app_assoc.
Qed.

(** [reencryptPath] after an iteration that returns. *)
Lemma reencryptPath_returns (dir : string) (w : W) (i : nat)
      (entry : FileInfo) (post : list FileInfo) (g1 g2 : list string)
      (w1 w2 : W) (t t2 : list Event) :
  walkAt sys cfg dir w i = Some (entry, post, g1, w1, t) ->
  reencryptEntry sys cfg entry g1 w1 = ((Returned, g2), w2, t2) ->
  reencryptPath sys cfg dir w = (tt, w2, t ++ t2).
Proof.
  intros Hat He. rewrite (reencryptPath_from sys cfg _ _ _ _ _ _ _ _ Hat).
  cbn [reencryptLoop]. unfold bind at 1. rewrite He. cbn [fst snd].
  unfold ret. cbn [epilogue]. now rewrite !app_nil_r.
Qed.

End WalkSteps.

(** ** Commits name their entry *)

Section WalkCommits.

Context {W : Type}.
Variable sys : System W.
Variable cfg : Settings.

Lemma commitsFor_app (f : string) (a b : list Event) :
  commitsFor f (a ++ b) = commitsFor f a ++ commitsFor f b.
Proof. apply filter_app. Qed.

Lemma reencryptFile_commits_other (fileName f : string) (w : W) :
  fileName <> f ->
  commitsFor f (traceOf (reencryptFile sys cfg fileName w)) = [].
Proof.
  intro Hf. apply String.eqb_neq in Hf.
  destruct (decryptFailed (decryptedText sys cfg fileName w)) eqn:Ef.
  - now rewrite (reencryptFile_failed sys cfg _ _ Ef).
  - destruct (sysRecipients sys (fst (decrypt sys cfg fileName w)) fileName)
      as [|r rs] eqn:Er.
    + now rewrite (reencryptFile_undeclared sys cfg _ _ Ef Er).
    + rewrite (reencryptFile_done sys cfg fileName w Ef)
        by (rewrite Er; discriminate).
      destruct (vcsCommits cfg); [|reflexivity].
      unfold traceOf, commitsFor. cbn. now rewrite Hf.
Qed.

Lemma loadEvents_commits (entry : FileInfo) (f : string) :
  commitsFor f (loadEvents entry) = [].
Proof.
  unfold loadEvents.
  destruct (path entry =? currentDir_path)%string; reflexivity.
Qed.

Lemma reencryptEntry_commits_other (entry : FileInfo) (gpgId : list string)
      (f : string) (w : W) :
  filePath entry <> f ->
  commitsFor f (traceOf (reencryptEntry sys cfg entry gpgId w)) = [].
Proof.
  intro Hf. rewrite reencryptEntry_unfold. cbv zeta.
  destruct (Qt.listEq _ _).
  - unfold traceOf. cbn [snd].
    now rewrite commitsFor_app, loadEvents_commits.
  - pose proof (reencryptFile_commits_other (filePath entry) f
                  (fst (inspect sys cfg (filePath entry) w)) Hf) as H.
    destruct (reencryptFile sys cfg _ _) as [[x w2] t].
    unfold traceOf in *. cbn [snd] in *.
    rewrite commitsFor_app, loadEvents_commits. exact H.
Qed.

Lemma reencryptLoop_commits_other (gpgFiles : list FileInfo) (f : string) :
  ~ In f (map filePath gpgFiles) ->
  forall (gpgId : list string) (w : W),
    commitsFor f (traceOf (reencryptLoop sys cfg gpgFiles gpgId w)) = [].
Proof.
  induction gpgFiles as [|entry rest IH]; intros Hf gpgId w; [reflexivity|].
  cbn [map In] in Hf.
  cbn [reencryptLoop]. unfold bind at 1.
  pose proof (reencryptEntry_commits_other entry gpgId f w
                (fun E => Hf (or_introl E))) as He.
  destruct (reencryptEntry sys cfg entry gpgId w) as [[[x g] w1] t1].
  cbn [fst snd]. unfold traceOf in He. cbn [snd] in He.
  destruct x.
  - specialize (IH (fun E => Hf (or_intror E)) g w1).
    destruct (reencryptLoop sys cfg rest g w1) as [[x w2] t2].
    unfold traceOf in *. cbn [snd] in *.
    now rewrite commitsFor_app, He, IH.
  - unfold ret, traceOf. cbn [snd]. now rewrite app_nil_r.
Qed.

Lemma walkPrefix_commits_other (pre : list FileInfo) (f : string) :
  ~ In f (map filePath pre) ->
  forall (gpgId g1 : list string) (w w1 : W) (t1 : list Event),
    walkPrefix sys cfg pre gpgId w = Some (g1, w1, t1) ->
    commitsFor f t1 = [].
Proof.
  induction pre as [|entry rest IH]; intros Hf gpgId g1 w w1 t1 H.
  - simpl in H. now injection H as <- <- <-.
  - cbn [map In] in Hf. cbn [walkPrefix] in H.
    pose proof (reencryptEntry_commits_other entry gpgId f w
                  (fun E => Hf (or_introl E))) as He.
    destruct (reencryptEntry sys cfg entry gpgId w) as [[[x g] wa] ta].
    cbn [fst snd] in *. unfold traceOf in He. cbn [snd] in He.
    destruct x; [|discriminate].
    destruct (walkPrefix sys cfg rest g wa) as [[[g2 w2] t2]|] eqn:E;
      [|discriminate].
    injection H as <- <- <-.
    rewrite commitsFor_app, He.
    exact (IH (fun E' => Hf (or_intror E')) _ _ _ _ _ E).
Qed.

Lemma prologue_commits (dir f : string) (w : W) :
  commitsFor f (traceOf (prologue sys cfg dir w)) = [].
Proof.
  unfold prologue, GitPull_b, bind, emit, ret, executeBlocking.
  destruct (autoPull cfg); [|reflexivity].
  destruct (sysExec sys w _ _ _). reflexivity.
Qed.

Lemma epilogue_commits (x : LoopExit) (f : string) :
  commitsFor f (epilogue cfg x) = [].
Proof.
  unfold epilogue, epilogueEvents.
  destruct x; [destruct (autoPush cfg)|]; reflexivity.
Qed.

(** In a walk over distinct files, the events before and after an entry's
    iteration hold no commit for that entry's file. *)
Lemma commits_only_in_own_iteration (dir : string) (w : W) (i : nat)
      (entry : FileInfo) (post : list FileInfo) (g1 : list string)
      (w1 : W) (t : list Event) :
  walkAt sys cfg dir w i = Some (entry, post, g1, w1, t) ->
  NoDup (map filePath
             (sysGpgFiles sys (worldOf (prologue sys cfg dir w)) dir)) ->
  commitsFor (filePath entry) t = [] /\
  forall (g : list string) (v : W),
    commitsFor (filePath entry)
               (traceOf (reencryptLoop sys cfg post g v)) = [].
Proof.
  unfold walkAt, worldOf.
  pose proof (prologue_commits dir (filePath entry) w) as Hp.
  destruct (prologue sys cfg dir w) as [[u w0] t0].
  unfold traceOf in Hp. cbn [fst snd] in *.
  destruct (skipn i (sysGpgFiles sys w0 dir)) as [|e p] eqn:Es;
    [discriminate|].
  destruct (walkPrefix sys cfg (firstn i _) [] w0) as [[[g w'] t1]|] eqn:Ep;
    [|discriminate].
  intros [= -> -> -> -> <-] Hnd.
  rewrite <- (firstn_skipn i (sysGpgFiles sys w0 dir)), Es in Hnd.
  rewrite map_app in Hnd. cbn [map] in Hnd.
  pose proof (NoDup_remove_2 _ _ _ Hnd) as Hnot.
  split.
  - rewrite commitsFor_app, Hp.
    apply (walkPrefix_commits_other _ _
             (fun E => Hnot (in_or_app _ _ _ (or_introl E)))
             _ _ _ _ _ Ep).
  - intros g v. apply reencryptLoop_commits_other.
    intro E. apply Hnot. apply in_or_app. now right.
Qed.

End WalkCommits.

(** ** The walk, entry by entry *)

Section WalkClaims.

Context {W : Type}.
Variable sys : System W.
Variable cfg : Settings.

Lemma load_and_inspect_leave_alone (entry : FileInfo) :
  forallb leavesEntriesAlone
          (loadEvents entry ++ [inspectEvent cfg (filePath entry)]) = true.
Proof.
  unfold loadEvents.
  destruct (path entry =? currentDir_path)%string; reflexivity.
Qed.

(** An entry found converged costs its inspection and nothing else. *)
Lemma reencryptEntry_converged (entry : FileInfo) (gpgId : list string)
      (w : W) :
  actualKeysOf sys cfg (filePath entry) w =
  declaredInEffect sys entry gpgId w ->
  reencryptEntry sys cfg entry gpgId w =
  ((NextEntry, declaredInEffect sys entry gpgId w),
   fst (inspect sys cfg (filePath entry) w),
   loadEvents entry ++ [inspectEvent cfg (filePath entry)]).
Proof.
  intro H. rewrite reencryptEntry_unfold. cbv zeta.
  now rewrite H, listEq_refl.
Qed.

(** An entry found mismatched goes through the re-encryption block. *)
Lemma reencryptEntry_mismatch (entry : FileInfo) (gpgId : list string)
      (w : W) :
  actualKeysOf sys cfg (filePath entry) w <>
  declaredInEffect sys entry gpgId w ->
  reencryptEntry sys cfg entry gpgId w =
  let '(x, w2, t) :=
    reencryptFile sys cfg (filePath entry)
                  (fst (inspect sys cfg (filePath entry) w)) in
  ((x, declaredInEffect sys entry gpgId w), w2,
   loadEvents entry ++ inspectEvent cfg (filePath entry) :: t).
Proof.
  intro H. rewrite reencryptEntry_unfold. cbv zeta.
  apply listEq_false in H. now rewrite H.
Qed.

(** A walk over entries that are all converged: only resolutions and
    inspections happen, and whatever inspection preserves is
    preserved. *)
Lemma converged_loop (gpgFiles : list FileInfo) :
  forall (gpgId : list string) (w : W),
    allConverged sys cfg gpgFiles gpgId w = true ->
    exists w' t,
      reencryptLoop sys cfg gpgFiles gpgId w = (NextEntry, w', t) /\
      forallb leavesEntriesAlone t = true /\
      forall (X : Type) (obs : W -> X),
        (forall v f, obs (fst (inspect sys cfg f v)) = obs v) ->
        obs w' = obs w.
Proof.
  induction gpgFiles as [|entry rest IH]; intros gpgId w H.
  - exists w, []. repeat split; reflexivity.
  - cbn [allConverged] in H. apply andb_true_iff in H.
    destruct H as [Heq Hrest]. apply listEq_spec in Heq.
    destruct (IH _ _ Hrest) as (w' & t & Hloop & Halone & Hobs).
    exists w', ((loadEvents entry ++ [inspectEvent cfg (filePath entry)])
                  ++ t).
    split; [|split].
    + cbn [reencryptLoop]. unfold bind at 1.
      rewrite (reencryptEntry_converged _ _ _ Heq). cbn [fst snd].
      now rewrite Hloop.
    + rewrite forallb_app, load_and_inspect_leave_alone. exact Halone.
    + intros X obs Hinv. rewrite (Hobs X obs Hinv). apply Hinv.
Qed.

(** Convergence as the walk sees it.  When the walk arrives at an entry
    whose sorted actual recipients equal the sorted declared set it holds
    for that entry, the iteration consists of the inspection alone (preceded
    by the resolution of the declared set, when one is made): no
    decryption, no encryption, no commit; the world is the one the
    inspection leaves, so whatever inspection preserves (the ciphertext) is
    unchanged; and the walk goes on with the remaining entries.  When every
    remaining entry is found converged, this holds for the rest of
    [reencryptPath]. *)
Lemma converged_entry_is_left_alone
        (dir : string) (w : W) (i : nat) (entry : FileInfo)
        (post : list FileInfo) (g1 : list string) (w1 : W)
        (t : list Event) :
  walkAt sys cfg dir w i = Some (entry, post, g1, w1, t) ->
  actualKeysOf sys cfg (filePath entry) w1 =
  declaredInEffect sys entry g1 w1 ->
  let fileName := filePath entry in
  let g := declaredInEffect sys entry g1 w1 in
  let w2 := fst (inspect sys cfg fileName w1) in
  let entryTrace := loadEvents entry ++ [inspectEvent cfg fileName] in
  reencryptEntry sys cfg entry g1 w1 = ((NextEntry, g), w2, entryTrace) /\
  forallb leavesEntriesAlone entryTrace = true /\
  (forall (X : Type) (obs : W -> X),
      (forall v f, obs (fst (inspect sys cfg f v)) = obs v) ->
      obs w2 = obs w1) /\
  reencryptPath sys cfg dir w =
  (let '(x, w3, t3) := reencryptLoop sys cfg post g w2 in
   (tt, w3, t ++ entryTrace ++ t3 ++ epilogue cfg x)) /\
  (allConverged sys cfg (entry :: post) g1 w1 = true ->
   exists w3 t3,
     reencryptPath sys cfg dir w = (tt, w3, t ++ t3 ++ epilogueEvents cfg) /\
     forallb leavesEntriesAlone t3 = true /\
     forall (X : Type) (obs : W -> X),
       (forall v f, obs (fst (inspect sys cfg f v)) = obs v) ->
       obs w3 = obs w1).
Proof.
  intros Hat Heq fileName g w2 entryTrace.
  pose proof (reencryptEntry_converged _ _ _ Heq) as Hentry.
  split; [exact Hentry|].
  split; [apply load_and_inspect_leave_alone|].
  split; [intros X obs Hinv; apply Hinv|].
  split; [exact (reencryptPath_continues sys cfg _ _ _ _ _ _ _ _ _ _ _
                   Hat Hentry)|].
  intro Hall.
  destruct (converged_loop _ _ _ Hall) as (w3 & t3 & Hloop & Halone & Hobs).
  exists w3, t3. split; [|split; assumption].
  rewrite (reencryptPath_from sys cfg _ _ _ _ _ _ _ _ Hat), Hloop.
  reflexivity.
Qed.

(** C4 (fault isolation).  When the walk arrives at an entry it finds
    mismatched (the only entries it decrypts) and the decryption leaves an
    empty text or the placeholder, the
    iteration ends after the decryption: no encryption, no staging, no
    commit, so whatever inspection and decryption preserve (the
    ciphertext) is unchanged.  The walk then arrives at the next
    position, and the rest of [reencryptPath] is the loop over the
    entries after this one followed by the epilogue. *)
Theorem decrypt_failure_skips_only_that_entry
        (dir : string) (w : W) (i : nat) (entry : FileInfo)
        (post : list FileInfo) (g1 : list string) (w1 : W)
        (t : list Event) :
  walkAt sys cfg dir w i = Some (entry, post, g1, w1, t) ->
  actualKeysOf sys cfg (filePath entry) w1 <>
  declaredInEffect sys entry g1 w1 ->
  decryptFailed
    (decryptedText sys cfg (filePath entry)
                   (fst (inspect sys cfg (filePath entry) w1))) = true ->
  let fileName := filePath entry in
  let g := declaredInEffect sys entry g1 w1 in
  let w2 := fst (inspect sys cfg fileName w1) in
  let w3 := fst (decrypt sys cfg fileName w2) in
  let entryTrace :=
    loadEvents entry ++
    [inspectEvent cfg fileName; LastDecrypt couldNotDecrypt;
     decryptEvent cfg fileName;
     LastDecrypt (decryptedText sys cfg fileName w2)] in
  reencryptEntry sys cfg entry g1 w1 = ((NextEntry, g), w3, entryTrace) /\
  forallb (fun e => negb (isEncrypt e) && negb (isCommit e)) entryTrace
  = true /\
  (forall (X : Type) (obs : W -> X),
      (forall v f, obs (fst (inspect sys cfg f v)) = obs v) ->
      (forall v f, obs (fst (decrypt sys cfg f v)) = obs v) ->
      obs w3 = obs w1) /\
  walkAt sys cfg dir w (S i) =
  (match post with
   | [] => None
   | next :: post' => Some (next, post', g, w3, t ++ entryTrace)
   end) /\
  reencryptPath sys cfg dir w =
  (let '(x, w4, t4) := reencryptLoop sys cfg post g w3 in
   (tt, w4, t ++ entryTrace ++ t4 ++ epilogue cfg x)).
Proof.
  intros Hat Hne Hfail fileName g w2 w3 entryTrace.
  assert (Hentry : reencryptEntry sys cfg entry g1 w1 =
                   ((NextEntry, g), w3, entryTrace)).
  { rewrite (reencryptEntry_mismatch _ _ _ Hne).
    rewrite (reencryptFile_failed sys cfg _ _ Hfail). reflexivity. }
  split; [exact Hentry|].
  split.
  { unfold entryTrace, loadEvents.
    destruct (path entry =? currentDir_path)%string; reflexivity. }
  split.
  { intros X obs Hi Hd. unfold w3, w2. now rewrite Hd, Hi. }
  split.
  - exact (walkAt_next sys cfg _ _ _ _ _ _ _ _ _ _ _ Hat Hentry).
  - exact (reencryptPath_continues sys cfg _ _ _ _ _ _ _ _ _ _ _
             Hat Hentry).
Qed.

(** C5 (missing declaration).  When the walk arrives at an entry it finds
    mismatched, the decryption succeeds and the declared recipients resolved
    anew for the entry are none, [reencryptPath] ends there: its last
    event is the error signal, the entry's iteration contains no
    encryption, staging or commit, no later position of the walk exists,
    and neither the push nor the end-of-walk signal follows. *)
Theorem missing_declaration_aborts_the_walk
        (dir : string) (w : W) (i : nat) (entry : FileInfo)
        (post : list FileInfo) (g1 : list string) (w1 : W)
        (t : list Event) :
  walkAt sys cfg dir w i = Some (entry, post, g1, w1, t) ->
  actualKeysOf sys cfg (filePath entry) w1 <>
  declaredInEffect sys entry g1 w1 ->
  decryptFailed
    (decryptedText sys cfg (filePath entry)
                   (fst (inspect sys cfg (filePath entry) w1))) = false ->
  sysRecipients sys
    (fst (decrypt sys cfg (filePath entry)
                  (fst (inspect sys cfg (filePath entry) w1))))
    (filePath entry) = [] ->
  let fileName := filePath entry in
  let w2 := fst (inspect sys cfg fileName w1) in
  let w3 := fst (decrypt sys cfg fileName w2) in
  let plain := decryptedText sys cfg fileName w2 in
  let entryTrace :=
    loadEvents entry ++
    [inspectEvent cfg fileName; LastDecrypt couldNotDecrypt;
     decryptEvent cfg fileName; LastDecrypt plain;
     LastDecrypt (terminated plain); GetRecipientList fileName;
     Critical "Can not edit" msgCannotEdit] in
  reencryptPath sys cfg dir w = (tt, w3, t ++ entryTrace) /\
  forallb (fun e => negb (spawnsProcess e) || isBlocking e &&
                    negb (isEncrypt e) && negb (isCommit e)) entryTrace
  = true /\
  (forall j, i < j -> walkAt sys cfg dir w j = None) /\
  last (traceOf (reencryptPath sys cfg dir w)) EndReencryptPath =
  Critical "Can not edit" msgCannotEdit.
Proof.
  intros Hat Hne Hok Hnone fileName w2 w3 plain entryTrace.
  assert (Hentry : reencryptEntry sys cfg entry g1 w1 =
                   ((Returned, declaredInEffect sys entry g1 w1), w3,
                    entryTrace)).
  { rewrite (reencryptEntry_mismatch _ _ _ Hne).
    rewrite (reencryptFile_undeclared sys cfg _ _ Hok Hnone).
    reflexivity. }
  pose proof (reencryptPath_returns sys cfg _ _ _ _ _ _ _ _ _ _ _
                Hat Hentry) as Hpath.
  split; [exact Hpath|].
  split.
  { unfold entryTrace, loadEvents.
    destruct (path entry =? currentDir_path)%string; reflexivity. }
  split.
  - exact (walkAt_after_return sys cfg _ _ _ _ _ _ _ _ _ _ _ Hat Hentry).
  - rewrite Hpath. unfold traceOf. cbn [snd].
    unfold entryTrace. rewrite app_assoc.
    rewrite last_app_nonempty by discriminate. reflexivity.
Qed.

(** Drift correction as the walk sees it: what an iteration does with an
    entry whose sorted actual recipients differ from the sorted declared set
    the walk holds for it, when the decryption succeeds and recipients are
    declared.  The entry is staged and committed exactly when version
    control is active and not superseded by WebDAV. *)
Lemma reencryptEntry_drifted
        (dir : string) (w : W) (i : nat) (entry : FileInfo)
        (post : list FileInfo) (g1 : list string) (w1 : W)
        (t : list Event) :
  walkAt sys cfg dir w i = Some (entry, post, g1, w1, t) ->
  actualKeysOf sys cfg (filePath entry) w1 <>
  declaredInEffect sys entry g1 w1 ->
  decryptFailed
    (decryptedText sys cfg (filePath entry)
                   (fst (inspect sys cfg (filePath entry) w1))) = false ->
  sysRecipients sys
    (fst (decrypt sys cfg (filePath entry)
                  (fst (inspect sys cfg (filePath entry) w1))))
    (filePath entry) <> [] ->
  let fileName := filePath entry in
  let g := declaredInEffect sys entry g1 w1 in
  let w2 := fst (inspect sys cfg fileName w1) in
  let plain := terminated (decryptedText sys cfg fileName w2) in
  let recipients :=
    sysRecipients sys (fst (decrypt sys cfg fileName w2)) fileName in
  let commits := vcsActive cfg && negb (useWebDav cfg) in
  let w5 :=
    if commits then worldAfterCommit sys cfg fileName w2
    else worldAfterEncrypt sys cfg fileName w2 in
  let entryTrace :=
    loadEvents entry ++
    [inspectEvent cfg fileName; LastDecrypt couldNotDecrypt;
     decryptEvent cfg fileName;
     LastDecrypt (decryptedText sys cfg fileName w2);
     LastDecrypt plain; GetRecipientList fileName;
     encryptEvent cfg fileName recipients plain] ++
    (if commits
     then [stageEvent cfg fileName; editCommitEvent sys cfg fileName]
     else []) in
  reencryptEntry sys cfg entry g1 w1 = ((NextEntry, g), w5, entryTrace) /\
  filter isDecrypt entryTrace = [decryptEvent cfg fileName] /\
  filter isEncrypt entryTrace = [encryptEvent cfg fileName recipients plain]
  /\
  encryptEvent cfg fileName recipients plain =
  ExecuteBlocking (gpgExecutable cfg)
    (["--yes"; "--batch"; "-eq"; "--output"; fileName] ++
     flat_map (fun r => ["-r"; r]) recipients ++ ["-"])
    plain /\
  filter isStage entryTrace =
  (if commits then [stageEvent cfg fileName] else []) /\
  filter isCommit entryTrace =
  (if commits then [editCommitEvent sys cfg fileName] else []) /\
  commitMessage (editCommitEvent sys cfg fileName) =
  Some ("Edit for " +++ entryName sys cfg fileName +++ " using QtPass.") /\
  (forall encryptedFor : W -> string -> list string,
      (forall v rs input,
          encryptedFor
            (fst (sysExec sys v (gpgExecutable cfg)
                          (encryptArgs fileName rs) input)) fileName = rs) ->
      (forall v args,
          hd EmptyString args = "add" \/ hd EmptyString args = "commit" ->
          encryptedFor
            (fst (sysExec sys v (gitExecutable cfg) args EmptyString))
            fileName = encryptedFor v fileName) ->
      encryptedFor w5 fileName = recipients) /\
  reencryptPath sys cfg dir w =
  (let '(x, w6, t6) := reencryptLoop sys cfg post g w5 in
   (tt, w6, t ++ entryTrace ++ t6 ++ epilogue cfg x)) /\
  (NoDup (map filePath
              (sysGpgFiles sys (worldOf (prologue sys cfg dir w)) dir)) ->
   commitsFor fileName (traceOf (reencryptPath sys cfg dir w)) =
   (if commits then [editCommitEvent sys cfg fileName] else [])).
Proof.
  intros Hat Hne Hok Hrec fileName g w2 plain recipients commits w5
         entryTrace.
  assert (Hc : vcsCommits cfg = commits).
  { unfold vcsCommits, commits, vcsActive. apply andb_comm. }
  assert (Hentry : reencryptEntry sys cfg entry g1 w1 =
                   ((NextEntry, g), w5, entryTrace)).
  { rewrite (reencryptEntry_mismatch _ _ _ Hne).
    rewrite (reencryptFile_done sys cfg _ _ Hok Hrec), Hc.
    reflexivity. }
  split; [exact Hentry|].
  assert (Hload : forall p : Event -> bool,
             (forall f, p (GetRecipientList f) = false) ->
             filter p (loadEvents entry) = []).
  { intros p Hp. unfold loadEvents.
    destruct (path entry =? currentDir_path)%string; [reflexivity|].
    cbn [filter]. now rewrite Hp. }
  split.
  { unfold entryTrace. rewrite filter_app, Hload by reflexivity.
    destruct commits; reflexivity. }
  split.
  { unfold entryTrace. rewrite filter_app, Hload by reflexivity.
    destruct commits; reflexivity. }
  split; [reflexivity|].
  split.
  { unfold entryTrace. rewrite filter_app, Hload by reflexivity.
    destruct commits; reflexivity. }
  split.
  { unfold entryTrace. rewrite filter_app, Hload by reflexivity.
    destruct commits; reflexivity. }
  split; [reflexivity|].
  split.
  { intros encryptedFor Henc Hgit.
    unfold w5, worldAfterCommit.
    destruct commits.
    - rewrite !Hgit by (cbn [hd]; auto).
      unfold worldAfterEncrypt. apply Henc.
    - unfold worldAfterEncrypt. apply Henc. }
  pose proof (reencryptPath_continues sys cfg _ _ _ _ _ _ _ _ _ _ _
                Hat Hentry) as Hpath.
  split; [exact Hpath|].
  intro Hnd.
  destruct (commits_only_in_own_iteration sys cfg _ _ _ _ _ _ _ _ Hat Hnd)
    as [Hbefore Hafter].
  rewrite Hpath. specialize (Hafter g w5).
  destruct (reencryptLoop sys cfg post g w5) as [[x w6] t6].
  unfold traceOf in *. cbn [snd] in *.
  unfold entryTrace, fileName.
  rewrite !commitsFor_app, Hbefore, Hafter, epilogue_commits.
  rewrite loadEvents_commits.
  unfold commitsFor.
  destruct commits; cbn; [now rewrite String.eqb_refl | reflexivity].
Qed.

Lemma declaredInEffect_resolved (entry : FileInfo) (gpgId : list string)
      (w : W) :
  path entry <> currentDir_path ->
  declaredInEffect sys entry gpgId w =
  Qt.sort (sysRecipients sys w (filePath entry)) /\
  loadEvents entry = [GetRecipientList (filePath entry)].
Proof.
  intro H. apply String.eqb_neq in H.
  unfold declaredInEffect, loadEvents. now rewrite H.
Qed.

(** C1 (drift correction), amended.  When the walk arrives at an entry, in a
    directory other than the literal ["."], whose sorted actual recipients
    differ from its sorted declared recipients, the decryption yields a
    usable plaintext and recipients are declared for the entry when they
    are resolved again, then, whatever the version control settings, the
    iteration is: resolution, inspection, one decryption, one encryption of
    the newline-terminated plaintext to the same file with one [-r]
    argument per re-resolved recipient, and then, exactly when version
    control is active and not superseded by WebDAV, the staging of the
    file and one commit whose message is
    ["Edit for <store-relative path without .gpg> using QtPass."]; with
    version control inactive or WebDAV in use nothing is staged or
    committed.  Provided the encryption tool leaves the file encrypted for
    the recipients it is given and staging and committing do not
    re-encrypt it, the entry ends up encrypted for exactly the re-resolved
    recipients.  The walk then goes on with the remaining entries, and
    over a listing without repeated files the commit is the only one the
    whole walk makes for the entry. *)
Theorem drifted_entry_is_reencrypted_and_committed
        (dir : string) (w : W) (i : nat) (entry : FileInfo)
        (post : list FileInfo) (g1 : list string) (w1 : W)
        (t : list Event) :
  walkAt sys cfg dir w i = Some (entry, post, g1, w1, t) ->
  path entry <> currentDir_path ->
  actualKeysOf sys cfg (filePath entry) w1 <>
  Qt.sort (sysRecipients sys w1 (filePath entry)) ->
  decryptFailed
    (decryptedText sys cfg (filePath entry)
                   (fst (inspect sys cfg (filePath entry) w1))) = false ->
  sysRecipients sys
    (fst (decrypt sys cfg (filePath entry)
                  (fst (inspect sys cfg (filePath entry) w1))))
    (filePath entry) <> [] ->
  let fileName := filePath entry in
  let g := Qt.sort (sysRecipients sys w1 fileName) in
  let w2 := fst (inspect sys cfg fileName w1) in
  let plain := terminated (decryptedText sys cfg fileName w2) in
  let recipients :=
    sysRecipients sys (fst (decrypt sys cfg fileName w2)) fileName in
  let commits := vcsActive cfg && negb (useWebDav cfg) in
  let w5 :=
    if commits then worldAfterCommit sys cfg fileName w2
    else worldAfterEncrypt sys cfg fileName w2 in
  let entryTrace :=
    [GetRecipientList fileName] ++
    [inspectEvent cfg fileName; LastDecrypt couldNotDecrypt;
     decryptEvent cfg fileName;
     LastDecrypt (decryptedText sys cfg fileName w2);
     LastDecrypt plain; GetRecipientList fileName;
     encryptEvent cfg fileName recipients plain] ++
    (if commits
     then [stageEvent cfg fileName; editCommitEvent sys cfg fileName]
     else []) in
  reencryptEntry sys cfg entry g1 w1 = ((NextEntry, g), w5, entryTrace) /\
  filter isDecrypt entryTrace = [decryptEvent cfg fileName] /\
  filter isEncrypt entryTrace = [encryptEvent cfg fileName recipients plain]
  /\
  encryptEvent cfg fileName recipients plain =
  ExecuteBlocking (gpgExecutable cfg)
    (["--yes"; "--batch"; "-eq"; "--output"; fileName] ++
     flat_map (fun r => ["-r"; r]) recipients ++ ["-"])
    plain /\
  filter isStage entryTrace =
  (if commits then [stageEvent cfg fileName] else []) /\
  filter isCommit entryTrace =
  (if commits then [editCommitEvent sys cfg fileName] else []) /\
  commitMessage (editCommitEvent sys cfg fileName) =
  Some ("Edit for " +++ entryName sys cfg fileName +++ " using QtPass.") /\
  (forall encryptedFor : W -> string -> list string,
      (forall v rs input,
          encryptedFor
            (fst (sysExec sys v (gpgExecutable cfg)
                          (encryptArgs fileName rs) input)) fileName = rs) ->
      (forall v args,
          hd EmptyString args = "add" \/ hd EmptyString args = "commit" ->
          encryptedFor
            (fst (sysExec sys v (gitExecutable cfg) args EmptyString))
            fileName = encryptedFor v fileName) ->
      encryptedFor w5 fileName = recipients) /\
  reencryptPath sys cfg dir w =
  (let '(x, w6, t6) := reencryptLoop sys cfg post g w5 in
   (tt, w6, t ++ entryTrace ++ t6 ++ epilogue cfg x)) /\
  (NoDup (map filePath
              (sysGpgFiles sys (worldOf (prologue sys cfg dir w)) dir)) ->
   commitsFor fileName (traceOf (reencryptPath sys cfg dir w)) =
   (if commits then [editCommitEvent sys cfg fileName] else [])).
Proof.
  intros Hat Hdir Hne Hok Hrec.
  destruct (declaredInEffect_resolved entry g1 w1 Hdir) as [Hg Hload].
  rewrite <- Hg in Hne.
  pose proof (reencryptEntry_drifted dir w i entry post g1 w1 t
                Hat Hne Hok Hrec) as H.
  cbv zeta in H. rewrite Hg, Hload in H. exact H.
Qed.

End WalkClaims.

(** ** The recipient inspector *)

(** C3 (recipient-parsing rule), amended.  The scan cuts each line of the
    concatenated standard output and standard error at every single space
    character, keeping empty pieces.  A line contributes an identifier
    exactly when it has more than four such pieces and piece number 4 is 16
    characters long, and then it contributes exactly that piece; every other
    line contributes nothing.  The identifiers collected, duplicates
    included, are returned in ascending order. *)
Theorem recipient_parsing_rule (keys err : string) :
  let lines := Qt.split LF (keys +++ err) in
  (forall acc line, scanLine acc line = acc ++ keyOfLine line) /\
  (forall line k,
      keyOfLine line = [k] <->
      4 < List.length (Qt.split SPACE line) /\
      nth 4 (Qt.split SPACE line) EmptyString = k /\
      String.length k = 16) /\
  (forall line,
      keyOfLine line = [] <->
      ~ (4 < List.length (Qt.split SPACE line) /\
         String.length (nth 4 (Qt.split SPACE line) EmptyString) = 16)) /\
  (forall line, List.length (Qt.split SPACE line) <= 4 ->
                keyOfLine line = []) /\
  parseActualKeys keys err = Qt.sort (flat_map keyOfLine lines) /\
  Permutation (flat_map keyOfLine lines) (parseActualKeys keys err) /\
  Sorted leS (parseActualKeys keys err).
Proof.
  intro lines.
  split; [exact scanLine_keyOfLine|].
  split; [exact keyOfLine_spec|].
  split; [exact keyOfLine_none|].
  split.
  { intros line H. apply keyOfLine_none. intros [H' _]. lia. }
  assert (E : parseActualKeys keys err = Qt.sort (flat_map keyOfLine lines)).
  { unfold parseActualKeys. cbv zeta. now rewrite scanLines_flat_map. }
  split; [exact E|].
  rewrite E. split; [apply sort_perm | apply sort_sorted].
Qed.

(** The output of the encryption tool for a file with two recipients. *)
Example parse_two_recipients :
  parseActualKeys
    EmptyString
    ("gpg: public key is BBBBBBBBBBBBBBBB" +++ nl +++
     "gpg: public key is AAAAAAAAAAAAAAAA" +++ nl +++
     "gpg: encrypted with 2048-bit RSA key, ID BBBBBBBBBBBBBBBB" +++ nl)
  = ["AAAAAAAAAAAAAAAA"; "BBBBBBBBBBBBBBBB"].
Proof. reflexivity. Qed.

(** A line that ends in a carriage return has five whitespace-separated
    fields, the fifth 16 characters long, yet the scan finds a piece of 17
    characters and collects nothing. *)
Lemma carriage_return_line_not_collected :
  let line := "gpg: public key is 0123456789ABCDEF" +++ String CR EmptyString in
  wsFields line = ["gpg:"; "public"; "key"; "is"; "0123456789ABCDEF"] /\
  keyOfLine_ws line = ["0123456789ABCDEF"] /\
  scanLine [] line = [] /\
  ~ scanFollowsWhitespaceFields.
Proof.
  cbv zeta. repeat split.
  intro H.
  specialize (H [] ("gpg: public key is 0123456789ABCDEF"
                      +++ String CR EmptyString)).
  discriminate H.
Qed.

(** A tab is not a separator for the scan. *)
Example tab_separated_line_not_collected :
  let line := "gpg: public key is" +++ String TAB "0123456789ABCDEF" in
  scanLine [] line = [] /\
  keyOfLine_ws line = ["0123456789ABCDEF"].
Proof. split; reflexivity. Qed.

(** Two spaces in a row make an empty piece: the scan then collects a token
    that is only the fourth whitespace-separated field. *)
Example doubled_space_shifts_the_pieces :
  let line := "gpg: key  0123456789ABCDEF 0123456789ABCDEF" in
  scanLine [] line = ["0123456789ABCDEF"] /\
  List.length (wsFields line) = 4.
Proof. split; reflexivity. Qed.

(** ** Blocking and asynchronous commands in the walk *)

Section WalkCommands.

Context {W : Type}.
Variable sys : System W.
Variable cfg : Settings.

Lemma reencryptFile_not_async (fileName : string) (w : W) :
  forallb notAsync (traceOf (reencryptFile sys cfg fileName w)) = true.
Proof.
  destruct (decryptFailed (decryptedText sys cfg fileName w)) eqn:Ef.
  - now rewrite (reencryptFile_failed sys cfg _ _ Ef).
  - destruct (sysRecipients sys (fst (decrypt sys cfg fileName w)) fileName)
      as [|r rs] eqn:Er.
    + now rewrite (reencryptFile_undeclared sys cfg _ _ Ef Er).
    + rewrite (reencryptFile_done sys cfg fileName w Ef)
        by (rewrite Er; discriminate).
      destruct (vcsCommits cfg); reflexivity.
Qed.

Lemma reencryptEntry_not_async (entry : FileInfo) (gpgId : list string)
      (w : W) :
  forallb notAsync (traceOf (reencryptEntry sys cfg entry gpgId w)) = true.
Proof.
  rewrite reencryptEntry_unfold. cbv zeta.
  assert (Hl : forallb notAsync (loadEvents entry) = true).
  { unfold loadEvents.
    destruct (path entry =? currentDir_path)%string; reflexivity. }
  destruct (Qt.listEq _ _).
  - unfold traceOf. cbn [snd]. rewrite forallb_app, Hl. reflexivity.
  - pose proof (reencryptFile_not_async (filePath entry)
                  (fst (inspect sys cfg (filePath entry) w))) as Hf.
    destruct (reencryptFile sys cfg _ _) as [[x w2] t].
    unfold traceOf in *. cbn [snd] in *.
    rewrite forallb_app, Hl. cbn [forallb]. exact Hf.
Qed.

Lemma reencryptLoop_not_async (gpgFiles : list FileInfo) :
  forall (gpgId : list string) (w : W),
    forallb notAsync (traceOf (reencryptLoop sys cfg gpgFiles gpgId w))
    = true.
Proof.
  induction gpgFiles as [|entry rest IH]; intros gpgId w; [reflexivity|].
  cbn [reencryptLoop]. unfold bind at 1.
  pose proof (reencryptEntry_not_async entry gpgId w) as He.
  destruct (reencryptEntry sys cfg entry gpgId w) as [[[x g] w1] t1].
  cbn [fst snd]. unfold traceOf in He. cbn [snd] in He.
  destruct x.
  - specialize (IH g w1).
    destruct (reencryptLoop sys cfg rest g w1) as [[x w2] t2].
    unfold traceOf in *. cbn [snd] in *.
    now rewrite forallb_app, He, IH.
  - unfold ret, traceOf. cbn [snd]. now rewrite app_nil_r.
Qed.

Lemma prologue_not_async (dir : string) (w : W) :
  forallb notAsync (traceOf (prologue sys cfg dir w)) = true.
Proof.
  unfold prologue, GitPull_b, bind, emit, ret, executeBlocking.
  destruct (autoPull cfg); [|reflexivity].
  destruct (sysExec sys w _ _ _). reflexivity.
Qed.

Lemma awaited_commands (t : list Event) :
  forallb notAsync t = true ->
  filter spawnsProcess t = filter isBlocking t /\ filter isAsync t = [].
Proof.
  induction t as [|e t IH]; [split; reflexivity|].
  cbn [forallb filter]. intro H. apply andb_prop in H. destruct H as [He Ht].
  destruct (IH Ht) as [IH1 IH2].
  unfold spawnsProcess, notAsync in *.
  apply negb_true_iff in He. rewrite He, IH1, IH2. cbn [orb].
  split; reflexivity.
Qed.

(** C7 (blocking primitive), amended.  The events of [reencryptPath] are
    those of its prologue (with the optional pull), then those of the loop
    over the listed entries (every entry's inspection, decryption,
    encryption, staging and commit), then what the exit of that very loop
    selects.  Every command of the prologue and the loop is awaited: none
    is dispatched asynchronously.  When the loop ran to its end and
    push-after-operate is enabled, the push follows, dispatched
    asynchronously with job identifier [GIT_PUSH], and then the end
    signal; it comes after every blocking command and is the only
    asynchronous command of the walk.  When the loop was aborted or
    push-after-operate is disabled, the walk dispatches no asynchronous
    command at all. *)
Theorem walk_blocks_except_for_the_push (dir : string) (w : W) :
  let w0 := worldOf (prologue sys cfg dir w) in
  let loop := reencryptLoop sys cfg (sysGpgFiles sys w0 dir) [] w0 in
  let body := traceOf (prologue sys cfg dir w) ++ traceOf loop in
  let push :=
    Execute GIT_PUSH (passStore cfg) (gitExecutable cfg) ["push"]
            EmptyString in
  let pushed :=
    match resultOf loop with
    | NextEntry => autoPush cfg
    | Returned => false
    end in
  let walk := traceOf (reencryptPath sys cfg dir w) in
  walk =
  body ++
  (if pushed then [StatusMsg "Updating password-store" 2000; push] else [])
  ++
  match resultOf loop with
  | NextEntry => [EndReencryptPath]
  | Returned => []
  end /\
  forallb notAsync body = true /\
  filter spawnsProcess body = filter isBlocking body /\
  filter isBlocking walk = filter isBlocking body /\
  filter isAsync walk = (if pushed then [push] else []).
Proof.
  cbv zeta.
  rewrite reencryptPath_unfold.
  pose proof (prologue_not_async dir w) as Hp.
  destruct (prologue sys cfg dir w) as [[u w0] t0].
  unfold worldOf. cbn [fst snd].
  pose proof (reencryptLoop_not_async (sysGpgFiles sys w0 dir) [] w0) as Hl.
  destruct (reencryptLoop sys cfg _ [] w0) as [[x w3] t3].
  unfold traceOf, resultOf in *. cbn [fst snd] in *.
  assert (Hb : forallb notAsync (t0 ++ t3) = true)
    by now rewrite forallb_app, Hp, Hl.
  destruct (awaited_commands _ Hb) as [Hs Ha].
  rewrite app_assoc.
  split.
  { unfold epilogue, epilogueEvents.
    destruct x; [destruct (autoPush cfg)|]; reflexivity. }
  split; [exact Hb|]. split; [exact Hs|].
  rewrite (filter_app isBlocking (t0 ++ t3)).
  rewrite (filter_app isAsync (t0 ++ t3)), Ha.
  unfold epilogue, epilogueEvents.
  destruct x; [destruct (autoPush cfg)|]; cbn [filter isBlocking isAsync app];
    rewrite ?app_nil_r; split; reflexivity.
Qed.

(** ** The directory test of the walk *)

(** Whether an iteration resolves the declared set depends on the
    entry's own directory alone: it does so exactly
    when that directory is not the literal ["."], whatever the directory
    of the entry visited before, and the value carried over from earlier
    iterations is used exactly in the other case. *)
Theorem reload_ignores_the_previous_directory
        (entry : FileInfo) (gpgId : list string) (w : W) :
  exists rest,
    traceOf (reencryptEntry sys cfg entry gpgId w) =
    loadEvents entry ++ inspectEvent cfg (filePath entry) :: rest /\
    loadEvents entry =
    (if String.eqb (path entry) "." then []
     else [GetRecipientList (filePath entry)]) /\
    snd (resultOf (reencryptEntry sys cfg entry gpgId w)) =
    (if String.eqb (path entry) "." then gpgId
     else Qt.sort (sysRecipients sys w (filePath entry))).
Proof.
  rewrite reencryptEntry_unfold. cbv zeta.
  destruct (Qt.listEq _ _).
  - exists []. repeat split.
  - destruct (reencryptFile sys cfg _ _) as [[x w2] t].
    exists t. repeat split.
Qed.

End WalkCommands.

(** C6, on a store whose two entries share the directory [/store/a] and are
    both converged: the specification asks for a resolution at the first
    entry only, the walk resolves at both. *)
Example same_directory_is_resolved_twice :
  let cfg := Toy.settings false false false false in
  let entries := sysGpgFiles Toy.system Toy.converged "/store/" in
  entries = [mkFileInfo "/store/a/x.gpg" "/store/a";
             mkFileInfo "/store/a/y.gpg" "/store/a"] /\
  reloadsAsSpecified None entries = [true; false] /\
  reloadsInTrace
    (traceOf (reencryptPath Toy.system cfg "/store/" Toy.converged))
  = [true; true] /\
  filter isResolve
    (traceOf (reencryptPath Toy.system cfg "/store/" Toy.converged))
  = [GetRecipientList "/store/a/x.gpg"; GetRecipientList "/store/a/y.gpg"].
Proof. cbv zeta. repeat split. Qed.

(** C7 as worded fails once push-after-operate is enabled: the push is
    dispatched with a job identifier and not awaited. *)
Lemma push_is_dispatched_asynchronously :
  let cfg := Toy.settings true false false true in
  traceOf (reencryptPath Toy.system cfg "/store/" Toy.empty) =
  [StatusMsg "Re-encrypting from folder /store/" 3000;
   StartReencryptPath;
   StatusMsg "Updating password-store" 2000;
   Execute GIT_PUSH "/store/" "git" ["push"] EmptyString;
   EndReencryptPath] /\
  ~ walkNeverAsync Toy.system cfg.
Proof.
  cbv zeta. split; [reflexivity|].
  intro H. specialize (H "/store/" Toy.empty). discriminate H.
Qed.

(** ** Entry mutations *)

Section Mutations.

Context {W : Type}.
Variable sys : System W.
Variable cfg : Settings.

(** C8 (create without recipients).  When no recipient is declared for
    the ciphertext path of the new entry, [Insert] only resolves the
    recipients and emits the error signal: no command is dispatched or
    run, and the world is the one it started in. *)
Theorem insert_without_recipients_does_nothing
        (file newValue : string) (overwrite : bool) (w : W) :
  sysRecipients sys w (passStore cfg +++ file +++ ".gpg") = [] ->
  Insert sys cfg file newValue overwrite w =
  (tt, w,
   [GetRecipientList (passStore cfg +++ file +++ ".gpg");
    Critical "Can not edit" msgCannotEdit]) /\
  filter spawnsProcess
         (traceOf (Insert sys cfg file newValue overwrite w)) = [] /\
  worldOf (Insert sys cfg file newValue overwrite w) = w.
Proof.
  intro H.
  assert (E : Insert sys cfg file newValue overwrite w =
              (tt, w,
               [GetRecipientList (passStore cfg +++ file +++ ".gpg");
                Critical "Can not edit" msgCannotEdit])).
  { unfold Insert, bind, getRecipientList. rewrite H. reflexivity. }
  rewrite E. repeat split.
Qed.

(** What [Insert] does when recipients are declared. *)
Lemma insert_with_recipients
      (file newValue : string) (overwrite : bool) (w : W) :
  sysRecipients sys w (passStore cfg +++ file +++ ".gpg") <> [] ->
  let full := passStore cfg +++ file +++ ".gpg" in
  let recipients := sysRecipients sys w full in
  let args :=
    ["--batch"; "-eq"; "--output"; full] ++
    flat_map (fun r => ["-r"; r]) recipients ++
    (if overwrite then ["--yes"] else []) ++ ["-"] in
  let msg :=
    (if overwrite then "Edit" else String DQUOTE "Add") +++ " for " +++
    entryName sys cfg full +++ " using QtPass." in
  Insert sys cfg file newValue overwrite w =
  (tt, w,
   [GetRecipientList full;
    Execute PASS_INSERT (passStore cfg) (gpgExecutable cfg) args newValue]
   ++
   (if vcsCommits cfg then
      (if overwrite then []
       else [Execute GIT_ADD (passStore cfg) (gitExecutable cfg)
                     ["add"; full] EmptyString]) ++
      [Execute GIT_COMMIT (passStore cfg) (gitExecutable cfg)
               ["commit"; "-m"; msg; "--"; full] EmptyString]
    else [])).
Proof.
  intros H full recipients args msg.
  unfold Insert, bind, getRecipientList, executeWrapper, GitCommit, emit,
    ret, vcsCommits.
  fold full. fold recipients.
  destruct recipients as [|r rs] eqn:Er; [contradiction|].
  cbn [Qt.isEmptyList]. rewrite appendRecipients_flat_map.
  unfold args, msg, entryName. fold full.
  destruct overwrite; destruct (negb (useWebDav cfg) && useGit cfg);
    cbn [negb app]; rewrite <- ?app_assoc; cbn [app].
  all: reflexivity.
Qed.

(** What [Remove] does: through version control the commit message is
    built from the full path of the file, store prefix and ciphertext
    suffix included. *)
Lemma remove_trace (file : string) (isDir : bool) (w : W) :
  let full := passStore cfg +++ file +++
              (if isDir then EmptyString else ".gpg") in
  traceOf (Remove sys cfg file isDir w) =
  if useGit cfg then
    [Execute GIT_RM (passStore cfg) (gitExecutable cfg)
             ["rm"; (if isDir then "-rf" else "-f"); full] EmptyString;
     Execute GIT_COMMIT (passStore cfg) (gitExecutable cfg)
             ["commit"; "-m"; "Remove for " +++ full +++ " using QtPass.";
              "--"; full] EmptyString]
  else if isDir then [DirRemovedRecursively full]
  else [FileRemoved full].
Proof.
  cbv zeta. unfold Remove, executeWrapper, GitCommit, bind, emit, traceOf.
  destruct isDir; cbn [negb]; rewrite ?append_assoc, ?append_empty_r;
    destruct (useGit cfg); reflexivity.
Qed.

End Mutations.

(** C9 (commit message templates).  Deleting the entry [notes] from the
    store [/store/] through version control commits with a message that
    carries the full path [/store/notes.gpg], not the store-relative,
    suffix-stripped [notes] that the creation, overwrite and re-encryption
    messages carry. *)
Theorem remove_commit_message_carries_full_path :
  let cfg := Toy.settings true false false false in
  map commitMessage
      (filter isCommit
              (traceOf (Remove Toy.system cfg "notes" false Toy.empty)))
  = [Some "Remove for /store/notes.gpg using QtPass."] /\
  "Remove for /store/notes.gpg using QtPass." <>
  "Remove for notes using QtPass." /\
  map commitMessage
      (filter isCommit
              (traceOf (Remove Toy.system cfg "notes" true Toy.empty)))
  = [Some "Remove for /store/notes using QtPass."] /\
  map commitMessage
      (filter isCommit
              (traceOf (Insert Toy.system cfg "notes" "secret" false
                               Toy.drifted)))
  = [Some (String DQUOTE "Add for notes using QtPass.")] /\
  map commitMessage
      (filter isCommit
              (traceOf (Insert Toy.system cfg "notes" "secret" true
                               Toy.drifted)))
  = [Some "Edit for notes using QtPass."] /\
  map commitMessage
      (filter isCommit
              (traceOf (reencryptPath Toy.system cfg "/store/" Toy.drifted)))
  = [Some "Edit for secrets/db using QtPass."].
Proof. cbv zeta. repeat split. discriminate. Qed.

(** ** Store initialisation *)

Section Initialisation.

Context {W : Type}.
Variable sys : System W.
Variable cfg : Settings.

Lemma writeUsers_spec (gpgIdFile : string) (users : list UserInfo) :
  forall (secret_selected : bool) (w : W),
    writeUsers sys gpgIdFile users secret_selected w =
    (secret_selected || secretSelected users,
     writeLines sys gpgIdFile (declarationLines users) w,
     map (FileWritten gpgIdFile) (declarationLines users)).
Proof.
  unfold secretSelected, writeLines, declarationLines.
  induction users as [|u users IH]; intros s w.
  - cbn. now rewrite orb_false_r.
  - cbn [writeUsers filter existsb].
    destruct (enabled u).
    + unfold bind. rewrite IH. cbn [map fold_left andb app].
      now rewrite orb_assoc.
    + rewrite IH. reflexivity.
Qed.

Lemma writeLines_content (content : W -> string -> option string)
      (file : string) :
  (forall v data old,
      content v file = Some old ->
      content (sysWrite sys v file data) file = Some (old +++ data)) ->
  forall (lines : list string) (w : W) (old : string),
    content w file = Some old ->
    content (writeLines sys file lines w) file =
    Some (fold_left String.append lines old).
Proof.
  intros Hw. unfold writeLines.
  induction lines as [|l lines IH]; intros w old H; [exact H|].
  cbn [fold_left]. apply IH. now apply Hw.
Qed.

(** C10 (initialisation without a secret key), amended.  When the
    declaration file can be opened for writing and no enabled user has a
    secret key, [Init] opens the file, writes the identifier of every
    enabled user, one per line, and then emits the error signal and
    returns: no command is dispatched or run, and the world is the one
    the writes left.  If opening yields an empty file and writing
    appends, the file holds exactly those lines. *)
Theorem init_without_secret_key_leaves_the_declaration
        (path : string) (users : list UserInfo) (w w' : W) :
  sysOpenWrite sys w (path +++ ".gpg-id") = Some w' ->
  secretSelected users = false ->
  let gpgIdFile := path +++ ".gpg-id" in
  let lines := declarationLines users in
  let wFinal := writeLines sys gpgIdFile lines w' in
  Init sys cfg path users w =
  (tt, wFinal,
   FileOpenedForWriting gpgIdFile :: map (FileWritten gpgIdFile) lines ++
   [Critical "Check selected users!" msgNoSecret]) /\
  filter spawnsProcess (traceOf (Init sys cfg path users w)) = [] /\
  (forall content : W -> string -> option string,
      (forall v v' file,
          sysOpenWrite sys v file = Some v' ->
          content v' file = Some EmptyString) ->
      (forall v data old,
          content v gpgIdFile = Some old ->
          content (sysWrite sys v gpgIdFile data) gpgIdFile =
          Some (old +++ data)) ->
      content wFinal gpgIdFile = Some (concatLines lines)).
Proof.
  intros Hopen Hsecret gpgIdFile lines wFinal.
  assert (E : Init sys cfg path users w =
              (tt, wFinal,
               FileOpenedForWriting gpgIdFile ::
               map (FileWritten gpgIdFile) lines ++
               [Critical "Check selected users!" msgNoSecret])).
  { unfold Init, bind. cbv beta. rewrite Hopen.
    cbn [negb]. rewrite writeUsers_spec, Hsecret. reflexivity. }
  split; [exact E|].
  split.
  { rewrite E. unfold traceOf. cbn [snd filter spawnsProcess isAsync
                                      isBlocking orb].
    rewrite filter_app. cbn.
    rewrite app_nil_r. clear. generalize lines. clear.
    intro ls. induction ls as [|l ls IH]; [reflexivity | exact IH]. }
  intros content Ho Hw.
  unfold wFinal, concatLines.
  apply (writeLines_content content gpgIdFile Hw).
  exact (Ho _ _ _ Hopen).
Qed.

(** When the file cannot be opened, nothing is written and the error is
    another one. *)
Lemma init_unwritable (path : string) (users : list UserInfo) (w : W) :
  sysOpenWrite sys w (path +++ ".gpg-id") = None ->
  Init sys cfg path users w =
  (tt, w,
   [Critical "Cannot update" "Failed to open .gpg-id for writing."]).
Proof.
  intro H. unfold Init, bind. cbv beta. rewrite H. reflexivity.
Qed.

End Initialisation.

(** C10 as worded fails when the declaration file cannot be opened: nothing
    is written and the error reported is the one about opening. *)
Lemma unwritable_declaration_is_not_written :
  let cfg := Toy.settings true false false false in
  let users := [mkUserInfo Toy.KEYA true false] in
  secretSelected users = false /\
  Init Toy.system cfg "/store/" users Toy.readOnly =
  (tt, Toy.readOnly,
   [Critical "Cannot update" "Failed to open .gpg-id for writing."]) /\
  ~ initWritesThenReportsNoSecret Toy.system cfg.
Proof.
  cbv zeta. split; [reflexivity|]. split; [reflexivity|].
  intro H.
  specialize (H "/store/" [mkUserInfo Toy.KEYA true false] Toy.readOnly
                eq_refl).
  discriminate H.
Qed.

(** * The operations on concrete stores *)

(** ** Facts about the toy tools *)

Lemma toy_lookup_update {A} (k : string) (v : A) (l : list (string * A)) :
  Toy.lookup k (Toy.update k v l) = Some v.
Proof.
  induction l as [|[k' v'] l IH]; cbn.
  - now rewrite String.eqb_refl.
  - destruct (String.eqb k k') eqn:E; cbn.
    + now rewrite String.eqb_refl.
    + now rewrite E.
Qed.

Lemma toy_recipientArgs (rs : list string) :
  Toy.recipientArgs (flat_map (fun r => ["-r"; r]) rs ++ ["-"]) = rs.
Proof.
  induction rs as [|r rs IH]; [reflexivity|].
  cbn [flat_map app]. cbn. now rewrite IH.
Qed.

(** The toy tool encrypts for the recipients it is given. *)
Lemma toy_encrypt_sets_recipients (v : Toy.World) (f : string)
      (rs : list string) (input : string) :
  Toy.recipientsOfBlob
    (fst (Toy.exec v "gpg" (encryptArgs f rs) input)) f = rs.
Proof.
  unfold Toy.exec, encryptArgs. cbn.
  unfold Toy.recipientsOfBlob. cbn [Toy.blobs].
  rewrite toy_lookup_update. cbn [Toy.encryptedFor].
  apply toy_recipientArgs.
Qed.

(** The toy version-control tool leaves the world as it is. *)
Lemma toy_git_leaves_world (v : Toy.World) (args : list string)
      (input : string) :
  fst (Toy.exec v "git" args input) = v.
Proof. reflexivity. Qed.

(** Inspection and decryption leave the toy world as it is. *)
Lemma toy_inspect_leaves_world (cfg : Settings) (v : Toy.World)
      (f : string) :
  fst (inspect Toy.system cfg f v) = v.
Proof.
  unfold inspect, Toy.system, sysExec, Toy.exec.
  destruct (String.eqb (gpgExecutable cfg) "gpg"); [|reflexivity].
  cbn. destruct (Toy.lookup _ _); reflexivity.
Qed.

Lemma toy_decrypt_leaves_world (cfg : Settings) (v : Toy.World)
      (f : string) :
  fst (decrypt Toy.system cfg f v) = v.
Proof.
  unfold decrypt, Toy.system, sysExec, Toy.exec.
  destruct (String.eqb (gpgExecutable cfg) "gpg"); [|reflexivity].
  cbn. destruct (Toy.lookup _ _) as [b|]; [|reflexivity].
  destruct (Toy.decryptable b); reflexivity.
Qed.

(** ** The scenario of the specification: [secrets/db] drifted *)

Lemma drifted_store_is_corrected :
  let cfg := Toy.settings true false false false in
  let run := reencryptPath Toy.system cfg "/store/" Toy.drifted in
  vcsCommits cfg = true /\
  traceOf run =
  [StatusMsg "Re-encrypting from folder /store/" 3000;
   StartReencryptPath;
   GetRecipientList "/store/secrets/db.gpg";
   ExecuteBlocking "gpg"
     ["-v"; "--no-secmem-warning"; "--no-permission-warning"; "--list-only";
      "--keyid-format=long"; "/store/secrets/db.gpg"] EmptyString;
   LastDecrypt "Could not decrypt";
   ExecuteBlocking "gpg"
     ["-d"; "--quiet"; "--yes"; "--no-encrypt-to"; "--batch"; "--use-agent";
      "/store/secrets/db.gpg"] EmptyString;
   LastDecrypt "hunter2";
   LastDecrypt ("hunter2" +++ nl);
   GetRecipientList "/store/secrets/db.gpg";
   ExecuteBlocking "gpg"
     ["--yes"; "--batch"; "-eq"; "--output"; "/store/secrets/db.gpg";
      "-r"; "BBBBBBBBBBBBBBBB"; "-"] ("hunter2" +++ nl);
   ExecuteBlocking "git" ["add"; "/store/secrets/db.gpg"] EmptyString;
   ExecuteBlocking "git"
     ["commit"; "/store/secrets/db.gpg"; "-m";
      "Edit for secrets/db using QtPass."] EmptyString;
   EndReencryptPath] /\
  Toy.recipientsOfBlob (worldOf run) "/store/secrets/db.gpg" = [Toy.KEYB] /\
  commitsFor "/store/secrets/db.gpg" (traceOf run) =
  [editCommitEvent Toy.system cfg "/store/secrets/db.gpg"].
Proof.
  cbv zeta.
  set (cfg := Toy.settings true false false false).
  set (entry := mkFileInfo "/store/secrets/db.gpg" "/store/secrets").
  assert (Hat : walkAt Toy.system cfg "/store/" Toy.drifted 0 =
                Some (entry, [], [], Toy.drifted,
                      [StatusMsg "Re-encrypting from folder /store/" 3000;
                       StartReencryptPath])) by reflexivity.
  assert (Hdir : path entry <> currentDir_path)
    by (vm_compute; discriminate).
  assert (Hne : actualKeysOf Toy.system cfg (filePath entry) Toy.drifted <>
                Qt.sort (sysRecipients Toy.system Toy.drifted
                                       (filePath entry)))
    by (vm_compute; discriminate).
  assert (Hrec : sysRecipients Toy.system
                   (fst (decrypt Toy.system cfg (filePath entry)
                           (fst (inspect Toy.system cfg (filePath entry)
                                         Toy.drifted))))
                   (filePath entry) <> [])
    by (vm_compute; discriminate).
  destruct (drifted_entry_is_reencrypted_and_committed
              Toy.system cfg "/store/" Toy.drifted 0 entry [] []
              Toy.drifted _ Hat Hdir Hne eq_refl Hrec)
    as (_ & _ & _ & _ & _ & _ & _ & Henc & Hpath & Hcount).
  split; [reflexivity|].
  split; [rewrite Hpath; reflexivity|].
  split.
  - rewrite Hpath. cbn [worldOf fst snd reencryptLoop ret].
    exact (Henc Toy.recipientsOfBlob
                (fun v rs input => toy_encrypt_sets_recipients v _ rs input)
                (fun v args _ => eq_refl)).
  - apply Hcount. vm_compute. constructor; [intros []|constructor].
Defined.

(** With WebDAV in use next to version control, the drifted entry is
    re-encrypted and nothing is committed: C1 as worded fails. *)
Lemma drift_under_webdav_is_not_committed :
  let cfg := Toy.settings true true false false in
  vcsActive cfg = true /\
  filter isEncrypt
    (traceOf (reencryptPath Toy.system cfg "/store/" Toy.drifted)) =
  [ExecuteBlocking "gpg"
     ["--yes"; "--batch"; "-eq"; "--output"; "/store/secrets/db.gpg";
      "-r"; "BBBBBBBBBBBBBBBB"; "-"] ("hunter2" +++ nl)] /\
  filter isCommit
    (traceOf (reencryptPath Toy.system cfg "/store/" Toy.drifted)) = [] /\
  ~ driftCommitsWhenVcsActive Toy.system cfg.
Proof.
  cbv zeta. split; [reflexivity|]. split; [reflexivity|].
  split; [reflexivity|].
  intro H.
  specialize (H "/store/" Toy.drifted 0
                (mkFileInfo "/store/secrets/db.gpg" "/store/secrets")
                [] [] Toy.drifted _ eq_refl).
  cbv zeta in H.
  assert (E : filter isCommit
                (traceOf
                   (reencryptEntry Toy.system
                      (Toy.settings true true false false)
                      (mkFileInfo "/store/secrets/db.gpg" "/store/secrets")
                      [] Toy.drifted)) = []) by reflexivity.
  rewrite E in H.
  assert (H' : @nil Event = [editCommitEvent Toy.system
                               (Toy.settings true true false false)
                               "/store/secrets/db.gpg"]).
  { apply H; [vm_compute; discriminate | reflexivity
              | vm_compute; discriminate | reflexivity]. }
  discriminate H'.
Qed.

(** ** A converged store *)

Lemma converged_store_is_left_alone :
  let cfg := Toy.settings true false false false in
  let run := reencryptPath Toy.system cfg "/store/" Toy.converged in
  actualKeysOf Toy.system cfg "/store/a/x.gpg" Toy.converged = [Toy.KEYA] /\
  traceOf run =
  [StatusMsg "Re-encrypting from folder /store/" 3000;
   StartReencryptPath;
   GetRecipientList "/store/a/x.gpg";
   inspectEvent cfg "/store/a/x.gpg";
   GetRecipientList "/store/a/y.gpg";
   inspectEvent cfg "/store/a/y.gpg";
   EndReencryptPath] /\
  worldOf run = Toy.converged.
Proof.
  cbv zeta.
  set (cfg := Toy.settings true false false false).
  set (entry := mkFileInfo "/store/a/x.gpg" "/store/a").
  set (next := mkFileInfo "/store/a/y.gpg" "/store/a").
  assert (Hat : walkAt Toy.system cfg "/store/" Toy.converged 0 =
                Some (entry, [next], [], Toy.converged,
                      [StatusMsg "Re-encrypting from folder /store/" 3000;
                       StartReencryptPath])) by reflexivity.
  destruct (converged_entry_is_left_alone
              Toy.system cfg "/store/" Toy.converged 0 entry [next] []
              Toy.converged _ Hat eq_refl)
    as (_ & _ & _ & Hpath & Hall).
  split; [reflexivity|].
  split; [rewrite Hpath; reflexivity|].
  destruct (Hall eq_refl) as (w3 & t3 & Hrun & _ & Hobs).
  rewrite Hrun. unfold worldOf. cbn [fst snd].
  exact (Hobs Toy.World (fun v => v)
              (fun v f => toy_inspect_leaves_world cfg v f)).
Defined.

(** ** A store with an entry the operator cannot decrypt *)

Lemma sealed_entry_is_skipped_and_the_rest_processed :
  let cfg := Toy.settings true false false false in
  let run := reencryptPath Toy.system cfg "/store/" Toy.partlySealed in
  decryptedText Toy.system cfg "/store/a.gpg" Toy.partlySealed
  = EmptyString /\
  (exists g w t,
      walkAt Toy.system cfg "/store/" Toy.partlySealed 1 =
      Some (mkFileInfo "/store/b.gpg" "/store",
            [mkFileInfo "/store/c.gpg" "/store"], g, w, t) /\
      Toy.recipientsOfBlob w "/store/a.gpg" = [Toy.KEYA]) /\
  map (fun f => Toy.recipientsOfBlob (worldOf run) f)
      ["/store/a.gpg"; "/store/b.gpg"; "/store/c.gpg"] =
  [[Toy.KEYA]; [Toy.KEYB]; [Toy.KEYB]] /\
  filter isEncrypt (traceOf run) =
  [encryptEvent cfg "/store/b.gpg" [Toy.KEYB] ("beta" +++ nl);
   encryptEvent cfg "/store/c.gpg" [Toy.KEYB] ("gamma" +++ nl)].
Proof.
  cbv zeta.
  set (cfg := Toy.settings true false false false).
  set (entry := mkFileInfo "/store/a.gpg" "/store").
  set (post := [mkFileInfo "/store/b.gpg" "/store";
                mkFileInfo "/store/c.gpg" "/store"]).
  assert (Hat : walkAt Toy.system cfg "/store/" Toy.partlySealed 0 =
                Some (entry, post, [], Toy.partlySealed,
                      [StatusMsg "Re-encrypting from folder /store/" 3000;
                       StartReencryptPath])) by reflexivity.
  assert (Hne : actualKeysOf Toy.system cfg (filePath entry)
                             Toy.partlySealed <>
                declaredInEffect Toy.system entry [] Toy.partlySealed)
    by (vm_compute; discriminate).
  destruct (decrypt_failure_skips_only_that_entry
              Toy.system cfg "/store/" Toy.partlySealed 0 entry post []
              Toy.partlySealed _ Hat Hne eq_refl)
    as (_ & _ & _ & Hnext & Hpath).
  split; [reflexivity|].
  split.
  { eexists _, _, _. split; [exact Hnext | reflexivity]. }
  rewrite Hpath. split; reflexivity.
Defined.

(** ** A store without any declaration *)

Lemma undeclared_store_aborts_at_the_first_entry :
  let cfg := Toy.settings true false false true in
  let run := reencryptPath Toy.system cfg "/store/" Toy.undeclared in
  traceOf run =
  [StatusMsg "Re-encrypting from folder /store/" 3000;
   StartReencryptPath;
   GetRecipientList "/store/a.gpg";
   inspectEvent cfg "/store/a.gpg";
   LastDecrypt "Could not decrypt";
   decryptEvent cfg "/store/a.gpg";
   LastDecrypt "alpha";
   LastDecrypt ("alpha" +++ nl);
   GetRecipientList "/store/a.gpg";
   Critical "Can not edit" msgCannotEdit] /\
  worldOf run = Toy.undeclared /\
  walkAt Toy.system cfg "/store/" Toy.undeclared 1 = None.
Proof.
  cbv zeta.
  set (cfg := Toy.settings true false false true).
  set (entry := mkFileInfo "/store/a.gpg" "/store").
  set (post := [mkFileInfo "/store/b.gpg" "/store"]).
  assert (Hat : walkAt Toy.system cfg "/store/" Toy.undeclared 0 =
                Some (entry, post, [], Toy.undeclared,
                      [StatusMsg "Re-encrypting from folder /store/" 3000;
                       StartReencryptPath])) by reflexivity.
  assert (Hne : actualKeysOf Toy.system cfg (filePath entry)
                             Toy.undeclared <>
                declaredInEffect Toy.system entry [] Toy.undeclared)
    by (vm_compute; discriminate).
  destruct (missing_declaration_aborts_the_walk
              Toy.system cfg "/store/" Toy.undeclared 0 entry post []
              Toy.undeclared _ Hat Hne eq_refl eq_refl)
    as (Hpath & _ & Hlater & _).
  rewrite Hpath. split; [reflexivity|]. split; [reflexivity|].
  apply Hlater. lia.
Defined.

(** ** Creating an entry where nothing is declared *)

Lemma create_in_undeclared_store :
  let cfg := Toy.settings true false false false in
  sysRecipients Toy.system Toy.undeclared "/store/x.gpg" = [] /\
  Insert Toy.system cfg "x" "secret" false Toy.undeclared =
  (tt, Toy.undeclared,
   [GetRecipientList "/store/x.gpg";
    Critical "Can not edit" msgCannotEdit]).
Proof.
  cbv zeta. split; [reflexivity|].
  exact (proj1 (insert_without_recipients_does_nothing
                  Toy.system (Toy.settings true false false false)
                  "x" "secret" false Toy.undeclared eq_refl)).
Defined.

(** ** Initialising a store for users without a secret key *)

Lemma init_for_users_without_secret_key :
  let cfg := Toy.settings true false false false in
  let users := [mkUserInfo Toy.KEYA true false;
                mkUserInfo Toy.KEYB false true;
                mkUserInfo "CCCCCCCCCCCCCCCC" true false] in
  let run := Init Toy.system cfg "/store/" users Toy.empty in
  secretSelected users = false /\
  traceOf run =
  [FileOpenedForWriting "/store/.gpg-id";
   FileWritten "/store/.gpg-id" (Toy.KEYA +++ nl);
   FileWritten "/store/.gpg-id" ("CCCCCCCCCCCCCCCC" +++ nl);
   Critical "Check selected users!" msgNoSecret] /\
  Toy.content (worldOf run) "/store/.gpg-id" =
  Some (Toy.KEYA +++ nl +++ "CCCCCCCCCCCCCCCC" +++ nl).
Proof.
  cbv zeta.
  set (cfg := Toy.settings true false false false).
  set (users := [mkUserInfo Toy.KEYA true false;
                 mkUserInfo Toy.KEYB false true;
                 mkUserInfo "CCCCCCCCCCCCCCCC" true false]).
  destruct (init_without_secret_key_leaves_the_declaration
              Toy.system cfg "/store/" users Toy.empty
              (Toy.mkWorld [] [("/store/.gpg-id", EmptyString)] [])
              eq_refl eq_refl)
    as (Hrun & _ & _).
  rewrite Hrun. repeat split.
Defined.

(** ** A converged store walked from the working directory *)

(** C2 (convergence idempotence).  The store under ["."] holds one entry,
    [./a.gpg], encrypted for exactly the recipient its declaration lists.
    The walk started on ["."] makes no resolution for it, compares its
    actual recipients with the empty list, and decrypts, re-encrypts and
    commits it; the ciphertext changes, since the plaintext gains a line
    terminator. *)
Example converged_entry_in_working_directory_is_reencrypted :
  let cfg := Toy.relativeSettings in
  let run := reencryptPath Toy.system cfg "." Toy.relative in
  sysGpgFiles Toy.system Toy.relative "." = [mkFileInfo "./a.gpg" "."] /\
  actualKeysOf Toy.system cfg "./a.gpg" Toy.relative =
  Qt.sort (sysRecipients Toy.system Toy.relative "./a.gpg") /\
  declaredInEffect Toy.system (mkFileInfo "./a.gpg" ".") [] Toy.relative
  = [] /\
  traceOf run =
  [StatusMsg "Re-encrypting from folder ." 3000;
   StartReencryptPath;
   inspectEvent cfg "./a.gpg";
   LastDecrypt "Could not decrypt";
   decryptEvent cfg "./a.gpg";
   LastDecrypt "alpha";
   LastDecrypt ("alpha" +++ nl);
   GetRecipientList "./a.gpg";
   encryptEvent cfg "./a.gpg" [Toy.KEYA] ("alpha" +++ nl);
   ExecuteBlocking "git" ["add"; "./a.gpg"] EmptyString;
   ExecuteBlocking "git"
     ["commit"; "./a.gpg"; "-m"; "Edit for a using QtPass."] EmptyString;
   EndReencryptPath] /\
  forallb leavesEntriesAlone (traceOf run) = false /\
  Toy.lookup "./a.gpg" (Toy.blobs Toy.relative) =
  Some (Toy.mkBlob [Toy.KEYA] "alpha" true) /\
  Toy.lookup "./a.gpg" (Toy.blobs (worldOf run)) =
  Some (Toy.mkBlob [Toy.KEYA] ("alpha" +++ nl) true).
Proof. cbv zeta. repeat split. Qed.

(** * Further properties *)

(** ** Suffixes and prefixes *)

Lemma substring_skip (a b : string) (n : nat) :
  substring (String.length a) n (a +++ b) = substring 0 n b.
Proof. induction a as [|x a IH]; [reflexivity | exact IH]. Qed.

Lemma substring_whole (b : string) : substring 0 (String.length b) b = b.
Proof. induction b as [|x b IH]; [reflexivity|]. cbn. now rewrite IH. Qed.

Lemma right_append (a b : string) :
  Qt.right (String.length b) (a +++ b) = b.
Proof.
  unfold Qt.right. rewrite length_append, Nat.add_sub.
  now rewrite substring_skip, substring_whole.
Qed.

Lemma left_append (a b : string) :
  Qt.left (String.length a) (a +++ b) = a.
Proof.
  unfold Qt.left. induction a as [|x a IH]; cbn.
  - now destruct b.
  - now rewrite IH.
Qed.

(** Stripping undoes the appending of the ciphertext suffix. *)
Lemma removeGpgSuffix_gpg (s : string) : Qt.removeGpgSuffix (s +++ ".gpg") = s.
Proof.
  unfold Qt.removeGpgSuffix.
  change (Qt.right 4 (s +++ ".gpg"))
    with (Qt.right (String.length ".gpg") (s +++ ".gpg")).
  rewrite right_append, String.eqb_refl, length_append.
  cbn [String.length]. rewrite Nat.add_sub. apply left_append.
Qed.

(** The name of a declaration file does not end in the ciphertext suffix. *)
Lemma removeGpgSuffix_gpg_id (s : string) :
  Qt.removeGpgSuffix (s +++ ".gpg-id") = s +++ ".gpg-id".
Proof.
  unfold Qt.removeGpgSuffix.
  replace (s +++ ".gpg-id") with ((s +++ ".gp") +++ "g-id")
    by (now rewrite append_assoc).
  change (Qt.right 4 ((s +++ ".gp") +++ "g-id"))
    with (Qt.right (String.length "g-id") ((s +++ ".gp") +++ "g-id")).
  now rewrite right_append.
Qed.

(** ** The order of [QStringList::sort] *)

Lemma ascii_compare_refl (a : ascii) : Ascii.compare a a = Eq.
Proof. unfold Ascii.compare. apply BinNat.N.compare_refl. Qed.

Lemma ascii_compare_lt_trans (a b c : ascii) :
  Ascii.compare a b = Lt -> Ascii.compare b c = Lt -> Ascii.compare a c = Lt.
Proof.
  unfold Ascii.compare. rewrite !BinNat.N.compare_lt_iff.
  apply BinNat.N.lt_trans.
Qed.

Lemma string_compare_lt_trans (a : string) :
  forall b c,
    String.compare a b = Lt -> String.compare b c = Lt ->
    String.compare a c = Lt.
Proof.
  induction a as [|x a IH]; intros [|y b] [|z c]; cbn; try congruence.
  destruct (Ascii.compare x y) eqn:Exy; try discriminate;
    destruct (Ascii.compare y z) eqn:Eyz; try discriminate; intros H1 H2.
  - apply Ascii.compare_eq_iff in Exy, Eyz. subst.
    rewrite ascii_compare_refl. now apply (IH b c).
  - apply Ascii.compare_eq_iff in Exy. subst. now rewrite Eyz.
  - apply Ascii.compare_eq_iff in Eyz. subst. now rewrite Exy.
  - now rewrite (ascii_compare_lt_trans _ _ _ Exy Eyz).
Qed.

Lemma leb_trans (a b c : string) : leS a b -> leS b c -> leS a c.
Proof.
  unfold leS, String.leb.
  destruct (String.compare a b) eqn:Eab; try discriminate;
    destruct (String.compare b c) eqn:Ebc; try discriminate; intros _ _.
  - apply String.compare_eq_iff in Eab, Ebc. subst.
    destruct (String.compare c c) eqn:E; try reflexivity.
    pose proof (String.compare_antisym c c) as H. rewrite E in H.
    cbn in H. discriminate H.
  - apply String.compare_eq_iff in Eab. subst. now rewrite Ebc.
  - apply String.compare_eq_iff in Ebc. subst. now rewrite Eab.
  - now rewrite (string_compare_lt_trans _ _ _ Eab Ebc).
Qed.

Lemma leb_false_le (a b : string) : String.leb a b = false -> leS b a.
Proof.
  intro H. destruct (String.leb_total a b) as [H'|H']; [congruence|exact H'].
Qed.

(** Insertions commute, so the sorted list does not depend on the order in
    which its elements arrive. *)
Lemma insertSorted_comm (x y : string) (l : list string) :
  Qt.insertSorted x (Qt.insertSorted y l) =
  Qt.insertSorted y (Qt.insertSorted x l).
Proof.
  induction l as [|z l IH]; cbn.
  - destruct (String.leb x y) eqn:Exy, (String.leb y x) eqn:Eyx;
      try reflexivity.
    + now rewrite (String.leb_antisym _ _ Exy Eyx).
    + apply leb_false_le in Exy. unfold leS in Exy. congruence.
  - destruct (String.leb y z) eqn:Eyz, (String.leb x z) eqn:Exz; cbn.
    + rewrite Eyz, Exz.
      destruct (String.leb x y) eqn:Exy, (String.leb y x) eqn:Eyx;
        try reflexivity.
      * now rewrite (String.leb_antisym _ _ Exy Eyx).
      * apply leb_false_le in Exy. unfold leS in Exy. congruence.
    + rewrite Eyz, Exz.
      destruct (String.leb x y) eqn:Exy; [|reflexivity].
      pose proof (leb_trans _ _ _ Exy Eyz) as H. unfold leS in H. congruence.
    + rewrite Eyz, Exz.
      destruct (String.leb y x) eqn:Eyx; [|reflexivity].
      pose proof (leb_trans _ _ _ Eyx Exz) as H. unfold leS in H. congruence.
    + rewrite Eyz, Exz. now rewrite IH.
Qed.

Lemma sort_of_permutation (a b : list string) :
  Permutation a b -> Qt.sort a = Qt.sort b.
Proof.
  induction 1 as [| x l l' _ IH | x y l | l l' l'' _ IH1 _ IH2]; cbn.
  - reflexivity.
  - now rewrite IH.
  - apply insertSorted_comm.
  - now rewrite IH1.
Qed.

Lemma insertSorted_head (x y : string) (l : list string) :
  leS x y -> Qt.insertSorted x (y :: l) = x :: y :: l.
Proof. intro H. cbn. unfold leS in H. now rewrite H. Qed.

Lemma sort_of_sorted (l : list string) : Sorted leS l -> Qt.sort l = l.
Proof.
  induction 1 as [|x l Hs IH Hhd]; [reflexivity|].
  cbn. rewrite IH. destruct Hhd as [|y l' Hxy]; [reflexivity|].
  now apply insertSorted_head.
Qed.

(** ** The drift check *)

Section DriftCheck.

Context {W : Type}.
Variable sys : System W.
Variable cfg : Settings.

(** The comparison of actual and declared recipients does not depend on
    the order in which either side lists them: when the identifiers
    collected from the inspection output are a rearrangement of the
    declared ones, the entry is found converged and only inspected. *)
Theorem rearranged_recipients_are_converged
        (entry : FileInfo) (gpgId : list string) (w : W) :
  path entry <> currentDir_path ->
  (let r := snd (inspect sys cfg (filePath entry) w) in
   Permutation
     (scanLines (Qt.split LF (outOr EmptyString r +++ errOr EmptyString r))
                [])
     (sysRecipients sys w (filePath entry))) ->
  reencryptEntry sys cfg entry gpgId w =
  ((NextEntry, Qt.sort (sysRecipients sys w (filePath entry))),
   fst (inspect sys cfg (filePath entry) w),
   [GetRecipientList (filePath entry);
    inspectEvent cfg (filePath entry)]).
Proof.
  intros Hdir Hperm. cbv zeta in Hperm.
  destruct (declaredInEffect_resolved sys entry gpgId w Hdir) as [Hg Hl].
  assert (Heq : actualKeysOf sys cfg (filePath entry) w =
                declaredInEffect sys entry gpgId w).
  { rewrite Hg. unfold actualKeysOf, parseActualKeys. cbv zeta.
    now apply sort_of_permutation. }
  rewrite (reencryptEntry_converged sys cfg _ _ _ Heq), Hg, Hl.
  reflexivity.
Qed.

End DriftCheck.

Lemma shuffled_declaration_is_converged :
  let cfg := Toy.settings true false false false in
  let entry := mkFileInfo "/store/a.gpg" "/store" in
  sysRecipients Toy.system Fixtures.shuffled "/store/a.gpg" =
  [Toy.KEYB; Toy.KEYA] /\
  reencryptEntry Toy.system cfg entry [] Fixtures.shuffled =
  ((NextEntry, [Toy.KEYA; Toy.KEYB]), Fixtures.shuffled,
   [GetRecipientList "/store/a.gpg"; inspectEvent cfg "/store/a.gpg"]).
Proof.
  cbv zeta. split; [reflexivity|].
  refine (rearranged_recipients_are_converged
            Toy.system (Toy.settings true false false false)
            (mkFileInfo "/store/a.gpg" "/store") [] Fixtures.shuffled
            _ _).
  - vm_compute. discriminate.
  - vm_compute. apply perm_swap.
Defined.

(** ** What the inspector collects *)

Lemma split_pieces_clean (sep : ascii) (s : string) :
  forall p, In p (Qt.split sep s) -> contains sep p = false.
Proof.
  induction s as [|c s IH]; intros p Hp; cbn in Hp.
  - destruct Hp as [<-|[]]. reflexivity.
  - destruct (Ascii.eqb c sep) eqn:Ec.
    + destruct Hp as [<-|Hp]; [reflexivity | now apply IH].
    + destruct (Qt.split sep s) as [|piece pieces].
      * destruct Hp as [<-|[]]. cbn. now rewrite Ec.
      * destruct Hp as [<-|Hp].
        -- cbn. rewrite Ec. apply IH. now left.
        -- apply IH. now right.
Qed.

Lemma split_pieces_within (sep c : ascii) (s : string) :
  forall p, In p (Qt.split sep s) -> contains c p = true ->
            contains c s = true.
Proof.
  induction s as [|x s IH]; intros p Hp Hc; cbn in Hp.
  - destruct Hp as [<-|[]]. discriminate.
  - cbn. destruct (Ascii.eqb x sep).
    + destruct Hp as [<-|Hp]; [discriminate|].
      rewrite (IH _ Hp Hc). apply orb_true_r.
    + destruct (Qt.split sep s) as [|piece pieces].
      * destruct Hp as [<-|[]]. cbn in Hc. rewrite orb_false_r in Hc.
        now rewrite Hc.
      * destruct Hp as [<-|Hp].
        -- cbn in Hc. apply orb_true_iff in Hc. destruct Hc as [->|Hc].
           ++ reflexivity.
           ++ rewrite (IH piece (or_introl eq_refl) Hc). apply orb_true_r.
        -- rewrite (IH p (or_intror Hp) Hc). apply orb_true_r.
Qed.

Lemma keyOfLine_In (line k : string) :
  In k (keyOfLine line) ->
  String.length k = 16 /\ In k (Qt.split SPACE line).
Proof.
  unfold keyOfLine.
  destruct (nth_error (Qt.split SPACE line) 4) as [field|] eqn:E; [|intros []].
  destruct (String.length field =? 16) eqn:E16; [|intros []].
  intros [<-|[]]. split.
  - now apply Nat.eqb_eq.
  - eapply nth_error_In. exact E.
Qed.

(** Every identifier the inspector returns is 16 characters long and holds
    neither a space nor a line feed, whatever the tool printed. *)
Theorem collected_identifiers_are_clean (keys err k : string) :
  In k (parseActualKeys keys err) ->
  String.length k = 16 /\
  contains SPACE k = false /\
  contains LF k = false.
Proof.
  unfold parseActualKeys. cbv zeta. rewrite sort_In, scanLines_flat_map.
  cbn [app]. rewrite in_flat_map. intros (line & Hline & Hk).
  destruct (keyOfLine_In _ _ Hk) as [Hlen Hpiece].
  split; [exact Hlen|]. split.
  - exact (split_pieces_clean _ _ _ Hpiece).
  - destruct (contains LF k) eqn:E; [|reflexivity].
    pose proof (split_pieces_within _ _ _ _ Hpiece E) as H.
    now rewrite (split_pieces_clean _ _ _ Hline) in H.
Qed.

Lemma collected_identifier_example :
  In "0123456789ABCDEF"
     (parseActualKeys EmptyString
        ("gpg: public key is 0123456789ABCDEF" +++ nl)) /\
  String.length "0123456789ABCDEF" = 16.
Proof.
  assert (H : In "0123456789ABCDEF"
                 (parseActualKeys EmptyString
                    ("gpg: public key is 0123456789ABCDEF" +++ nl)))
    by (vm_compute; auto).
  split; [exact H|].
  exact (proj1 (collected_identifiers_are_clean _ _ _ H)).
Defined.

(** ** Inside the re-encryption block *)

Section ReencryptionBlock.

Context {W : Type}.
Variable sys : System W.
Variable cfg : Settings.

(** Whether a decryption counts as failed is decided by the captured text
    alone.  A run that does not exit normally leaves the placeholder and
    fails; a run that exits normally fails exactly when its standard output
    is empty or is the placeholder text itself, whatever its exit code and
    standard error; otherwise the block goes on to resolve the
    recipients. *)
Theorem decryption_is_judged_by_its_text (fileName : string) (w : W) :
  let w2 := fst (decrypt sys cfg fileName w) in
  match snd (decrypt sys cfg fileName w) with
  | NoNormalExit =>
      reencryptFile sys cfg fileName w =
      (NextEntry, w2,
       [LastDecrypt couldNotDecrypt; decryptEvent cfg fileName;
        LastDecrypt couldNotDecrypt])
  | NormalExit code out err =>
      if Qt.isEmpty out || String.eqb out couldNotDecrypt then
        reencryptFile sys cfg fileName w =
        (NextEntry, w2,
         [LastDecrypt couldNotDecrypt; decryptEvent cfg fileName;
          LastDecrypt out])
      else
        exists x w' rest,
          reencryptFile sys cfg fileName w =
          (x, w',
           [LastDecrypt couldNotDecrypt; decryptEvent cfg fileName;
            LastDecrypt out; LastDecrypt (terminated out);
            GetRecipientList fileName] ++ rest)
  end.
Proof.
  cbv zeta.
  destruct (snd (decrypt sys cfg fileName w)) as [code out err|] eqn:Er.
  - destruct (Qt.isEmpty out || String.eqb out couldNotDecrypt) eqn:Ef.
    + assert (H : decryptFailed (decryptedText sys cfg fileName w) = true)
        by (unfold decryptedText, decryptFailed; rewrite Er; exact Ef).
      rewrite (reencryptFile_failed sys cfg _ _ H).
      unfold decryptedText. now rewrite Er.
    + assert (H : decryptFailed (decryptedText sys cfg fileName w) = false)
        by (unfold decryptedText, decryptFailed; rewrite Er; exact Ef).
      destruct (sysRecipients sys (fst (decrypt sys cfg fileName w)) fileName)
        as [|r rs] eqn:Erec.
      * rewrite (reencryptFile_undeclared sys cfg _ _ H Erec).
        unfold decryptedText. rewrite Er. cbn [outOr].
        now eexists _, _, [_].
      * rewrite (reencryptFile_done sys cfg fileName w H)
          by (rewrite Erec; discriminate).
        unfold decryptedText. rewrite Er. cbn [outOr].
        eexists _, _, (_ :: _). cbn [app]. reflexivity.
  - assert (H : decryptFailed (decryptedText sys cfg fileName w) = true)
      by (unfold decryptedText, decryptFailed; rewrite Er; reflexivity).
    rewrite (reencryptFile_failed sys cfg _ _ H).
    unfold decryptedText. now rewrite Er.
Qed.

Lemma terminated_ends_in_newline (text : string) :
  Qt.right 1 (terminated text) = nl.
Proof.
  unfold terminated.
  destruct (String.eqb (Qt.right 1 text) nl) eqn:E.
  - now apply String.eqb_eq.
  - apply (right_append text nl).
Qed.

(** The text handed to the encryption tool always ends in a line feed: it
    is the decrypted text itself when that already ends in one, and the
    decrypted text with one line feed appended otherwise.  It is handed
    over in exactly one encryption command. *)
Theorem reencrypted_text_ends_in_newline (fileName : string) (w : W) :
  decryptFailed (decryptedText sys cfg fileName w) = false ->
  sysRecipients sys (fst (decrypt sys cfg fileName w)) fileName <> [] ->
  let text := decryptedText sys cfg fileName w in
  exists input,
    filter isEncrypt (traceOf (reencryptFile sys cfg fileName w)) =
    [ExecuteBlocking (gpgExecutable cfg)
       (encryptArgs fileName
          (sysRecipients sys (fst (decrypt sys cfg fileName w)) fileName))
       input] /\
    Qt.right 1 input = nl /\
    (Qt.right 1 text = nl -> input = text) /\
    (Qt.right 1 text <> nl -> input = text +++ nl).
Proof.
  intros Hok Hrec text.
  exists (terminated text). split; [|split; [|split]].
  - rewrite (reencryptFile_done sys cfg fileName w Hok Hrec).
    destruct (vcsCommits cfg); reflexivity.
  - apply terminated_ends_in_newline.
  - intro H. unfold terminated. apply String.eqb_eq in H. now rewrite H.
  - intro H. unfold terminated. apply String.eqb_neq in H. now rewrite H.
Qed.

(** Once the decryption gave a usable text and recipients are declared,
    the entry is staged and committed (when version control commits)
    without regard to what the encryption run returned. *)
Theorem commit_does_not_wait_for_encryption (fileName : string) (w : W) :
  decryptFailed (decryptedText sys cfg fileName w) = false ->
  sysRecipients sys (fst (decrypt sys cfg fileName w)) fileName <> [] ->
  vcsCommits cfg = true ->
  forall outcome,
    snd (sysExec sys (fst (decrypt sys cfg fileName w)) (gpgExecutable cfg)
           (encryptArgs fileName
              (sysRecipients sys (fst (decrypt sys cfg fileName w))
                             fileName))
           (terminated (decryptedText sys cfg fileName w))) = outcome ->
    resultOf (reencryptFile sys cfg fileName w) = NextEntry /\
    filter (fun e => isStage e || isCommit e)
           (traceOf (reencryptFile sys cfg fileName w)) =
    [stageEvent cfg fileName; editCommitEvent sys cfg fileName].
Proof.
  intros Hok Hrec Hvcs outcome _.
  rewrite (reencryptFile_done sys cfg fileName w Hok Hrec), Hvcs.
  split; reflexivity.
Qed.

End ReencryptionBlock.

Lemma terminated_secret_is_reencrypted_as_it_is :
  let cfg := Toy.settings true false false false in
  decryptedText Toy.system cfg "/store/a.gpg" Fixtures.terminatedSecret =
  "alpha" +++ nl /\
  filter isEncrypt
    (traceOf (reencryptFile Toy.system cfg "/store/a.gpg"
                            Fixtures.terminatedSecret)) =
  [ExecuteBlocking "gpg" (encryptArgs "/store/a.gpg" [Toy.KEYB])
                   ("alpha" +++ nl)].
Proof.
  cbv zeta. split; [reflexivity|].
  destruct (reencrypted_text_ends_in_newline
              Toy.system (Toy.settings true false false false)
              "/store/a.gpg" Fixtures.terminatedSecret eq_refl
              ltac:(vm_compute; discriminate))
    as (input & Henc & _ & Hsame & _).
  rewrite Henc, (Hsame eq_refl). reflexivity.
Defined.

Lemma failed_encryption_is_committed :
  let cfg := Toy.settings true false false false in
  let run := reencryptFile Fixtures.brokenSystem cfg "/store/secrets/db.gpg"
                           Toy.drifted in
  snd (sysExec Fixtures.brokenSystem Toy.drifted "gpg"
         (encryptArgs "/store/secrets/db.gpg" [Toy.KEYB]) ("hunter2" +++ nl))
  = NoNormalExit /\
  worldOf run = Toy.drifted /\
  filter (fun e => isStage e || isCommit e) (traceOf run) =
  [stageEvent cfg "/store/secrets/db.gpg";
   editCommitEvent Fixtures.brokenSystem cfg "/store/secrets/db.gpg"].
Proof.
  cbv zeta. split; [reflexivity|]. split; [reflexivity|].
  exact (proj2 (commit_does_not_wait_for_encryption
                  Fixtures.brokenSystem (Toy.settings true false false false)
                  "/store/secrets/db.gpg" Toy.drifted eq_refl
                  ltac:(vm_compute; discriminate) eq_refl
                  NoNormalExit eq_refl)).
Defined.

(** ** The shape of a walk *)

Section WalkShape.

Context {W : Type}.
Variable sys : System W.
Variable cfg : Settings.

(** Every iteration is: the resolution (if any), the inspection, and one of
    four continuations. *)
Lemma reencryptEntry_shape (entry : FileInfo) (gpgId : list string)
      (w : W) :
  exists x g w' tail,
    reencryptEntry sys cfg entry gpgId w =
    ((x, g), w', loadEvents entry ++ inspectEvent cfg (filePath entry) :: tail)
    /\ IterationTail sys cfg (filePath entry) x tail.
Proof.
  rewrite reencryptEntry_unfold. cbv zeta.
  destruct (Qt.listEq _ _).
  - eexists _, _, _, []. split; [reflexivity | constructor].
  - set (w1 := fst (inspect sys cfg (filePath entry) w)).
    destruct (decryptFailed (decryptedText sys cfg (filePath entry) w1))
      eqn:Ef.
    + rewrite (reencryptFile_failed sys cfg _ _ Ef).
      eexists _, _, _, _. split; [reflexivity | constructor].
    + destruct (sysRecipients sys (fst (decrypt sys cfg (filePath entry) w1))
                              (filePath entry)) as [|r rs] eqn:Er.
      * rewrite (reencryptFile_undeclared sys cfg _ _ Ef Er).
        eexists _, _, _, _. split; [reflexivity | constructor].
      * rewrite (reencryptFile_done sys cfg (filePath entry) w1 Ef)
          by (rewrite Er; discriminate).
        eexists _, _, _, _. split; [reflexivity | constructor].
Qed.

Lemma loadEvents_filter (p : Event -> bool) (entry : FileInfo) :
  (forall f, p (GetRecipientList f) = false) ->
  filter p (loadEvents entry) = [].
Proof.
  intro Hp. unfold loadEvents.
  destruct (path entry =? currentDir_path)%string; [reflexivity|].
  cbn. now rewrite Hp.
Qed.

(** The loop, one entry at a time. *)
Lemma reencryptLoop_cons (entry : FileInfo) (rest : list FileInfo)
      (gpgId : list string) (w : W) :
  reencryptLoop sys cfg (entry :: rest) gpgId w =
  let '(r, w1, t1) := reencryptEntry sys cfg entry gpgId w in
  match fst r with
  | Returned => (Returned, w1, t1)
  | NextEntry =>
      let '(y, w2, t2) := reencryptLoop sys cfg rest (snd r) w1 in
      (y, w2, t1 ++ t2)
  end.
Proof.
  cbn [reencryptLoop]. unfold bind.
  destruct (reencryptEntry sys cfg entry gpgId w) as [[[x g] w1] t1].
  cbn [fst snd]. destruct x; [reflexivity|].
  unfold ret. now rewrite app_nil_r.
Qed.

(** *** Each entry is inspected once, in the order of the listing *)

Lemma reencryptEntry_inspects_once (entry : FileInfo) (gpgId : list string)
      (w : W) :
  filter isInspect (traceOf (reencryptEntry sys cfg entry gpgId w)) =
  [inspectEvent cfg (filePath entry)].
Proof.
  destruct (reencryptEntry_shape entry gpgId w) as (x & g & w' & tail & E & T).
  rewrite E. unfold traceOf. cbn [snd].
  rewrite filter_app, loadEvents_filter by reflexivity.
  destruct T; try reflexivity.
  destruct (vcsCommits cfg); reflexivity.
Qed.

(** Every entry the loop reaches is inspected exactly once, in the order of
    the listing.  When the loop runs to its end these are all the listed
    entries.  When it returns early, the aborting entry is the first one
    whose iteration returns: every entry before it let the loop go on, the
    events of the loop end with the events of that entry's iteration, and
    the inspections are those of the entries up to and including it, so
    nothing is inspected after the abort. *)
Theorem entries_are_inspected_once_in_order (gpgFiles : list FileInfo) :
  forall (gpgId : list string) (w : W),
  let loop := reencryptLoop sys cfg gpgFiles gpgId w in
  let inspections :=
    map (fun entry => inspectEvent cfg (filePath entry)) in
  match resultOf loop with
  | NextEntry => filter isInspect (traceOf loop) = inspections gpgFiles
  | Returned =>
      exists pre entry post g1 w1 t1,
        gpgFiles = pre ++ entry :: post /\
        walkPrefix sys cfg pre gpgId w = Some (g1, w1, t1) /\
        fst (resultOf (reencryptEntry sys cfg entry g1 w1)) = Returned /\
        traceOf loop =
        t1 ++ traceOf (reencryptEntry sys cfg entry g1 w1) /\
        filter isInspect (traceOf loop) = inspections (pre ++ [entry])
  end.
Proof.
  cbv zeta.
  induction gpgFiles as [|entry rest IH]; intros gpgId w; [reflexivity|].
  rewrite reencryptLoop_cons.
  pose proof (reencryptEntry_inspects_once entry gpgId w) as He.
  destruct (reencryptEntry sys cfg entry gpgId w) as [[[x g] w1] t1] eqn:E.
  unfold traceOf in He. cbn [fst snd] in *.
  destruct x.
  - specialize (IH g w1).
    destruct (reencryptLoop sys cfg rest g w1) as [[y w2] t2].
    unfold traceOf, resultOf in *. cbn [fst snd] in *.
    destruct y.
    + rewrite filter_app, He, IH. reflexivity.
    + destruct IH as (pre & e & post & g1 & w' & t' & Hl & Hp & Hr & Ht & Hi).
      exists (entry :: pre), e, post, g1, w', (t1 ++ t').
      split; [now rewrite Hl|].
      split; [cbn [walkPrefix]; rewrite E; cbn [fst snd]; now rewrite Hp|].
      split; [exact Hr|].
      split; [now rewrite Ht, app_assoc|].
      rewrite filter_app, He, Hi. reflexivity.
  - exists [], entry, rest, gpgId, w, [].
    rewrite E. unfold traceOf, resultOf. cbn [fst snd app map].
    repeat split. exact He.
Qed.

(** *** The signals that bracket a walk *)

Lemma reencryptEntry_signals (entry : FileInfo) (gpgId : list string)
      (w : W) :
  let run := reencryptEntry sys cfg entry gpgId w in
  filter isWalkSignal (traceOf run) = [] /\
  match fst (resultOf run) with
  | NextEntry => filter isCritical (traceOf run) = []
  | Returned =>
      filter isCritical (traceOf run) = [Critical "Can not edit" msgCannotEdit]
      /\ last (traceOf run) StartReencryptPath =
         Critical "Can not edit" msgCannotEdit
  end.
Proof.
  cbv zeta.
  destruct (reencryptEntry_shape entry gpgId w) as (x & g & w' & tail & E & T).
  rewrite E. unfold traceOf, resultOf. cbn [fst snd].
  rewrite !filter_app, !loadEvents_filter by reflexivity.
  destruct T.
  - split; reflexivity.
  - split; reflexivity.
  - split; [reflexivity|]. split; [reflexivity|].
    rewrite last_app_nonempty by discriminate. reflexivity.
  - destruct (vcsCommits cfg); split; reflexivity.
Qed.

Lemma reencryptLoop_signals (gpgFiles : list FileInfo) :
  forall (gpgId : list string) (w : W),
    let run := reencryptLoop sys cfg gpgFiles gpgId w in
    filter isWalkSignal (traceOf run) = [] /\
    match resultOf run with
    | NextEntry => filter isCritical (traceOf run) = []
    | Returned =>
        filter isCritical (traceOf run) =
        [Critical "Can not edit" msgCannotEdit]
        /\ last (traceOf run) StartReencryptPath =
           Critical "Can not edit" msgCannotEdit
    end.
Proof.
  induction gpgFiles as [|entry rest IH]; intros gpgId w; cbv zeta.
  - split; reflexivity.
  - rewrite reencryptLoop_cons.
    pose proof (reencryptEntry_signals entry gpgId w) as He.
    cbv zeta in He.
    destruct (reencryptEntry sys cfg entry gpgId w) as [[[x g] w1] t1].
    unfold traceOf, resultOf in He. cbn [fst snd] in *.
    destruct He as [Hs Hc]. destruct x.
    + specialize (IH g w1). cbv zeta in IH.
      destruct (reencryptLoop sys cfg rest g w1) as [[y w2] t2].
      unfold traceOf, resultOf in *. cbn [fst snd] in *.
      destruct IH as [Hs2 Hc2].
      rewrite !filter_app, Hs, Hs2, Hc. split; [reflexivity|].
      destruct y; [exact Hc2|].
      destruct Hc2 as [Hc2 Hl]. split; [exact Hc2|].
      rewrite last_app_nonempty; [exact Hl|].
      intros ->. discriminate Hc2.
    + unfold traceOf, resultOf. cbn [fst snd]. split; assumption.
Qed.

(** A walk signals its start once, right after the first status message.
    It either runs to its end, signals the end as its last event and never
    signals an error, or it stops on the missing-declaration error, which
    is then its last event, and never signals the end. *)
Theorem walk_ends_with_end_signal_or_error (dir : string) (w : W) :
  let t := traceOf (reencryptPath sys cfg dir w) in
  firstn 2 t =
  [StatusMsg ("Re-encrypting from folder " +++ dir) 3000;
   StartReencryptPath] /\
  ((filter isWalkSignal t = [StartReencryptPath; EndReencryptPath] /\
    filter isCritical t = [] /\
    last t StartReencryptPath = EndReencryptPath) \/
   (filter isWalkSignal t = [StartReencryptPath] /\
    filter isCritical t = [Critical "Can not edit" msgCannotEdit] /\
    last t StartReencryptPath = Critical "Can not edit" msgCannotEdit)).
Proof.
  cbv zeta. rewrite reencryptPath_unfold.
  assert (Hp : exists t0',
             traceOf (prologue sys cfg dir w) =
             StatusMsg ("Re-encrypting from folder " +++ dir) 3000 ::
             StartReencryptPath :: t0' /\
             filter isWalkSignal t0' = [] /\ filter isCritical t0' = []).
  { unfold prologue, GitPull_b, bind, emit, ret, executeBlocking, traceOf.
    destruct (autoPull cfg).
    - destruct (sysExec sys w _ _ _). eexists. repeat split.
    - exists []. repeat split. }
  destruct Hp as (t0' & Hp & Hps & Hpc).
  destruct (prologue sys cfg dir w) as [[u w0] t0].
  unfold traceOf in Hp. cbn [snd] in Hp. subst t0.
  pose proof (reencryptLoop_signals (sysGpgFiles sys w0 dir) [] w0) as Hl.
  cbv zeta in Hl.
  destruct (reencryptLoop sys cfg _ [] w0) as [[x w3] t3].
  unfold traceOf, resultOf in *. cbn [fst snd] in *.
  split; [reflexivity|].
  destruct Hl as [Hs Hc].
  cbn [app filter isWalkSignal isCritical].
  rewrite !filter_app, Hps, Hpc, Hs.
  destruct x.
  - left. rewrite Hc. unfold epilogue, epilogueEvents.
    change (StatusMsg ("Re-encrypting from folder " +++ dir) 3000
              :: StartReencryptPath :: t0' ++ t3 ++
              (if autoPush cfg then _ else _))
      with ([StatusMsg ("Re-encrypting from folder " +++ dir) 3000;
             StartReencryptPath] ++ t0' ++ t3 ++
            (if autoPush cfg
             then [StatusMsg "Updating password-store" 2000;
                   Execute GIT_PUSH (passStore cfg) (gitExecutable cfg)
                           ["push"] EmptyString;
                   EndReencryptPath]
             else [EndReencryptPath])).
    rewrite !app_assoc.
    destruct (autoPush cfg);
      (split; [reflexivity|]; split; [reflexivity|]);
      rewrite last_app_nonempty by discriminate; reflexivity.
  - right. destruct Hc as [Hc Hlast]. rewrite Hc.
    cbn [epilogue]. rewrite !app_nil_r.
    split; [reflexivity|]. split; [reflexivity|].
    change (StatusMsg ("Re-encrypting from folder " +++ dir) 3000
              :: StartReencryptPath :: t0' ++ t3)
      with (([StatusMsg ("Re-encrypting from folder " +++ dir) 3000;
              StartReencryptPath] ++ t0') ++ t3).
    rewrite last_app_nonempty; [exact Hlast|].
    intros ->. discriminate Hc.
Qed.

(** *** The commits of a walk *)

Lemma reencryptEntry_commit (entry : FileInfo) (gpgId : list string)
      (w : W) (e : Event) :
  In e (traceOf (reencryptEntry sys cfg entry gpgId w)) ->
  isCommit e = true ->
  e = editCommitEvent sys cfg (filePath entry) /\ vcsCommits cfg = true.
Proof.
  destruct (reencryptEntry_shape entry gpgId w) as (x & g & w' & tail & E & T).
  rewrite E. unfold traceOf. cbn [snd]. intros Hin Hc.
  apply in_app_or in Hin. destruct Hin as [Hin|Hin].
  - unfold loadEvents in Hin.
    destruct (path entry =? currentDir_path)%string; [destruct Hin|].
    destruct Hin as [<-|[]]. discriminate Hc.
  - destruct Hin as [<-|Hin]; [discriminate Hc|].
    destruct T; cbn [app] in Hin.
    + destruct Hin.
    + repeat (destruct Hin as [<-|Hin]; [discriminate Hc|]). destruct Hin.
    + repeat (destruct Hin as [<-|Hin]; [discriminate Hc|]). destruct Hin.
    + do 6 (destruct Hin as [<-|Hin]; [discriminate Hc|]).
      destruct (vcsCommits cfg); [|destruct Hin].
      destruct Hin as [<-|Hin]; [discriminate Hc|].
      destruct Hin as [<-|[]]. split; reflexivity.
Qed.

Lemma reencryptLoop_commit (gpgFiles : list FileInfo) (e : Event) :
  forall (gpgId : list string) (w : W),
    In e (traceOf (reencryptLoop sys cfg gpgFiles gpgId w)) ->
    isCommit e = true ->
    vcsCommits cfg = true /\
    exists entry,
      In entry gpgFiles /\ e = editCommitEvent sys cfg (filePath entry).
Proof.
  induction gpgFiles as [|entry rest IH]; intros gpgId w Hin Hc.
  - destruct Hin.
  - rewrite reencryptLoop_cons in Hin.
    pose proof (reencryptEntry_commit entry gpgId w e) as He.
    destruct (reencryptEntry sys cfg entry gpgId w) as [[[x g] w1] t1].
    unfold traceOf in He. cbn [fst snd] in *.
    destruct x.
    + specialize (IH g w1).
      destruct (reencryptLoop sys cfg rest g w1) as [[y w2] t2].
      unfold traceOf in *. cbn [snd] in *.
      apply in_app_or in Hin. destruct Hin as [Hin|Hin].
      * destruct (He Hin Hc) as [-> Hv]. split; [exact Hv|].
        exists entry. split; [now left | reflexivity].
      * destruct (IH Hin Hc) as (Hv & en & Hen & ->). split; [exact Hv|].
        exists en. split; [now right | reflexivity].
    + unfold traceOf in Hin. cbn [snd] in Hin.
      destruct (He Hin Hc) as [-> Hv]. split; [exact Hv|].
      exists entry. split; [now left | reflexivity].
Qed.

(** Every commit a walk makes is the "Edit for ..." commit of one of the
    entries listed under the walked directory, and a walk commits only when
    version control is on and WebDAV is off; the pull and the push are not
    commits. *)
Theorem walk_commits_only_edits_of_listed_entries
        (dir : string) (w : W) (e : Event) :
  In e (traceOf (reencryptPath sys cfg dir w)) ->
  isCommit e = true ->
  useGit cfg = true /\ useWebDav cfg = false /\
  exists entry,
    In entry (sysGpgFiles sys (worldOf (prologue sys cfg dir w)) dir) /\
    e = ExecuteBlocking (gitExecutable cfg)
          ["commit"; filePath entry; "-m";
           "Edit for " +++
           Qt.removeGpgSuffix
             (sysRelativeFilePath sys (passStore cfg) (filePath entry)) +++
           " using QtPass."]
          EmptyString.
Proof.
  rewrite reencryptPath_unfold.
  assert (Hp : forall e', In e' (traceOf (prologue sys cfg dir w)) ->
                          isCommit e' = false).
  { unfold prologue, GitPull_b, bind, emit, ret, executeBlocking, traceOf.
    destruct (autoPull cfg).
    - destruct (sysExec sys w _ _ _). cbn.
      intros e' H. repeat (destruct H as [<-|H]; [reflexivity|]). destruct H.
    - cbn. intros e' H.
      repeat (destruct H as [<-|H]; [reflexivity|]). destruct H. }
  destruct (prologue sys cfg dir w) as [[u w0] t0].
  pose proof (reencryptLoop_commit (sysGpgFiles sys w0 dir) e [] w0) as Hl.
  destruct (reencryptLoop sys cfg _ [] w0) as [[x w3] t3].
  unfold traceOf, worldOf in *. cbn [fst snd] in *.
  intros Hin Hc.
  apply in_app_or in Hin. destruct Hin as [Hin|Hin].
  { rewrite (Hp e Hin) in Hc. discriminate. }
  apply in_app_or in Hin. destruct Hin as [Hin|Hin].
  - destruct (Hl Hin Hc) as (Hv & entry & Hen & ->).
    unfold vcsCommits in Hv. apply andb_true_iff in Hv.
    destruct Hv as [Hd Hg]. apply negb_true_iff in Hd.
    split; [exact Hg|]. split; [exact Hd|].
    exists entry. split; [exact Hen | reflexivity].
  - unfold epilogue, epilogueEvents in Hin.
    destruct x; [destruct (autoPush cfg)|]; cbn in Hin;
      repeat (destruct Hin as [<-|Hin]; [discriminate Hc|]); destruct Hin.
Qed.

End WalkShape.

(** ** Initialisation that goes through *)

Section InitialisationSuccess.

Context {W : Type}.
Variable sys : System W.
Variable cfg : Settings.

(** When the declaration file can be opened and an enabled user has a
    secret key, [Init] writes one line per enabled user, in the order of
    the list, queues the staging of the file (only when adding is enabled
    and the file was not there as a regular file before) and the commit
    ["Added <path>.gpg-id using QtPass."] (only when version control is on,
    WebDAV is off and a git executable is configured), and then walks
    [path] starting from the world the writes left.  The commit message
    keeps the [.gpg-id] name, since the suffix that is stripped is
    [.gpg]. *)
Theorem init_writes_commits_and_walks
        (path : string) (users : list UserInfo) (w w' : W) :
  sysOpenWrite sys w (path +++ ".gpg-id") = Some w' ->
  secretSelected users = true ->
  let gpgIdFile := path +++ ".gpg-id" in
  let lines := declarationLines users in
  let addFile :=
    addGPGId cfg &&
    (negb (sysExists sys w gpgIdFile) || negb (sysIsFile sys w gpgIdFile)) in
  let gitEvents :=
    if negb (useWebDav cfg) && useGit cfg &&
       negb (Qt.isEmpty (gitExecutable cfg))
    then
      (if addFile
       then [Execute GIT_ADD (passStore cfg) (gitExecutable cfg)
                     ["add"; gpgIdFile] EmptyString]
       else []) ++
      [Execute GIT_COMMIT (passStore cfg) (gitExecutable cfg)
               ["commit"; "-m"; "Added " +++ gpgIdFile +++ " using QtPass.";
                "--"; gpgIdFile] EmptyString]
    else [] in
  Init sys cfg path users w =
  (let '(_, wFinal, t) :=
     reencryptPath sys cfg path (writeLines sys gpgIdFile lines w') in
   (tt, wFinal,
    FileOpenedForWriting gpgIdFile :: map (FileWritten gpgIdFile) lines ++
    gitEvents ++ t)).
Proof.
  intros Hopen Hsecret. cbv zeta.
  unfold Init, bind. cbv beta. rewrite Hopen. cbn [negb].
  rewrite writeUsers_spec, Hsecret. cbn [orb negb].
  rewrite removeGpgSuffix_gpg_id.
  unfold executeWrapper, GitCommit, executeWrapper, emit, ret.
  destruct (negb (useWebDav cfg) && useGit cfg &&
            negb (Qt.isEmpty (gitExecutable cfg)));
    [destruct (addGPGId cfg); cbn [andb];
     [destruct (negb (sysExists sys w (path +++ ".gpg-id")) ||
                negb (sysIsFile sys w (path +++ ".gpg-id")))|]|];
    cbn [app];
    destruct (reencryptPath sys cfg path _) as [[[] wF] t]; reflexivity.
Qed.

End InitialisationSuccess.

Lemma init_of_an_empty_store :
  let cfg := Toy.settings true false false false in
  let run := Init Toy.system cfg "/store/" Fixtures.users Toy.empty in
  secretSelected Fixtures.users = true /\
  traceOf run =
  [FileOpenedForWriting "/store/.gpg-id";
   FileWritten "/store/.gpg-id" (Toy.KEYA +++ nl);
   FileWritten "/store/.gpg-id" (Toy.KEYB +++ nl);
   Execute GIT_ADD "/store/" "git" ["add"; "/store/.gpg-id"] EmptyString;
   Execute GIT_COMMIT "/store/" "git"
     ["commit"; "-m"; "Added /store/.gpg-id using QtPass."; "--";
      "/store/.gpg-id"] EmptyString;
   StatusMsg "Re-encrypting from folder /store/" 3000;
   StartReencryptPath;
   EndReencryptPath] /\
  Toy.content (worldOf run) "/store/.gpg-id" =
  Some (Toy.KEYA +++ nl +++ Toy.KEYB +++ nl).
Proof.
  cbv zeta. split; [reflexivity|].
  rewrite (init_writes_commits_and_walks
             Toy.system (Toy.settings true false false false)
             "/store/" Fixtures.users Toy.empty
             (Toy.mkWorld [] [("/store/.gpg-id", EmptyString)] [])
             eq_refl eq_refl).
  split; reflexivity.
Defined.

(** When the declaration file cannot be opened for writing, [Init] emits
    the "Cannot update" error and returns: nothing is written, no command
    is queued or run, no walk is started, the world is unchanged. *)
Theorem init_gives_up_when_the_file_cannot_be_opened
        {W : Type} (sys : System W) (cfg : Settings)
        (path : string) (users : list UserInfo) (w : W) :
  sysOpenWrite sys w (path +++ ".gpg-id") = None ->
  Init sys cfg path users w =
  (tt, w, [Critical "Cannot update" "Failed to open .gpg-id for writing."]).
Proof.
  intro Hclosed. unfold Init, bind. cbv beta. rewrite Hclosed. reflexivity.
Qed.

Lemma init_of_a_read_only_store :
  let cfg := Toy.settings true false false false in
  Toy.openWrite Toy.readOnly "/store/.gpg-id" = None /\
  Init Toy.system cfg "/store/" Fixtures.users Toy.readOnly =
  (tt, Toy.readOnly,
   [Critical "Cannot update" "Failed to open .gpg-id for writing."]).
Proof.
  cbv zeta. split; [reflexivity|].
  exact (init_gives_up_when_the_file_cannot_be_opened
           Toy.system (Toy.settings true false false false)
           "/store/" Fixtures.users Toy.readOnly eq_refl).
Defined.

(** ** The commands of every operation *)

Ltac store_commands :=
  repeat first [apply Forall_nil | apply Forall_cons]; cbn; auto.

Section Commands.

Context {W : Type}.
Variable sys : System W.
Variable cfg : Settings.

Lemma written_lines_are_no_commands (file : string) (lines : list string) :
  Forall (commandOfStore cfg) (map (FileWritten file) lines).
Proof. induction lines; constructor; [exact I | assumption]. Qed.

Lemma reencryptEntry_commands (entry : FileInfo) (gpgId : list string)
      (w : W) :
  Forall (commandOfStore cfg)
         (traceOf (reencryptEntry sys cfg entry gpgId w)).
Proof.
  destruct (reencryptEntry_shape sys cfg entry gpgId w)
    as (x & g & w' & tail & E & T).
  rewrite E. unfold traceOf. cbn [snd].
  apply Forall_app. split.
  - unfold loadEvents.
    destruct (path entry =? currentDir_path)%string; store_commands.
  - apply Forall_cons; [cbn; auto|].
    destruct T; [| | |destruct (vcsCommits cfg)];
      store_commands.
Qed.

Lemma reencryptLoop_commands (gpgFiles : list FileInfo) :
  forall (gpgId : list string) (w : W),
    Forall (commandOfStore cfg)
           (traceOf (reencryptLoop sys cfg gpgFiles gpgId w)).
Proof.
  induction gpgFiles as [|entry rest IH]; intros gpgId w; [constructor|].
  rewrite reencryptLoop_cons.
  pose proof (reencryptEntry_commands entry gpgId w) as He.
  destruct (reencryptEntry sys cfg entry gpgId w) as [[[x g] w1] t1].
  unfold traceOf in He. cbn [fst snd] in *.
  destruct x; [|exact He].
  specialize (IH g w1).
  destruct (reencryptLoop sys cfg rest g w1) as [[y w2] t2].
  unfold traceOf in *. cbn [snd] in *.
  apply Forall_app. now split.
Qed.

Lemma reencryptPath_commands (dir : string) (w : W) :
  Forall (commandOfStore cfg) (traceOf (reencryptPath sys cfg dir w)).
Proof.
  rewrite reencryptPath_unfold.
  assert (Hp : Forall (commandOfStore cfg)
                      (traceOf (prologue sys cfg dir w))).
  { unfold prologue, GitPull_b, bind, emit, ret, executeBlocking, traceOf.
    destruct (autoPull cfg).
    - destruct (sysExec sys w _ _ _). store_commands.
    - store_commands. }
  destruct (prologue sys cfg dir w) as [[u w0] t0].
  pose proof (reencryptLoop_commands (sysGpgFiles sys w0 dir) [] w0) as Hl.
  destruct (reencryptLoop sys cfg _ [] w0) as [[x w3] t3].
  unfold traceOf in *. cbn [snd] in *.
  apply Forall_app. split; [exact Hp|].
  apply Forall_app. split; [exact Hl|].
  unfold epilogue, epilogueEvents.
  destruct x; [destruct (autoPush cfg)|]; store_commands.
Qed.

Lemma Insert_commands (file newValue : string) (overwrite : bool) (w : W) :
  Forall (commandOfStore cfg)
         (traceOf (Insert sys cfg file newValue overwrite w)).
Proof.
  destruct (sysRecipients sys w (passStore cfg +++ file +++ ".gpg"))
    as [|r rs] eqn:Er.
  - unfold Insert, bind, getRecipientList. rewrite Er.
    store_commands.
  - rewrite (insert_with_recipients sys cfg file newValue overwrite w)
      by (rewrite Er; discriminate).
    unfold traceOf. cbn [snd].
    destruct (vcsCommits cfg); [destruct overwrite|];
      store_commands.
Qed.

Lemma Init_commands (path : string) (users : list UserInfo) (w : W) :
  Forall (commandOfStore cfg) (traceOf (Init sys cfg path users w)).
Proof.
  unfold Init, bind. cbv beta.
  destruct (sysOpenWrite sys w (path +++ ".gpg-id")) as [w'|] eqn:Eo;
    cbn [negb]; [|store_commands].
  rewrite writeUsers_spec. cbn [orb].
  destruct (secretSelected users); cbn [negb].
  - pose proof (reencryptPath_commands path
                  (writeLines sys (path +++ ".gpg-id")
                              (declarationLines users) w')) as Hw.
    unfold executeWrapper, GitCommit, executeWrapper, emit, ret.
    destruct (negb (useWebDav cfg) && useGit cfg &&
              negb (Qt.isEmpty (gitExecutable cfg)));
      [destruct (addGPGId cfg);
       [destruct (negb (sysExists sys w (path +++ ".gpg-id")) ||
                  negb (sysIsFile sys w (path +++ ".gpg-id")))|]|];
      cbn [app];
      destruct (reencryptPath sys cfg path _) as [[[] wF] t];
      unfold traceOf in *; cbn [snd] in *;
      (apply Forall_cons; [exact I|]);
      (apply Forall_app; split; [apply written_lines_are_no_commands|]);
      repeat (apply Forall_cons; [cbn; auto|]); exact Hw.
  - unfold traceOf, emit. cbn [snd].
    apply Forall_cons; [exact I|].
    apply Forall_app. split; [apply written_lines_are_no_commands|].
    store_commands.
Qed.

(** Whatever operation is called and whatever the world answers, every
    command it issues runs the configured git or gpg executable, and every
    command it queues asynchronously is queued with the pass store as
    working directory. *)
Theorem commands_run_the_configured_tools_in_the_store :
  (forall w : W, Forall (commandOfStore cfg) (traceOf (GitInit cfg w))) /\
  (forall w : W, Forall (commandOfStore cfg) (traceOf (GitPull cfg w))) /\
  (forall w : W, Forall (commandOfStore cfg) (traceOf (GitPull_b sys cfg w))) /\
  (forall w : W, Forall (commandOfStore cfg) (traceOf (GitPush cfg w))) /\
  (forall (file msg : string) (w : W),
      Forall (commandOfStore cfg) (traceOf (GitCommit cfg file msg w))) /\
  (forall (file : string) (w : W), Forall (commandOfStore cfg) (traceOf (Show cfg file w))) /\
  (forall (file : string) (w : W),
      Forall (commandOfStore cfg) (traceOf (Show_b sys cfg file w))) /\
  (forall file newValue overwrite w,
      Forall (commandOfStore cfg)
             (traceOf (Insert sys cfg file newValue overwrite w))) /\
  (forall file isDir w,
      Forall (commandOfStore cfg) (traceOf (Remove sys cfg file isDir w))) /\
  (forall path users w,
      Forall (commandOfStore cfg) (traceOf (Init sys cfg path users w))) /\
  (forall dir w,
      Forall (commandOfStore cfg) (traceOf (reencryptPath sys cfg dir w))).
Proof.
  repeat split; intros.
  - store_commands.
  - store_commands.
  - unfold GitPull_b, bind, executeBlocking, ret, traceOf.
    destruct (sysExec sys w _ _ _). store_commands.
  - store_commands.
  - store_commands.
  - store_commands.
  - unfold Show_b, executeBlocking, traceOf.
    destruct (sysExec sys w _ _ _). store_commands.
  - apply Insert_commands.
  - rewrite remove_trace.
    destruct (useGit cfg); [|destruct isDir]; store_commands.
  - apply Init_commands.
  - apply reencryptPath_commands.
Qed.

End Commands.

(** ** Creating and overwriting entries *)

Section InsertMessages.

Context {W : Type}.
Variable sys : System W.
Variable cfg : Settings.

(** When the store-relative path of the ciphertext file is the entry name
    with [.gpg] appended, the commit message [Insert] queues names the
    entry exactly as the caller passed it: appending the suffix and
    stripping it again cancel.  The file is staged only when it is not
    overwritten. *)
Theorem insert_commit_names_the_entry
        (file newValue : string) (overwrite : bool) (w : W) :
  sysRecipients sys w (passStore cfg +++ file +++ ".gpg") <> [] ->
  vcsCommits cfg = true ->
  sysRelativeFilePath sys (passStore cfg) (passStore cfg +++ file +++ ".gpg")
  = file +++ ".gpg" ->
  let t := traceOf (Insert sys cfg file newValue overwrite w) in
  map commitMessage (filter isCommit t) =
  [Some ((if overwrite then "Edit" else String DQUOTE "Add") +++
         " for " +++ file +++ " using QtPass.")] /\
  filter isStage t =
  (if overwrite then []
   else [Execute GIT_ADD (passStore cfg) (gitExecutable cfg)
                 ["add"; passStore cfg +++ file +++ ".gpg"] EmptyString]).
Proof.
  intros Hrec Hvcs Hrel. cbv zeta.
  rewrite (insert_with_recipients sys cfg file newValue overwrite w Hrec).
  rewrite Hvcs. unfold entryName. rewrite Hrel, removeGpgSuffix_gpg.
  unfold traceOf. cbn [snd].
  destruct overwrite; split; reflexivity.
Qed.

End InsertMessages.

Section InsertQueue.

Context {W : Type}.
Variable sys : System W.
Variable cfg : Settings.

(** With recipients declared, [Insert] changes nothing itself and awaits
    nothing: it queues exactly one encryption, of the new value to the
    ciphertext file, with one [-r] per declared recipient in declaration
    order and [--yes] exactly when overwriting; every other command it
    issues is queued too, and only when version control is on and WebDAV
    is off. *)
Theorem insert_queues_one_encryption
        (file newValue : string) (overwrite : bool) (w : W) :
  sysRecipients sys w (passStore cfg +++ file +++ ".gpg") <> [] ->
  let full := passStore cfg +++ file +++ ".gpg" in
  let run := Insert sys cfg file newValue overwrite w in
  worldOf run = w /\
  filter isBlocking (traceOf run) = [] /\
  filter isEncrypt (traceOf run) =
  [Execute PASS_INSERT (passStore cfg) (gpgExecutable cfg)
     (["--batch"; "-eq"; "--output"; full] ++
      flat_map (fun r => ["-r"; r]) (sysRecipients sys w full) ++
      (if overwrite then ["--yes"] else []) ++ ["-"])
     newValue] /\
  List.length (filter spawnsProcess (traceOf run)) =
  (if negb (useWebDav cfg) && useGit cfg
   then if overwrite then 2 else 3
   else 1).
Proof.
  intros Hrec. cbv zeta.
  rewrite (insert_with_recipients sys cfg file newValue overwrite w Hrec).
  unfold worldOf, traceOf, vcsCommits. cbn [fst snd].
  destruct (negb (useWebDav cfg) && useGit cfg); destruct overwrite;
    repeat split; reflexivity.
Qed.

End InsertQueue.

Lemma insert_into_a_declared_store :
  let cfg := Toy.settings true false false false in
  let run := Insert Toy.system cfg "mail/work" "secret" false Toy.drifted in
  worldOf run = Toy.drifted /\
  filter isEncrypt (traceOf run) =
  [Execute PASS_INSERT "/store/" "gpg"
     ["--batch"; "-eq"; "--output"; "/store/mail/work.gpg";
      "-r"; "BBBBBBBBBBBBBBBB"; "-"] "secret"] /\
  List.length (filter spawnsProcess (traceOf run)) = 3.
Proof.
  cbv zeta.
  destruct (insert_queues_one_encryption
              Toy.system (Toy.settings true false false false)
              "mail/work" "secret" false Toy.drifted
              ltac:(vm_compute; discriminate))
    as (Hw & _ & He & Hn).
  split; [exact Hw|]. split; [exact He | exact Hn].
Defined.

Lemma overwrite_in_a_declared_store :
  let cfg := Toy.settings true false false false in
  let t := traceOf (Insert Toy.system cfg "secrets/db" "new" true
                           Toy.drifted) in
  map commitMessage (filter isCommit t) =
  [Some "Edit for secrets/db using QtPass."] /\
  filter isStage t = [].
Proof.
  cbv zeta.
  exact (insert_commit_names_the_entry
           Toy.system (Toy.settings true false false false)
           "secrets/db" "new" true Toy.drifted
           ltac:(vm_compute; discriminate) eq_refl eq_refl).
Defined.

(** ** Commits of a walk, on the drifted store *)

Lemma drifted_store_commit_is_an_edit :
  let cfg := Toy.settings true false false false in
  let e := ExecuteBlocking "git"
             ["commit"; "/store/secrets/db.gpg"; "-m";
              "Edit for secrets/db using QtPass."] EmptyString in
  In e (traceOf (reencryptPath Toy.system cfg "/store/" Toy.drifted)) /\
  useGit cfg = true /\ useWebDav cfg = false.
Proof.
  cbv zeta.
  assert (Hin : In (ExecuteBlocking "git"
                      ["commit"; "/store/secrets/db.gpg"; "-m";
                       "Edit for secrets/db using QtPass."] EmptyString)
                   (traceOf (reencryptPath Toy.system
                               (Toy.settings true false false false)
                               "/store/" Toy.drifted)))
    by (vm_compute; tauto).
  split; [exact Hin|].
  destruct (walk_commits_only_edits_of_listed_entries
              Toy.system (Toy.settings true false false false)
              "/store/" Toy.drifted _ Hin eq_refl) as (Hg & Hd & _).
  split; assumption.
Defined.

(** In a walk over a listing without repeated files, the commits made for
    an entry's file are those of the entry's own iteration: none before the
    walk reaches the entry, none in the iterations after it, none in the
    epilogue. *)
Theorem commits_for_an_entry_stay_in_its_iteration
        {W : Type} (sys : System W) (cfg : Settings)
        (dir : string) (w : W) (i : nat)
        (entry : FileInfo) (post : list FileInfo) (g1 : list string)
        (w1 : W) (t : list Event) :
  walkAt sys cfg dir w i = Some (entry, post, g1, w1, t) ->
  NoDup (map filePath
             (sysGpgFiles sys (worldOf (prologue sys cfg dir w)) dir)) ->
  commitsFor (filePath entry) (traceOf (reencryptPath sys cfg dir w)) =
  commitsFor (filePath entry)
             (traceOf (reencryptEntry sys cfg entry g1 w1)).
Proof.
  intros Hat Hnd.
  destruct (commits_only_in_own_iteration sys cfg _ _ _ _ _ _ _ _ Hat Hnd)
    as [Hbefore Hafter].
  rewrite (reencryptPath_from sys cfg _ _ _ _ _ _ _ _ Hat).
  rewrite reencryptLoop_cons.
  destruct (reencryptEntry sys cfg entry g1 w1) as [[[x g] w2] t2].
  cbn [fst snd]. destruct x.
  - specialize (Hafter g w2).
    destruct (reencryptLoop sys cfg post g w2) as [[y w3] t3].
    unfold traceOf in *. cbn [snd] in *.
    rewrite !commitsFor_app, Hbefore, Hafter, epilogue_commits.
    cbn [app]. rewrite !app_nil_r. reflexivity.
  - unfold traceOf. cbn [snd epilogue].
    rewrite !commitsFor_app, Hbefore. cbn [app].
    rewrite ?app_nil_r. reflexivity.
Qed.

Lemma partly_sealed_store_commits_stay_apart :
  let cfg := Toy.settings true false false false in
  commitsFor "/store/b.gpg"
    (traceOf (reencryptPath Toy.system cfg "/store/" Toy.partlySealed)) =
  [editCommitEvent Toy.system cfg "/store/b.gpg"].
Proof.
  cbv zeta.
  set (cfg := Toy.settings true false false false).
  assert (Hat : exists g w t,
             walkAt Toy.system cfg "/store/" Toy.partlySealed 1 =
             Some (mkFileInfo "/store/b.gpg" "/store",
                   [mkFileInfo "/store/c.gpg" "/store"], g, w, t))
    by (eexists _, _, _; reflexivity).
  destruct Hat as (g & w & t & Hat).
  pose proof (commits_for_an_entry_stay_in_its_iteration
                Toy.system cfg "/store/" Toy.partlySealed 1 _ _ _ _ _ Hat
                ltac:(vm_compute; repeat constructor; cbn;
                      intuition discriminate)) as H.
  cbn [filePath] in H. rewrite H.
  vm_compute in Hat. injection Hat as <- <- <-. reflexivity.
Defined.

(** ** removeDir *)

Section RemoveDirAttempts.

Context {W : Type}.
Variable fs : FileSystem W.

Lemma stoppedAtFailure_app (t1 t2 : list Attempt) (r : bool) :
  forallb attemptOk t1 = true ->
  stoppedAtFailure r t2 -> stoppedAtFailure r (t1 ++ t2).
Proof.
  intros H1 H2. destruct r; cbn in *.
  - now rewrite forallb_app, H1, H2.
  - destruct H2 as (done & failed & -> & Hd & Hf).
    exists (t1 ++ done), failed.
    rewrite app_assoc, forallb_app, H1, Hd. auto.
Qed.

Lemma stoppedAtFailure_single (a : Attempt) :
  stoppedAtFailure (attemptOk a) [a].
Proof.
  destruct (attemptOk a) eqn:E; cbn.
  - now rewrite E.
  - exists [], a. auto.
Qed.

Lemma stoppedAtFailure_all (r : bool) (t : list Attempt) :
  stoppedAtFailure r t -> r = forallb attemptOk t.
Proof.
  destruct r; cbn; [now intros ->|].
  intros (done & failed & -> & Hd & Hf).
  rewrite forallb_app, Hd. cbn. now rewrite Hf.
Qed.

Lemma removeEntries_attempts (rec : string -> W -> Removal W)
      (infos : list EntryInfo) :
  (forall d w r w' t, rec d w = Some (r, w', t) -> stoppedAtFailure r t) ->
  forall w r w' t,
    removeEntries fs rec infos w = Some (r, w', t) -> stoppedAtFailure r t.
Proof.
  intro Hrec.
  induction infos as [|info rest IH]; intros w r w' t; cbn [removeEntries].
  - intros [= <- <- <-]. reflexivity.
  - assert (Hstep : forall r1 w1 t1,
               (if infoIsDir info then rec (infoAbsoluteFilePath info) w
                else
                  let '(ok, v) := fsRemove fs w (infoAbsoluteFilePath info)
                  in Some (ok, v,
                           [FileRemoval (infoAbsoluteFilePath info) ok]))
               = Some (r1, w1, t1) -> stoppedAtFailure r1 t1).
    { intros r1 w1 t1. destruct (infoIsDir info); [apply Hrec|].
      destruct (fsRemove fs w _) as [ok v]. intros [= <- <- <-].
      apply (stoppedAtFailure_single (FileRemoval _ ok)). }
    destruct (if infoIsDir info then _ else _) as [[[r1 w1] t1]|];
      [|discriminate].
    specialize (Hstep r1 w1 t1 eq_refl).
    destruct r1.
    + destruct (removeEntries fs rec rest w1) as [[[r2 w2] t2]|] eqn:E;
        [|discriminate].
      intros [= <- <- <-].
      apply stoppedAtFailure_app; [exact Hstep | exact (IH _ _ _ _ E)].
    + intros [= <- <- <-]. exact Hstep.
Qed.

(** Whatever the recursion bound, a run that returns has attempted its
    removals one after the other and stopped at the first that failed. *)
Lemma removeDir_attempts (fuel : nat) :
  forall dirName w r w' t,
    removeDir fs fuel dirName w = Some (r, w', t) -> stoppedAtFailure r t.
Proof.
  induction fuel as [|fuel IH]; intros dirName w r w' t; cbn [removeDir];
    [discriminate|].
  destruct (fsExists fs w dirName dirName).
  - destruct (removeEntries fs (removeDir fs fuel) _ w)
      as [[[r1 w1] t1]|] eqn:E; [|discriminate].
    pose proof (removeEntries_attempts _ _ IH _ _ _ _ E) as H1.
    destruct r1.
    + destruct (fsRmdir fs w1 dirName dirName) as [ok w2].
      intros [= <- <- <-].
      apply stoppedAtFailure_app; [exact H1|].
      apply (stoppedAtFailure_single (DirRemoval _ _ ok)).
    + intros [= <- <- <-]. exact H1.
  - intros [= <- <- <-]. reflexivity.
Qed.


Lemma removeEntries_more (rec1 rec2 : string -> W -> Removal W)
      (infos : list EntryInfo) :
  (forall d w x, rec1 d w = Some x -> rec2 d w = Some x) ->
  forall w x,
    removeEntries fs rec1 infos w = Some x ->
    removeEntries fs rec2 infos w = Some x.
Proof.
  intro Hrec.
  induction infos as [|info rest IH]; intros w x; cbn [removeEntries];
    [auto|].
  destruct (infoIsDir info).
  - destruct (rec1 (infoAbsoluteFilePath info) w) as [[[r1 w1] t1]|] eqn:E;
      [|discriminate].
    rewrite (Hrec _ _ _ E).
    destruct r1; [|auto].
    destruct (removeEntries fs rec1 rest w1) as [y|] eqn:E1; [|discriminate].
    now rewrite (IH _ _ E1).
  - destruct (fsRemove fs w _) as [[] w1]; [|auto].
    destruct (removeEntries fs rec1 rest w1) as [y|] eqn:E1; [|discriminate].
    now rewrite (IH _ _ E1).
Qed.

(** A deeper recursion bound does not change what a run returns. *)
Lemma removeDir_more_fuel (fuel : nat) :
  forall dirName w x,
    removeDir fs fuel dirName w = Some x ->
    forall more, fuel <= more -> removeDir fs more dirName w = Some x.
Proof.
  induction fuel as [|fuel IH]; intros dirName w x; cbn [removeDir];
    [discriminate|].
  intros H [|more] Hle; [lia|]. cbn [removeDir].
  destruct (fsExists fs w dirName dirName); [|exact H].
  destruct (removeEntries fs (removeDir fs fuel) _ w) as [y|] eqn:E;
    [|discriminate].
  rewrite (removeEntries_more (removeDir fs fuel) (removeDir fs more) _
             (fun d v z Hz => IH d v z Hz more ltac:(lia)) _ _ E).
  exact H.
Qed.

(** *** Directories that nest finitely

    [rank] bounds how deep the directories below a name nest in every
    world that satisfies [inv], and removals keep [inv]. *)

Variable rank : string -> nat.
Variable inv : W -> Prop.

Hypothesis remove_keeps_inv :
  forall w fileName, inv w -> inv (snd (fsRemove fs w fileName)).
Hypothesis rmdir_keeps_inv :
  forall w dir name, inv w -> inv (snd (fsRmdir fs w dir name)).
Hypothesis listed_directories_rank_lower :
  forall w dir info,
    inv w -> In info (fsEntryInfoList fs w dir) -> infoIsDir info = true ->
    rank (infoAbsoluteFilePath info) < rank dir.

Lemma removeEntries_returns (rec : string -> W -> Removal W) (n : nat)
      (infos : list EntryInfo) :
  (forall d w, inv w -> rank d < n ->
               exists r w' t, rec d w = Some (r, w', t) /\ inv w') ->
  (forall info, In info infos -> infoIsDir info = true ->
                rank (infoAbsoluteFilePath info) < n) ->
  forall w, inv w ->
    exists r w' t, removeEntries fs rec infos w = Some (r, w', t) /\ inv w'.
Proof.
  intro Hrec.
  induction infos as [|info rest IH]; intros Hlist w Hw; cbn [removeEntries].
  - now exists true, w, [].
  - assert (Hstep : exists r1 w1 t1,
               (if infoIsDir info then rec (infoAbsoluteFilePath info) w
                else
                  let '(ok, v) := fsRemove fs w (infoAbsoluteFilePath info)
                  in Some (ok, v,
                           [FileRemoval (infoAbsoluteFilePath info) ok]))
               = Some (r1, w1, t1) /\ inv w1).
    { destruct (infoIsDir info) eqn:Ed.
      - apply Hrec; [exact Hw|]. apply Hlist; [now left | exact Ed].
      - pose proof (remove_keeps_inv w (infoAbsoluteFilePath info) Hw) as Hk.
        destruct (fsRemove fs w _) as [ok v]. cbn [snd] in Hk.
        now exists ok, v, [FileRemoval (infoAbsoluteFilePath info) ok]. }
    destruct Hstep as (r1 & w1 & t1 & -> & Hw1).
    destruct r1; [|now exists false, w1, t1].
    destruct (IH (fun i Hi => Hlist i (or_intror Hi)) w1 Hw1)
      as (r2 & w2 & t2 & -> & Hw2).
    now exists r2, w2, (t1 ++ t2).
Qed.

Lemma removeDir_returns (fuel : nat) :
  forall dirName w,
    inv w -> rank dirName < fuel ->
    exists r w' t, removeDir fs fuel dirName w = Some (r, w', t) /\ inv w'.
Proof.
  induction fuel as [|fuel IH]; intros dirName w Hw Hrank; [lia|].
  cbn [removeDir].
  destruct (fsExists fs w dirName dirName); [|now exists true, w, []].
  destruct (removeEntries_returns (removeDir fs fuel) fuel
              (fsEntryInfoList fs w dirName) IH) with (w := w)
    as (r1 & w1 & t1 & -> & Hw1); [|exact Hw|].
  { intros info Hin Hd.
    pose proof (listed_directories_rank_lower w dirName info Hw Hin Hd).
    lia. }
  destruct r1; [|now exists false, w1, t1].
  pose proof (rmdir_keeps_inv w1 dirName dirName Hw1) as Hk.
  destruct (fsRmdir fs w1 dirName dirName) as [ok w2]. cbn [snd] in Hk.
  now exists ok, w2, (t1 ++ [DirRemoval dirName dirName ok]).
Qed.

(** Where directories nest finitely, [removeDir] returns, and what it
    returns does not depend on the recursion bound once that exceeds the
    rank of [dirName].  The answer is [true] exactly when every removal it
    attempted succeeded.  When [dirName] is not found in the directory
    [dirName], it answers [true], attempts nothing and leaves the world as
    it is. *)
Theorem removeDir_answers_whether_every_removal_succeeded
        (dirName : string) (w : W) :
  inv w ->
  exists r w' t,
    (forall fuel, rank dirName < fuel ->
                  removeDir fs fuel dirName w = Some (r, w', t)) /\
    r = forallb attemptOk t /\
    (fsExists fs w dirName dirName = false ->
     r = true /\ w' = w /\ t = []).
Proof.
  intro Hw.
  destruct (removeDir_returns (S (rank dirName)) dirName w Hw)
    as (r & w' & t & Hrun & _); [lia|].
  exists r, w', t.
  split.
  { intros fuel Hf.
    apply (removeDir_more_fuel _ _ _ _ Hrun). lia. }
  split; [exact (stoppedAtFailure_all _ _ (removeDir_attempts _ _ _ _ _ _
                                            Hrun))|].
  intro Hex. cbn [removeDir] in Hrun. rewrite Hex in Hrun.
  injection Hrun as <- <- <-. auto.
Qed.


End RemoveDirAttempts.

(** *** On the small file system *)

Lemma toyfs_insertEntry_In (x y : ToyFs.Entry) (l : list ToyFs.Entry) :
  In y (ToyFs.insertEntry x l) -> y = x \/ In y l.
Proof.
  induction l as [|z l IH]; cbn.
  - intros [<-|[]]. now left.
  - destruct (ToyFs.before x z); cbn.
    + intros [<-|H]; [now left | now right].
    + intros [<-|H]; [right; now left|].
      destruct (IH H) as [->|H']; [now left | right; now right].
Qed.

Lemma toyfs_listing_In (y : ToyFs.Entry) (l : list ToyFs.Entry) :
  In y (ToyFs.listing l) -> In y l.
Proof.
  induction l as [|x l IH]; cbn; [auto|].
  intro H. destruct (toyfs_insertEntry_In _ _ _ H) as [->|H'];
    [now left | right; auto].
Qed.

Lemma toyfs_delete_nested (bound : nat) (p : string) (w : ToyFs.World) :
  ToyFs.nested bound w = true ->
  ToyFs.nested bound (ToyFs.delete p w) = true.
Proof.
  unfold ToyFs.nested, ToyFs.delete. rewrite !forallb_forall.
  intros H e He. apply filter_In in He. now apply H.
Qed.

Lemma toyfs_remove_nested (bound : nat) (w : ToyFs.World) (p : string) :
  ToyFs.nested bound w = true ->
  ToyFs.nested bound (snd (ToyFs.remove w p)) = true.
Proof.
  intro H. unfold ToyFs.remove.
  destruct (ToyFs.lookup w _) as [e|]; [|exact H].
  destruct (negb (ToyFs.entryIsDir e) && ToyFs.entryRemovable e);
    [now apply toyfs_delete_nested | exact H].
Qed.

Lemma toyfs_rmdir_nested (bound : nat) (w : ToyFs.World) (d n : string) :
  ToyFs.nested bound w = true ->
  ToyFs.nested bound (snd (ToyFs.rmdir w d n)) = true.
Proof.
  intro H. unfold ToyFs.rmdir. cbv zeta.
  destruct (ToyFs.lookup w _) as [e|]; [|exact H].
  destruct (_ && _); [now apply toyfs_delete_nested | exact H].
Qed.

Lemma toyfs_absolutePath_length (p : string) :
  String.length p <= String.length (ToyFs.absolutePath p).
Proof.
  unfold ToyFs.absolutePath. destruct (ToyFs.isAbsolute p); [lia|].
  rewrite !length_append. lia.
Qed.

Lemma toyfs_listed_rank (bound : nat) (w : ToyFs.World) (d : string)
      (info : EntryInfo) :
  ToyFs.nested bound w = true ->
  In info (ToyFs.entryInfoList w d) -> infoIsDir info = true ->
  ToyFs.rank bound (infoAbsoluteFilePath info) < ToyFs.rank bound d.
Proof.
  intros Hn Hin _. unfold ToyFs.entryInfoList in Hin.
  apply in_map_iff in Hin. destruct Hin as (e & <- & He).
  apply toyfs_listing_In in He. unfold ToyFs.children in He.
  apply filter_In in He. destruct He as [Hw Hp].
  apply String.eqb_eq in Hp.
  unfold ToyFs.nested in Hn. rewrite forallb_forall in Hn.
  specialize (Hn e Hw). apply andb_prop in Hn. destruct Hn as [H1 H2].
  apply Nat.ltb_lt in H1. apply Nat.leb_le in H2.
  pose proof (toyfs_absolutePath_length d) as Hd.
  rewrite Hp in H1. unfold ToyFs.rank. cbn [infoAbsoluteFilePath]. lia.
Qed.

(** A relative name of an existing, removable directory: the name is
    looked up inside the directory, is not found there, and nothing is
    removed. *)
Lemma relative_name_removes_nothing :
  ToyFs.exists_ ToyFs.removable "/home" "notes" = true /\
  forall fuel, 32 < fuel ->
    removeDir ToyFs.fileSystem fuel "notes" ToyFs.removable =
    Some (true, ToyFs.removable, []).
Proof.
  split; [reflexivity|].
  destruct (removeDir_answers_whether_every_removal_succeeded
              ToyFs.fileSystem (ToyFs.rank 32)
              (fun w => ToyFs.nested 32 w = true)
              (toyfs_remove_nested 32) (toyfs_rmdir_nested 32)
              (toyfs_listed_rank 32)
              "notes" ToyFs.removable eq_refl)
    as (r & w' & t & Hrun & _ & Hnone).
  destruct (Hnone eq_refl) as (-> & -> & ->).
  intros fuel Hf. apply Hrun. cbn. lia.
Defined.


(** ** The walk and its surroundings *)

Section WalkSurroundings.

Context {W : Type}.
Variable sys : System W.
Variable cfg : Settings.

(** With pull-before-operate, the pull is awaited first, its outcome is not
    looked at, and the entries walked are those listed in the world the
    pull left. *)
Theorem walk_lists_the_entries_after_the_pull (dir : string) (w : W) :
  autoPull cfg = true ->
  let w0 := fst (sysExec sys w (gitExecutable cfg) ["pull"] EmptyString) in
  reencryptPath sys cfg dir w =
  (let '(x, w3, t3) :=
     reencryptLoop sys cfg (sysGpgFiles sys w0 dir) [] w0 in
   (tt, w3,
    [StatusMsg ("Re-encrypting from folder " +++ dir) 3000;
     StartReencryptPath;
     StatusMsg "Updating password-store" 2000;
     ExecuteBlocking (gitExecutable cfg) ["pull"] EmptyString] ++
    t3 ++ epilogue cfg x)).
Proof.
  intros Hpull. cbv zeta. rewrite reencryptPath_unfold.
  unfold prologue, GitPull_b, bind, emit, ret, executeBlocking.
  rewrite Hpull.
  destruct (sysExec sys w _ _ _) as [w0 r]. reflexivity.
Qed.

(** Under a directory without ciphertext files the walk inspects, decrypts
    and encrypts nothing: it consists of its prologue and its epilogue, the
    push included when push-after-operate is on. *)
Theorem walk_of_a_directory_without_entries (dir : string) (w : W) :
  sysGpgFiles sys (worldOf (prologue sys cfg dir w)) dir = [] ->
  reencryptPath sys cfg dir w =
  (tt, worldOf (prologue sys cfg dir w),
   traceOf (prologue sys cfg dir w) ++ epilogueEvents cfg) /\
  filter isBlocking (traceOf (reencryptPath sys cfg dir w)) =
  (if autoPull cfg
   then [ExecuteBlocking (gitExecutable cfg) ["pull"] EmptyString]
   else []).
Proof.
  intro Hnone.
  assert (E : reencryptPath sys cfg dir w =
              (tt, worldOf (prologue sys cfg dir w),
               traceOf (prologue sys cfg dir w) ++ epilogueEvents cfg)).
  { rewrite reencryptPath_unfold.
    destruct (prologue sys cfg dir w) as [[u w0] t0].
    unfold worldOf, traceOf in *. cbn [fst snd] in *.
    rewrite Hnone. reflexivity. }
  split; [exact E|].
  rewrite E. unfold traceOf at 1. cbn [snd].
  unfold prologue, GitPull_b, bind, emit, ret, executeBlocking, traceOf,
    epilogueEvents.
  destruct (autoPull cfg).
  - destruct (sysExec sys w _ _ _). destruct (autoPush cfg); reflexivity.
  - destruct (autoPush cfg); reflexivity.
Qed.

End WalkSurroundings.

Lemma walk_with_pull_on_the_drifted_store :
  let cfg := Toy.settings true false true false in
  firstn 5 (traceOf (reencryptPath Toy.system cfg "/store/" Toy.drifted)) =
  [StatusMsg "Re-encrypting from folder /store/" 3000;
   StartReencryptPath;
   StatusMsg "Updating password-store" 2000;
   ExecuteBlocking "git" ["pull"] EmptyString;
   GetRecipientList "/store/secrets/db.gpg"].
Proof.
  cbv zeta.
  rewrite (walk_lists_the_entries_after_the_pull
             Toy.system (Toy.settings true false true false)
             "/store/" Toy.drifted eq_refl).
  reflexivity.
Defined.

Lemma walk_of_the_empty_store :
  let cfg := Toy.settings true false true true in
  traceOf (reencryptPath Toy.system cfg "/store/" Toy.empty) =
  [StatusMsg "Re-encrypting from folder /store/" 3000;
   StartReencryptPath;
   StatusMsg "Updating password-store" 2000;
   ExecuteBlocking "git" ["pull"] EmptyString;
   StatusMsg "Updating password-store" 2000;
   Execute GIT_PUSH "/store/" "git" ["push"] EmptyString;
   EndReencryptPath].
Proof.
  cbv zeta.
  rewrite (proj1 (walk_of_a_directory_without_entries
                    Toy.system (Toy.settings true false true true)
                    "/store/" Toy.empty eq_refl)).
  reflexivity.
Defined.

(** ** Removal and the settings *)

(** [Remove] reads three settings only: the store path, the version control
    executable and the version control switch.  Two configurations that
    agree on these make it do the same, whatever they say about WebDAV,
    pulling, pushing or the encryption executable. *)
Theorem remove_reads_three_settings
        {W : Type} (sys : System W) (cfg cfg' : Settings)
        (file : string) (isDir : bool) (w : W) :
  passStore cfg = passStore cfg' ->
  gitExecutable cfg = gitExecutable cfg' ->
  useGit cfg = useGit cfg' ->
  Remove sys cfg file isDir w = Remove sys cfg' file isDir w.
Proof.
  intros Hstore Hgit Huse.
  unfold Remove, GitCommit, executeWrapper, bind, emit.
  rewrite Hstore, Hgit, Huse. reflexivity.
Qed.

Lemma remove_under_webdav_still_uses_version_control :
  traceOf (Remove Toy.system (Toy.settings true true false false)
                  "notes" false Toy.drifted) =
  [Execute GIT_RM "/store/" "git" ["rm"; "-f"; "/store/notes.gpg"]
           EmptyString;
   Execute GIT_COMMIT "/store/" "git"
           ["commit"; "-m"; "Remove for /store/notes.gpg using QtPass.";
            "--"; "/store/notes.gpg"] EmptyString].
Proof.
  rewrite (remove_reads_three_settings
             Toy.system (Toy.settings true true false false)
             (Toy.settings true false false false)
             "notes" false Toy.drifted eq_refl eq_refl eq_refl).
  reflexivity.
Defined.
